(** * Quantum-Hamiltonian-Simulation: Grover-Rudolph and Kitaev-Webb notebooks

    A shallow embedding of the two notebooks of the repository:

    - the Grover-Rudolph notebook ([GRA]): the classical pre-computation of
      the tables [F], [T], [P] over the binary interval tree and the
      construction of the circuit, and the density [norm] the notebook
      runs it on (module [GR]);
    - [main.ipynb]: [binary_approx], [f], [angle], the stub [KWA] and the
      cell that builds a circuit of four qubits (module [KW]).

    Conventions of the embedding.

    - Python floats are numbers of binary64.  Where a statement depends on
      it, the arithmetic of binary64 is written out (module [B64]): the
      rounding to nearest, ties to even, of every operation of
      [binary_approx] ([KW.binary_approx_b64], over the rationals), and the
      underflow to 0.0 of [np.exp] in [norm].  Elsewhere floats are read
      as exact numbers: reals ([R]) where the code calls [sqrt], [arccos],
      [exp] or an integrator, rationals ([Q]) in [KW.binary_approx], the
      exact reading of [binary_approx], which the binary64 run follows up
      to 53 bits and no further.  In the exact reading rounding is outside
      the model.  [f] and [angle] are read in it: there [exp] does not
      underflow, a sum absorbs no term and nothing is [inf] or [nan].
    - A Python exception is a [Raise] of the [result] type.  Division of
      Python floats by zero raises [ZeroDivisionError]; numpy's [sqrt] and
      [arccos] never raise, and are the total functions of the real
      library.  What [dist] or the integrator may raise themselves (an
      [OverflowError] of [x**2], say) passes through [GRA] and is outside
      the model: [dist] and [quad] are total functions.
    - The qubit count [n] of [GRA] and the indices of its loops are natural
      numbers.  The [k] of [binary_approx] and the [n] of [f] are integers:
      [range] and [arange] are empty where the upper bound is not above the
      lower one.
    - [scipy.integrate.quad] and the circuit classes of Qiskit are external
      to the repository.  The integrator is a parameter [quad] (the first
      component of the pair scipy returns); a circuit is the list of the
      calls that appended to it, one instruction per call.  The gates into
      which Qiskit itself expands a call of [mcrx] are Qiskit's, and are
      not counted.  What the instructions do to a state vector is read
      from the matrices of Qiskit's gates (module [StateVector]), and used
      only where a statement speaks of measurement probabilities. *)

From Stdlib Require Import Reals Lqa Lra Lia List ZArith QArith Qabs Qpower Arith Bool.
From Stdlib Require Import FunctionalExtensionality.
Import ListNotations.

(** * Part I. The programs *)

(** ** Python values that raise *)

Module Py.

Inductive exn : Set :=
| ZeroDivisionError
| IndexError
| CircuitError.

Inductive result (A : Type) : Type :=
| Ok (a : A)
| Raise (e : exn).

Arguments Ok {A} a.
Arguments Raise {A} e.

Definition bind {A B : Type} (r : result A) (k : A -> result B) : result B :=
  match r with
  | Ok a => k a
  | Raise e => Raise e
  end.

(** [range(lo, hi)] with step 1. *)
Definition range (lo hi : nat) : list nat := seq lo (hi - lo).

(** [for x in l: s = body(x, s)], stopping at the first exception. *)
Fixpoint for_ {A S : Type} (l : list A) (body : A -> S -> result S) (s : S)
  : result S :=
  match l with
  | [] => Ok s
  | x :: l' => bind (body x s) (for_ l' body)
  end.

(** [l[m].append(x)] on a list of lists. *)
Definition append_at {A : Type} (l : list (list A)) (m : nat) (x : A)
  : result (list (list A)) :=
  match nth_error l m with
  | Some row => Ok (firstn m l ++ (row ++ [x]) :: skipn (S m) l)
  | None => Raise IndexError
  end.

(** [l[m][i]]. *)
Definition getitem2 {A : Type} (l : list (list A)) (m i : nat) : result A :=
  match nth_error l m with
  | Some row =>
      match nth_error row i with
      | Some x => Ok x
      | None => Raise IndexError
      end
  | None => Raise IndexError
  end.

End Py.

Import Py.

Declare Scope py_scope.
Delimit Scope py_scope with py.
Notation "x <- e ;; k" := (bind e (fun x => k))
  (at level 61, e at next level, right associativity) : py_scope.
Notation "' pat <- e ;; k" := (bind e (fun x => match x with pat => k end))
  (at level 61, pat pattern, e at next level, right associativity) : py_scope.

(** ** Python floats

    A Python float is a number of binary64: an integer of at most 53 bits
    times a power of two, the exponent not below -1074.  Every operation
    returns its exact result rounded to the nearest such number, a tie
    going to the one whose integer is even.  Overflow (a result of 2^1024
    or more) is not modelled. *)

Module B64.

(** The integer nearest to [p / d], for [d > 0]; a tie goes to the even
    one. *)
Definition nearest_even (p d : Z) : Z :=
  let q := (p / d)%Z in
  match (2 * (p mod d) ?= d)%Z with
  | Lt => q
  | Gt => (q + 1)%Z
  | Eq => if Z.even q then q else (q + 1)%Z
  end.

(** [floor (log2 x)] for [x > 0]: the difference of the bit lengths of the
    numerator and of the denominator, or one less. *)
Definition ilog2 (x : Q) : Z :=
  let e := (Z.log2 (Qnum x) - Z.log2 (Zpos (Qden x)))%Z in
  if Qle_bool (2 ^ e) x then e else (e - 1)%Z.

(** The exponent of the last place of the numbers of binary64 around [x]:
    53 significant bits, and no exponent below -1074 (the subnormal
    numbers). *)
Definition ulp_exponent (x : Q) : Z := Z.max (ilog2 (Qabs x) - 52) (-1074).

(** The number of binary64 nearest to [x]. *)
Definition round (x : Q) : Q :=
  if Qeq_bool x 0 then 0%Q
  else
    let q := ulp_exponent x in
    let y := (x / 2 ^ q)%Q in
    Qred (inject_Z (nearest_even (Qnum y) (Zpos (Qden y))) * 2 ^ q).

(** Underflow alone, over the reals: a result at or below [2^-1075], half
    the least positive number of binary64, rounds to 0.0.  The rounding of
    the other results is left out. *)
Definition underflow (y : R) : R :=
  if Rle_dec (Rabs y) (/ 2 ^ 1075) then 0%R else y.

End B64.

(** ** The Grover-Rudolph notebook *)

Module GR.

Local Open Scope R_scope.
Local Open Scope py_scope.

(** [np.exp]: the exponential, and 0.0 where it underflows. *)
Definition np_exp (x : R) : R := B64.underflow (exp x).

(** [norm(x)], the density of the standard normal law, one of the helper
    functions of the notebook.  In Python [-x**2] is [-(x**2)]. *)
Definition norm (x : R) : R :=
  B64.underflow ((1 / sqrt (2 * PI)) * np_exp (- x ^ 2 / 2)).

(** Division of two Python floats. *)
Definition py_div (x y : R) : result R :=
  if Req_dec_T y 0 then Raise ZeroDivisionError else Ok (x / y).

(** The three tables of [GRA]: [F], [T] and [P], in this order. *)
Definition tables : Type := (list (list R) * list (list R) * list (list R))%type.

(** The four interval bounds the inner loop computes for level [m], index [i]. *)
Definition num_LB (a b : R) (m i : nat) : R := a + ((b - a) / INR (2 ^ m)) * INR i.
Definition num_UB (a b : R) (m i : nat) : R := num_LB a b m i + (b - a) / INR (2 ^ (m + 1)).
Definition den_LB (a b : R) (m i : nat) : R := a + ((b - a) / INR (2 ^ m)) * INR i.
Definition den_UB (a b : R) (m i : nat) : R := a + ((b - a) / INR (2 ^ m)) * INR (i + 1).

Section Tables.

(** [quad dist lo hi] is [integrate.quad(dist, lo, hi)[0]]. *)
Variable quad : (R -> R) -> R -> R -> R.

(** Body of [for i in range(0, 2**m)]. *)
Definition GRA_inner (dist : R -> R) (a b : R) (m i : nat) (s : tables)
  : result tables :=
  let '(F, T, P) := s in
  f <- py_div (quad dist (num_LB a b m i) (num_UB a b m i))
              (quad dist (den_LB a b m i) (den_UB a b m i)) ;;
  let t := acos (sqrt f) in
  let p := quad dist (den_LB a b m i) (den_UB a b m i) in
  F <- append_at F m f ;;
  T <- append_at T m t ;;
  P <- append_at P m p ;;
  Ok (F, T, P).

(** Body of [for m in range(0, n+1)]. *)
Definition GRA_outer (dist : R -> R) (a b : R) (m : nat) (s : tables)
  : result tables :=
  let '(F, T, P) := s in
  let F := F ++ [[]] in
  let T := T ++ [[]] in
  let P := P ++ [[]] in
  for_ (range 0 (2 ^ m)) (GRA_inner dist a b m) (F, T, P).

(** The first loop nest of [GRA]: the tables once it is over. *)
Definition GRA_tables (n : nat) (dist : R -> R) (a b : R) : result tables :=
  for_ (range 0 (n + 1)) (GRA_outer dist a b) ([], [], []).

(** *** The circuit

    A circuit is the list of the calls that appended to it, in their order:
    one instruction per call of a method of the circuit.  For a call of
    [rx], [x], [swap] or [barrier] this is what Qiskit's
    [QuantumCircuit.data] holds.  For a call of [mcrx] it is not: Qiskit
    stores the gates into which it expands the call, and [MCRX] stands for
    the call, that is for the multi-controlled rotation it asks for. *)

Inductive instruction : Type :=
| RX (theta : R) (qubit : nat)
| X (qubit : nat)
| MCRX (theta : R) (q_controls : list nat) (q_target : nat)
| SWAP (qubit1 qubit2 : nat)
| Barrier.

Record QuantumCircuit : Type := mkCircuit {
  num_qubits : nat;
  num_clbits : nat;
  data : list instruction
}.

Definition append (g : instruction) (qc : QuantumCircuit) : QuantumCircuit :=
  {| num_qubits := num_qubits qc;
     num_clbits := num_clbits qc;
     data := data qc ++ [g] |}.

(** The methods of the circuit: each records its call, and raises
    [CircuitError] on a qubit index out of range or on a repeated qubit. *)
Definition rx (theta : R) (qubit : nat) (qc : QuantumCircuit) : result QuantumCircuit :=
  if (qubit <? num_qubits qc)%nat then Ok (append (RX theta qubit) qc)
  else Raise CircuitError.

Definition x (qubit : nat) (qc : QuantumCircuit) : result QuantumCircuit :=
  if (qubit <? num_qubits qc)%nat then Ok (append (X qubit) qc)
  else Raise CircuitError.

Definition mcrx (theta : R) (q_controls : list nat) (q_target : nat)
  (qc : QuantumCircuit) : result QuantumCircuit :=
  if forallb (fun q => (q <? num_qubits qc)%nat) (q_target :: q_controls)
     && negb (existsb (Nat.eqb q_target) q_controls)
  then Ok (append (MCRX theta q_controls q_target) qc)
  else Raise CircuitError.

Definition swap (qubit1 qubit2 : nat) (qc : QuantumCircuit) : result QuantumCircuit :=
  if (qubit1 <? num_qubits qc)%nat && (qubit2 <? num_qubits qc)%nat
     && negb (qubit1 =? qubit2)%nat
  then Ok (append (SWAP qubit1 qubit2) qc)
  else Raise CircuitError.

Definition barrier (qc : QuantumCircuit) : result QuantumCircuit :=
  Ok (append Barrier qc).

(** [qr[i]] for the register [qr = QuantumRegister(n, 'q')]: qubit [i]. *)
Definition qr (n i : nat) : result nat :=
  if (i <? n)%nat then Ok i else Raise IndexError.

(** [for j in range(0, m): if i & int(2**(j)) == False: qc.x(m - j - 1)].
    In Python [&] binds tighter than [==], and [0 == False] holds. *)
Definition GRA_x_layer (m i : nat) (qc : QuantumCircuit) : result QuantumCircuit :=
  for_ (range 0 m)
       (fun j qc => if (Nat.land i (2 ^ j) =? 0)%nat then x (m - j - 1) qc else Ok qc)
       qc.

(** Body of [for i in range(0, 2**m)] in the construction of the circuit. *)
Definition GRA_pattern (n : nat) (T : list (list R)) (control_qubits : list nat)
  (m i : nat) (qc : QuantumCircuit) : result QuantumCircuit :=
  qc <- GRA_x_layer m i qc ;;
  t <- getitem2 T m i ;;
  target <- qr n m ;;
  qc <- mcrx (2 * t) control_qubits target qc ;;
  GRA_x_layer m i qc.

(** Body of [for m in range(1, n)]. *)
Definition GRA_level (n : nat) (T : list (list R)) (m : nat) (qc : QuantumCircuit)
  : result QuantumCircuit :=
  qc <- barrier qc ;;
  control_qubits <- for_ (range 0 m) (fun i cq => q <- qr n i ;; Ok (cq ++ [q])) [] ;;
  for_ (range 0 (2 ^ m)) (GRA_pattern n T control_qubits m) qc.

(** The two branches of [if (n % 2 == 0)]. *)
Definition GRA_swaps_even (n : nat) (qc : QuantumCircuit) : result QuantumCircuit :=
  for_ (range 0 (n / 2)) (fun i qc => swap i (n - i - 1) qc) qc.

Definition GRA_swaps_odd (n : nat) (qc : QuantumCircuit) : result QuantumCircuit :=
  for_ (range 0 ((n - 1) / 2)) (fun i qc => swap i (n - i - 1) qc) qc.

Definition GRA_swaps (n : nat) (qc : QuantumCircuit) : result QuantumCircuit :=
  if (n mod 2 =? 0)%nat then GRA_swaps_even n qc else GRA_swaps_odd n qc.

(** The rotations: from [qc.rx(2*T[0][0], 0)] to the end of the loop over [m]. *)
Definition GRA_rotations (n : nat) (T : list (list R)) (qc : QuantumCircuit)
  : result QuantumCircuit :=
  t <- getitem2 T 0 0 ;;
  qc <- rx (2 * t) 0 qc ;;
  for_ (range 1 n) (GRA_level n T) qc.

(** The construction of the circuit, from the registers to the swaps. *)
Definition GRA_circuit (n : nat) (T : list (list R)) : result QuantumCircuit :=
  let qc := {| num_qubits := n; num_clbits := n; data := [] |} in
  qc <- GRA_rotations n T qc ;;
  GRA_swaps n qc.

(** [GRA(n, dist, a, b)], which returns [(qc, P)]. *)
Definition GRA (n : nat) (dist : R -> R) (a b : R)
  : result (QuantumCircuit * list (list R)) :=
  ' (F, T, P) <- GRA_tables n dist a b ;;
  qc <- GRA_circuit n T ;;
  Ok (qc, P).

End Tables.

End GR.

(** ** [main.ipynb] *)

Module KW.

(** [range(lo, hi)] and [np.arange(lo, hi, 1)] over all the integers. *)
Definition zrange (lo hi : Z) : list Z :=
  map (fun j => (lo + Z.of_nat j)%Z) (seq 0 (Z.to_nat (hi - lo))).

(** [2**i] as the number the division converts it to. *)
Definition pow2 (i : Z) : Q := inject_Z (2 ^ i).

(** [x > y] *)
Definition Qgt_bool (x y : Q) : bool := negb (Qle_bool x y).

(** Body of [for i in range(1, k+1)] in [binary_approx], in exact
    arithmetic. *)
Definition binary_approx_body (n : Q) (s : list Z * Q) (i : Z) : list Z * Q :=
  let '(a, total) := s in
  let bit := if Qgt_bool n (total + 1 / pow2 i) then 1%Z else 0%Z in
  (a ++ [bit], total + inject_Z bit / pow2 i)%Q.

Definition binary_approx (n : Q) (k : Z) : list Z * Q :=
  fold_left (binary_approx_body n) (zrange 1 (k + 1)) ([], 0%Q).

(** The same loop as Python runs it, on floats: [1/2**i], [bit/2**i] and
    the two sums are each rounded to binary64.  (The quotient of two Python
    integers is the float nearest to the exact quotient; the comparison is
    exact.) *)
Definition binary_approx_b64_body (n : Q) (s : list Z * Q) (i : Z) : list Z * Q :=
  let '(a, total) := s in
  let bit := if Qgt_bool n (B64.round (total + B64.round (1 / pow2 i)))
             then 1%Z else 0%Z in
  (a ++ [bit], B64.round (total + B64.round (inject_Z bit / pow2 i)))%Q.

Definition binary_approx_b64 (n : Q) (k : Z) : list Z * Q :=
  fold_left (binary_approx_b64_body n) (zrange 1 (k + 1)) ([], 0%Q).

Local Open Scope R_scope.

Definition np_sum (l : list R) : R := fold_left Rplus l 0.

(** [np.sum(np.exp((-(np.arange(-n, n+1, 1) - mu)**2)/float(sigma**2)))];
    in Python [-x**2] is [-(x**2)].  Over the reals: for [sigma = 0], where
    numpy divides by 0.0, the definition says nothing of the code. *)
Definition f (mu sigma : R) (n : Z) : R :=
  np_sum (map (fun j => exp ((- ((IZR j - mu) ^ 2)) / (sigma ^ 2)))
              (zrange (- n) (n + 1))).

(** Over the reals: where the code divides by 0.0 or takes [arccos]
    outside [[-1, 1]] and returns [nan], this is the number [acos] of the
    real library gives, and says nothing of the code. *)
Definition angle (mu sigma : R) (n : Z) : R :=
  acos (sqrt (f (mu / 2) (sigma / 2) n / f mu sigma n)).


(** What a call can return in this notebook. *)
Inductive py_value : Type :=
| PyNone
| PyCircuit (qc : GR.QuantumCircuit).

(** The global variables of the notebook a function can reach:
    the circuit [qc]. *)
Record globals : Type := { qc : GR.QuantumCircuit }.

(** [KWA]: the body is a docstring. *)
Definition KWA (mu sigma : R) (k N : Z) (g : globals) : result (py_value * globals) :=
  Ok (PyNone, g).

(** *** The cell that builds a circuit

    The gates of this cell are not the gates of [GRA]: its circuit lists
    the instructions of its own calls, [qc.h], [qc.cnot] ([qc.cx]), [qc.rz]
    and [qc.barrier].  Each method appends one instruction, and raises
    [CircuitError] on a qubit index out of range or on a repeated qubit. *)

Local Open Scope py_scope.

Inductive instruction : Type :=
| HGate (qubit : nat)
| CXGate (control_qubit target_qubit : nat)
| RZGate (phi : R) (qubit : nat)
| Barrier.

Record QuantumCircuit : Type := mkCircuit {
  num_qubits : nat;
  num_clbits : nat;
  data : list instruction
}.

Definition append (g : instruction) (qc : QuantumCircuit) : QuantumCircuit :=
  {| num_qubits := num_qubits qc;
     num_clbits := num_clbits qc;
     data := data qc ++ [g] |}.

Definition h (qubit : nat) (qc : QuantumCircuit) : result QuantumCircuit :=
  if (qubit <? num_qubits qc)%nat then Ok (append (HGate qubit) qc)
  else Raise CircuitError.

Definition cnot (control_qubit target_qubit : nat) (qc : QuantumCircuit)
  : result QuantumCircuit :=
  if (control_qubit <? num_qubits qc)%nat && (target_qubit <? num_qubits qc)%nat
     && negb (control_qubit =? target_qubit)%nat
  then Ok (append (CXGate control_qubit target_qubit) qc)
  else Raise CircuitError.

Definition rz (phi : R) (qubit : nat) (qc : QuantumCircuit) : result QuantumCircuit :=
  if (qubit <? num_qubits qc)%nat then Ok (append (RZGate phi qubit) qc)
  else Raise CircuitError.

Definition barrier (qc : QuantumCircuit) : result QuantumCircuit :=
  Ok (append Barrier qc).

(** The cell, from [qc = QuantumCircuit(4, 3)] to the second loop of
    [qc.h(qubit)]; [qc.draw] only displays the circuit. *)
Definition circuit_cell : result QuantumCircuit :=
  let qc := {| num_qubits := 4; num_clbits := 3; data := [] |} in
  qc <- for_ (range 0 4) h qc ;;
  qc <- barrier qc ;;
  qc <- cnot 0 1 qc ;;
  qc <- cnot 1 2 qc ;;
  qc <- cnot 2 3 qc ;;
  qc <- rz (PI / 4) 3 qc ;;
  qc <- cnot 2 3 qc ;;
  qc <- cnot 1 2 qc ;;
  qc <- cnot 0 1 qc ;;
  qc <- barrier qc ;;
  for_ (range 0 4) h qc.

End KW.

Import GR.

(** * Part II. The vocabulary of the statements *)

(** ** The binary interval tree *)

(** The binary interval tree in the words of the specification: the [i]-th
    interval of level [m] is [[a + R*i/2^m, a + R*(i+1)/2^m]] with [R = b - a],
    and its left half ends at [a + R*i/2^m + R/2^(m+1)]. *)
Definition interval_lo (a b : R) (m i : nat) : R := a + (b - a) * INR i / 2 ^ m.
Definition interval_hi (a b : R) (m i : nat) : R := a + (b - a) * (INR i + 1) / 2 ^ m.
Definition interval_mid (a b : R) (m i : nat) : R :=
  a + (b - a) * INR i / 2 ^ m + (b - a) / 2 ^ (m + 1).

(** ** The tables *)

Section TableValues.

Local Open Scope R_scope.

Variable quad : (R -> R) -> R -> R -> R.
Variable dist : R -> R.
Variables a b : R.

(** The three values the inner loop appends at level [m], index [i]. *)
Definition Pval (m i : nat) : R := quad dist (den_LB a b m i) (den_UB a b m i).
Definition Fval (m i : nat) : R := quad dist (num_LB a b m i) (num_UB a b m i) / Pval m i.
Definition Tval (m i : nat) : R := acos (sqrt (Fval m i)).

(** Every interval mass [GRA] divides by, down to level [n], is not zero. *)
Definition masses_nonzero (n : nat) : Prop :=
  forall m i, (m <= n)%nat -> (i < 2 ^ m)%nat -> Pval m i <> 0.

(** What [GRA] computes, in the words of the specification. *)
Definition GRA_tables_spec (n : nat) (F T P : list (list R)) : Prop :=
  length F = (n + 1)%nat /\ length T = (n + 1)%nat /\ length P = (n + 1)%nat /\
  forall m, (m <= n)%nat ->
    length (nth m F []) = (2 ^ m)%nat /\
    length (nth m T []) = (2 ^ m)%nat /\
    length (nth m P []) = (2 ^ m)%nat /\
    forall i, (i < 2 ^ m)%nat ->
      nth i (nth m P []) 0 =
        quad dist (interval_lo a b m i) (interval_hi a b m i) /\
      nth i (nth m F []) 0 =
        quad dist (interval_lo a b m i) (interval_mid a b m i) /
        quad dist (interval_lo a b m i) (interval_hi a b m i) /\
      nth i (nth m T []) 0 = acos (sqrt (nth i (nth m F []) 0)).

End TableValues.

(** The row of level [m] of a table whose entries are [v m i]. *)
Definition row (v : nat -> nat -> R) (m : nat) : list R := map (v m) (seq 0 (2 ^ m)).

(** ** The circuit *)

(** The circuit [qc] with the instructions [gs] appended. *)
Definition extend (gs : list instruction) (qc : QuantumCircuit) : QuantumCircuit :=
  {| num_qubits := num_qubits qc;
     num_clbits := num_clbits qc;
     data := data qc ++ gs |}.

(** The gate sequence in the words of the specification.  A barrier is an
    instruction of the circuit and not a gate. *)
Definition is_gate (g : instruction) : bool :=
  match g with Barrier => false | _ => true end.

Definition is_rotation (g : instruction) : bool :=
  match g with RX _ _ | MCRX _ _ _ => true | _ => false end.

Definition is_swap (g : instruction) : bool :=
  match g with SWAP _ _ => true | _ => false end.

Definition gates (l : list instruction) : list instruction := filter is_gate l.

(** X on qubit [m-j-1] for the positions [j] in [0..m-1] where bit [j] of [i] is 0. *)
Definition x_mask (m i : nat) : list instruction :=
  flat_map (fun j => if Nat.testbit i j then [] else [X (m - j - 1)]) (seq 0 m).

Definition pattern_gates (T : nat -> nat -> R) (m i : nat) : list instruction :=
  x_mask m i ++ [MCRX (2 * T m i) (seq 0 m) m] ++ x_mask m i.

Definition level_gates (T : nat -> nat -> R) (m : nat) : list instruction :=
  flat_map (pattern_gates T m) (seq 0 (2 ^ m)).

Definition rotation_gates (T : nat -> nat -> R) (n : nat) : list instruction :=
  RX (2 * T 0%nat 0%nat) 0 :: flat_map (level_gates T) (seq 1 (n - 1)).

(** [floor(n/2)] swaps, qubit [i] with qubit [n-1-i]. *)
Definition swap_gates (n : nat) : list instruction :=
  map (fun i => SWAP i (n - 1 - i)) (seq 0 (n / 2)).

(** The entry [T[m][i]] of a table, for the statements. *)
Definition entry (T : list (list R)) (m i : nat) : R := nth i (nth m T []) 0%R.

(** The instructions of the circuit before the swaps, barriers included. *)
Definition rotation_instructions (n : nat) (T : list (list R)) : list instruction :=
  RX (2 * entry T 0 0) 0 ::
  flat_map (fun m => Barrier :: level_gates (entry T) m) (seq 1 (n - 1)).

(** The number of rotations of a list of instructions. *)
Definition rotations (l : list instruction) : nat := length (filter is_rotation l).

(** The X gates and the barriers, to count them. *)
Definition is_x (g : instruction) : bool :=
  match g with X _ => true | _ => false end.

Definition is_barrier (g : instruction) : bool :=
  match g with Barrier => true | _ => false end.

(** The number of the bits [0..m-1] of [i] that are 0. *)
Definition zero_bits (m i : nat) : nat :=
  length (filter (fun j => negb (Nat.testbit i j)) (seq 0 m)).

(** The angle [T[m][i]] read in the table [P] alone. *)
Definition angle_of_masses (P : list (list R)) (m i : nat) : R :=
  acos (sqrt (entry P (m + 1) (2 * i) / entry P m i)).

(** ** Integrals and paths *)

(** The integrator is additive over the two halves of every interval of
    the levels below [k]. *)
Definition additive_on_halves (quad : (R -> R) -> R -> R -> R) (dist : R -> R)
  (a b : R) (k : nat) : Prop :=
  forall m i, (m < k)%nat -> (i < 2 ^ m)%nat ->
    (quad dist (interval_lo a b m i) (interval_mid a b m i) +
     quad dist (interval_mid a b m i) (interval_hi a b m i) =
     quad dist (interval_lo a b m i) (interval_hi a b m i))%R.

(** The integral of a function that is positive on a non-empty interval
    of [[a, b]] is positive. *)
Definition positive_integrals (quad : (R -> R) -> R -> R -> R) (dist : R -> R)
  (a b : R) : Prop :=
  forall x y, (a <= x)%R -> (x < y)%R -> (y <= b)%R ->
    (forall z, (x <= z <= y)%R -> (0 < dist z)%R) -> (0 < quad dist x y)%R.

(** A density whose logarithm is concave on [[a, b]]: it is positive there
    and [ln (dist _)] lies above its chords. *)
Definition log_concave_on (dist : R -> R) (a b : R) : Prop :=
  (forall x, (a <= x <= b)%R -> (0 < dist x)%R) /\
  (forall x y t, (a <= x <= b)%R -> (a <= y <= b)%R -> (0 <= t <= 1)%R ->
     (t * ln (dist x) + (1 - t) * ln (dist y) <= ln (dist (t * x + (1 - t) * y)))%R).

(** The density of the standard normal law, which [norm] computes. *)
Definition standard_normal (x : R) : R := (1 / sqrt (2 * PI) * exp (- x ^ 2 / 2))%R.

Definition sum_R (l : list R) : R := fold_right Rplus 0%R l.

(** The path of the basis index [x] from the root to its leaf: at level [m]
    the interval [x / 2^(n-m)], and the bit that chooses the half. *)
Definition path_prefix (n x m : nat) : nat := x / 2 ^ (n - m).
Definition path_bit (n x m : nat) : bool := Nat.testbit x (n - 1 - m).

Definition path_factor (T : list (list R)) (n x m : nat) : R :=
  if path_bit n x m then (sin (entry T m (path_prefix n x m)))²
  else (cos (entry T m (path_prefix n x m)))².

(** The product of the factors of the levels [0..k-1]. *)
Fixpoint path_product (T : list (list R)) (n x k : nat) : R :=
  match k with
  | O => 1%R
  | S k' => (path_product T n x k' * path_factor T n x k')%R
  end.

(** ** Binary fractions *)

(** The value of the bits [a] as a binary fraction: the sum over
    [i = 1..len(a)] of [a[i-1] / 2^i]. *)
Definition sumQ (l : list Q) : Q := fold_right Qplus 0%Q l.

Definition binary_value (a : list Z) : Q :=
  sumQ (map (fun i => (inject_Z (nth (i - 1) a 0%Z) / KW.pow2 (Z.of_nat i))%Q)
            (seq 1 (length a))).

Definition is_bit (v : Z) : Prop := v = 0%Z \/ v = 1%Z.

(** The list [range(1, k+1)] after [j0] iterations, [K] iterations long. *)
Definition indices (j0 K : nat) : list Z :=
  map (fun j => (1 + Z.of_nat j)%Z) (seq j0 K).

(** What every iteration keeps, whatever [n] is. *)
Definition shape (j : nat) (s : list Z * Q) : Prop :=
  length (fst s) = j /\
  Forall is_bit (fst s) /\
  (snd s == binary_value (fst s))%Q /\
  (0 <= snd s)%Q /\
  ((snd s == 0)%Q <-> Forall (fun v => v = 0%Z) (fst s)).

(** The integer whose binary digits are [a], the most significant first. *)
Definition bits_value (a : list Z) : Z :=
  fold_left (fun acc v => (2 * acc + v)%Z) a 0%Z.

(** Two runs of the loop of [binary_approx] after [j] iterations: each total
    is the integer of its bits over [2^j], and the integers are in order. *)
Definition ordered (j : nat) (s s' : list Z * Q) : Prop :=
  (snd s == inject_Z (bits_value (fst s)) / KW.pow2 (Z.of_nat j))%Q /\
  (snd s' == inject_Z (bits_value (fst s')) / KW.pow2 (Z.of_nat j))%Q /\
  (bits_value (fst s) <= bits_value (fst s'))%Z.

(** The binary64 run and the exact run of the loop of [binary_approx]
    after [j] iterations: the same bits and the same total, the integer of
    the bits over [2^j]. *)
Definition agree (j : nat) (s s' : list Z * Q) : Prop :=
  fst s = fst s' /\
  (snd s == snd s')%Q /\
  (snd s' == inject_Z (bits_value (fst s')) / KW.pow2 (Z.of_nat j))%Q /\
  (0 <= bits_value (fst s') < 2 ^ Z.of_nat j)%Z.

(** ** The Gaussian sum *)

(** The term of index [j] of the sum, and the symmetric sum of the terms of
    index [-n..n]: the term of index 0 and, for [j = 1..n], the terms of
    index [j] and [-j]. *)
Definition gaussian_term (mu sigma : R) (j : Z) : R :=
  exp (- (IZR j - mu) ^ 2 / sigma ^ 2).

Fixpoint symmetric_sum (g : Z -> R) (n : nat) : R :=
  match n with
  | O => g 0%Z
  | S n' => (symmetric_sum g n' + g (Z.of_nat n) + g (- Z.of_nat n)%Z)%R
  end.

(** ** State vectors

    Qiskit's reading of the instructions, from the matrices of its gates:
    [X = [[0, 1], [1, 0]]],
    [RX(theta) = [[cos(theta/2), -i sin(theta/2)], [-i sin(theta/2), cos(theta/2)]]],
    a multi-controlled RX is RX on the target where every control is 1,
    a swap exchanges two qubits and a barrier does nothing.  A basis state
    gives a bit to every natural number; a register of [n] qubits reads the
    bits below [n]. *)

Module StateVector.

(** A basis state gives every qubit its bit. *)
Definition basis : Type := nat -> bool.

(** A complex number, real and imaginary part. *)
Definition C : Type := (R * R)%type.

Definition Cadd (z w : C) : C := (fst z + fst w, snd z + snd w)%R.
Definition Cmul (z w : C) : C :=
  (fst z * fst w - snd z * snd w, fst z * snd w + snd z * fst w)%R.
Definition Cnorm2 (z : C) : R := (fst z * fst z + snd z * snd z)%R.

(** A state vector: the amplitude of every basis state. *)
Definition state : Type := basis -> C.

Definition flip (q : nat) (s : basis) : basis :=
  fun k => if (k =? q)%nat then negb (s k) else s k.

Definition exchange (q1 q2 : nat) (s : basis) : basis :=
  fun k => if (k =? q1)%nat then s q2 else if (k =? q2)%nat then s q1 else s k.

Definition rx_on (theta : R) (q : nat) (psi : state) : state :=
  fun s => Cadd (Cmul (cos (theta / 2), 0%R) (psi s))
                (Cmul (0%R, (- sin (theta / 2))%R) (psi (flip q s))).

Definition apply (g : instruction) (psi : state) : state :=
  match g with
  | RX theta q => rx_on theta q psi
  | X q => fun s => psi (flip q s)
  | MCRX theta controls target =>
      fun s => if forallb s controls then rx_on theta target psi s else psi s
  | SWAP q1 q2 => fun s => psi (exchange q1 q2 s)
  | Barrier => psi
  end.

Definition run (l : list instruction) (psi : state) : state :=
  fold_left (fun psi g => apply g psi) l psi.

(** All the [n] qubits at 0. *)
Definition zero_state (n : nat) : state :=
  fun s => if existsb s (seq 0 n) then (0%R, 0%R) else (1%R, 0%R).

(** The probability that a measurement gives the basis state [s]. *)
Definition probability (psi : state) (s : basis) : R := Cnorm2 (psi s).

(** The integer Qiskit reads in the bits of [s]: qubit [q] is bit [q]. *)
Fixpoint index (n : nat) (s : basis) : nat :=
  match n with
  | O => 0
  | S n' => index n' s + Nat.b2n (s n') * 2 ^ n'
  end.

End StateVector.

Import StateVector.

(** The interval the qubits [0..l-1] of [s] select at level [l], qubit 0
    first. *)
Fixpoint pre (l : nat) (s : basis) : nat :=
  match l with
  | O => 0
  | S l' => 2 * pre l' s + Nat.b2n (s l')
  end.

(** The factor the rotation of level [l] gives the amplitude of [s]. *)
Definition fac (T : nat -> nat -> R) (l : nat) (s : basis) : C :=
  if s l then (0%R, (- sin (T l (pre l s)))%R) else (cos (T l (pre l s)), 0%R).

Fixpoint prodfac (T : nat -> nat -> R) (m : nat) (s : basis) : C :=
  match m with
  | O => (1%R, 0%R)
  | S m' => Cmul (prodfac T m' s) (fac T m' s)
  end.

(** The state once the levels below [m] are done. *)
Definition amp (T : nat -> nat -> R) (n m : nat) : state :=
  fun s => if existsb s (seq m (n - m)) then (0%R, 0%R) else prodfac T m s.

(** The qubits the first [j0] positions of the X layer of pattern [i] flip. *)
Definition mask (m i j0 : nat) (s : basis) : basis :=
  fun k => if (k <? m)%nat && (m - 1 - k <? j0)%nat && negb (Nat.testbit i (m - 1 - k))
           then negb (s k) else s k.

(** The register after the first [j] swaps, and after all of them. *)
Definition reverse_upto (n j : nat) (s : basis) : basis :=
  fun k => if ((k <? j)%nat || (n - 1 - j <? k)%nat) && (k <? n)%nat
           then s (n - 1 - k)%nat else s k.

Definition reverse (n : nat) (s : basis) : basis :=
  fun k => if (k <? n)%nat then s (n - 1 - k)%nat else s k.

(** ** State vectors for the circuit of [main.ipynb]

    Qiskit's reading of the gates of the cell, from their matrices:
    [H = [[1, 1], [1, -1]] / sqrt(2)], CX flips the target where the
    control is 1, [RZ(phi) = [[exp(-i phi/2), 0], [0, exp(i phi/2)]]]. *)

Definition h_on (q : nat) (psi : state) : state :=
  fun s => Cmul (/ sqrt 2, 0)%R
             (Cadd (psi (flip q s)) (Cmul ((if s q then -1 else 1)%R, 0%R) (psi s))).

Definition cx_on (c t : nat) (psi : state) : state :=
  fun s => psi (if s c then flip t s else s).

Definition rz_on (phi : R) (q : nat) (psi : state) : state :=
  fun s => Cmul (cos (phi / 2), if s q then sin (phi / 2) else (- sin (phi / 2))%R) (psi s).

Definition apply_gate (g : KW.instruction) (psi : state) : state :=
  match g with
  | KW.HGate q => h_on q psi
  | KW.CXGate c t => cx_on c t psi
  | KW.RZGate phi q => rz_on phi q psi
  | KW.Barrier => psi
  end.

Definition run_gates (l : list KW.instruction) (psi : state) : state :=
  fold_left (fun psi g => apply_gate g psi) l psi.

(** The Pauli operators X and Z on one qubit. *)
Definition x_on (q : nat) (psi : state) : state := fun s => psi (flip q s).

Definition z_on (q : nat) (psi : state) : state :=
  fun s => Cmul ((if s q then -1 else 1)%R, 0%R) (psi s).

(** The combination [a * psi + b * phi] of two states. *)
Definition combine (a b : C) (psi phi : state) : state :=
  fun s => Cadd (Cmul a (psi s)) (Cmul b (phi s)).

(** The layer of Hadamard gates of the cell, and the parity of its four
    qubits. *)
Definition h_layer (psi : state) : state := h_on 3 (h_on 2 (h_on 1 (h_on 0 psi))).

Definition parity4 (s : basis) : bool :=
  xorb (xorb (xorb (s 0%nat) (s 1%nat)) (s 2%nat)) (s 3%nat).

(** ** A concrete integrator and a concrete density

    For the statements evaluated on an input: the composite midpoint rule
    with two panels, and the uniform density on [[lo, hi]].  The rule is
    exact on a density that is constant on each half of the interval. *)

Module Instances.

Local Open Scope R_scope.

Definition midpoint2 (g : R -> R) (lo hi : R) : R :=
  (hi - lo) / 2 * (g ((3 * lo + hi) / 4) + g ((lo + 3 * hi) / 4)).

Definition uniform (lo hi : R) (x : R) : R :=
  if Rle_dec lo x then if Rle_dec x hi then 1 / (hi - lo) else 0 else 0.

End Instances.

Import Instances.

(** * Part III. Lemmas *)

(** ** Loops and lists *)

Section Loops.

Context {A S : Type}.

Lemma range_0 (k : nat) : range 0 k = seq 0 k.
Proof. unfold range. now rewrite Nat.sub_0_r. Qed.

Lemma for_app (l1 l2 : list A) (body : A -> S -> result S) (s : S) :
  for_ (l1 ++ l2) body s = bind (for_ l1 body s) (for_ l2 body).
Proof.
  revert s. induction l1 as [|a l1 IH]; intros s; simpl; [reflexivity|].
  destruct (body a s) as [s'|e]; simpl; [apply IH | reflexivity].
Qed.

(** A loop whose body never raises is a fold. *)
Lemma for_total (l : list A) (body : A -> S -> result S) (step : A -> S -> S) (s : S) :
  (forall a s', In a l -> body a s' = Ok (step a s')) ->
  for_ l body s = Ok (fold_left (fun s' a => step a s') l s).
Proof.
  revert s. induction l as [|a l IH]; intros s H; simpl; [reflexivity|].
  rewrite H by now left. simpl. apply IH. intros; apply H; now right.
Qed.

End Loops.

Lemma append_at_last {A : Type} (l : list (list A)) (row : list A) (m : nat) (v : A) :
  length l = m -> append_at (l ++ [row]) m v = Ok (l ++ [row ++ [v]]).
Proof.
  intros <-. unfold append_at.
  rewrite nth_error_app2, Nat.sub_diag by lia. cbn [nth_error].
  rewrite firstn_app, firstn_all, Nat.sub_diag. cbn [firstn].
  rewrite app_nil_r.
  rewrite skipn_all2 by (rewrite length_app; simpl; lia). reflexivity.
Qed.

(** ** The tables of [GRA] *)

Section TablesFacts.

Local Open Scope R_scope.

Variable quad : (R -> R) -> R -> R -> R.
Variable dist : R -> R.
Variables a b : R.

Local Abbreviation Pv := (Pval quad dist a b).
Local Abbreviation Fv := (Fval quad dist a b).
Local Abbreviation Tv := (Tval quad dist a b).

Lemma GRA_inner_ok (m i : nat) (F0 T0 P0 : list (list R)) (Fr Tr Pr : list R) :
  length F0 = m -> length T0 = m -> length P0 = m -> Pv m i <> 0 ->
  GRA_inner quad dist a b m i (F0 ++ [Fr], T0 ++ [Tr], P0 ++ [Pr]) =
  Ok (F0 ++ [Fr ++ [Fv m i]], T0 ++ [Tr ++ [Tv m i]], P0 ++ [Pr ++ [Pv m i]]).
Proof.
  intros HF HT HP Hnz. unfold GRA_inner, py_div. fold (Pv m i).
  destruct (Req_dec_T (Pv m i) 0) as [E|_]; [contradiction|]. simpl.
  rewrite !append_at_last by assumption. reflexivity.
Qed.

Lemma GRA_inner_raise (m i : nat) (s : tables) :
  Pv m i = 0 -> GRA_inner quad dist a b m i s = Raise ZeroDivisionError.
Proof.
  intros Hz. destruct s as [[F T] P]. unfold GRA_inner, py_div. fold (Pv m i).
  destruct (Req_dec_T (Pv m i) 0) as [_|N]; [reflexivity | contradiction].
Qed.

Lemma inner_loop_ok (m k : nat) : forall (i0 : nat) (F0 T0 P0 : list (list R)) (Fr Tr Pr : list R),
  length F0 = m -> length T0 = m -> length P0 = m ->
  (forall i, (i0 <= i < i0 + k)%nat -> Pv m i <> 0) ->
  for_ (seq i0 k) (GRA_inner quad dist a b m) (F0 ++ [Fr], T0 ++ [Tr], P0 ++ [Pr]) =
  Ok (F0 ++ [Fr ++ map (Fv m) (seq i0 k)],
      T0 ++ [Tr ++ map (Tv m) (seq i0 k)],
      P0 ++ [Pr ++ map (Pv m) (seq i0 k)]).
Proof.
  induction k as [|k IH]; intros i0 F0 T0 P0 Fr Tr Pr HF HT HP Hnz; cbn [for_ seq map].
  - now rewrite !app_nil_r.
  - rewrite GRA_inner_ok by (try assumption; apply Hnz; lia). cbn [bind].
    rewrite IH by (try assumption; intros; apply Hnz; lia).
    now rewrite <- !app_assoc.
Qed.

Lemma inner_loop_raise (m k : nat) : forall (i0 : nat) (F0 T0 P0 : list (list R)) (Fr Tr Pr : list R),
  length F0 = m -> length T0 = m -> length P0 = m ->
  (exists i, (i0 <= i < i0 + k)%nat /\ Pv m i = 0) ->
  for_ (seq i0 k) (GRA_inner quad dist a b m) (F0 ++ [Fr], T0 ++ [Tr], P0 ++ [Pr]) =
  Raise ZeroDivisionError.
Proof.
  induction k as [|k IH]; intros i0 F0 T0 P0 Fr Tr Pr HF HT HP [i [Hi Hz]]; cbn [for_ seq map].
  - lia.
  - destruct (Req_dec_T (Pv m i0) 0) as [E|N].
    + now rewrite GRA_inner_raise.
    + rewrite GRA_inner_ok by assumption. cbn [bind].
      apply IH; try assumption. exists i. split; [|assumption].
      assert (i <> i0) by (intros ->; contradiction). lia.
Qed.

Lemma GRA_outer_ok (m : nat) (F0 T0 P0 : list (list R)) :
  length F0 = m -> length T0 = m -> length P0 = m ->
  (forall i, (i < 2 ^ m)%nat -> Pv m i <> 0) ->
  GRA_outer quad dist a b m (F0, T0, P0) =
  Ok (F0 ++ [row Fv m], T0 ++ [row Tv m], P0 ++ [row Pv m]).
Proof.
  intros HF HT HP Hnz. unfold GRA_outer. rewrite range_0.
  rewrite inner_loop_ok by (try assumption; intros; apply Hnz; lia).
  reflexivity.
Qed.

Lemma GRA_outer_raise (m : nat) (F0 T0 P0 : list (list R)) :
  length F0 = m -> length T0 = m -> length P0 = m ->
  (exists i, (i < 2 ^ m)%nat /\ Pv m i = 0) ->
  GRA_outer quad dist a b m (F0, T0, P0) = Raise ZeroDivisionError.
Proof.
  intros HF HT HP [i [Hi Hz]]. unfold GRA_outer. rewrite range_0.
  apply inner_loop_raise; try assumption. exists i. split; [lia | assumption].
Qed.

Lemma outer_loop_ok (k : nat) : forall (m0 : nat) (F0 T0 P0 : list (list R)),
  length F0 = m0 -> length T0 = m0 -> length P0 = m0 ->
  (forall m i, (m0 <= m < m0 + k)%nat -> (i < 2 ^ m)%nat -> Pv m i <> 0) ->
  for_ (seq m0 k) (GRA_outer quad dist a b) (F0, T0, P0) =
  Ok (F0 ++ map (row Fv) (seq m0 k),
      T0 ++ map (row Tv) (seq m0 k),
      P0 ++ map (row Pv) (seq m0 k)).
Proof.
  induction k as [|k IH]; intros m0 F0 T0 P0 HF HT HP Hnz; cbn [for_ seq map].
  - now rewrite !app_nil_r.
  - rewrite GRA_outer_ok by (try assumption; intros; apply Hnz; lia). cbn [bind].
    rewrite IH; try (rewrite length_app; simpl; lia).
    + now rewrite <- !app_assoc.
    + intros; apply Hnz; lia.
Qed.

Lemma level_masses_dec (m k : nat) :
  (forall i, (i < k)%nat -> Pv m i <> 0) \/ (exists i, (i < k)%nat /\ Pv m i = 0).
Proof.
  induction k as [|k [IH|[i [Hi Hz]]]].
  - left; intros; lia.
  - destruct (Req_dec_T (Pv m k) 0) as [E|N].
    + right. exists k. split; [lia | assumption].
    + left. intros i Hi. destruct (Nat.eq_dec i k) as [->|]; [assumption|].
      apply IH; lia.
  - right. exists i. split; [lia | assumption].
Qed.

Lemma outer_loop_raise (k : nat) : forall (m0 : nat) (F0 T0 P0 : list (list R)),
  length F0 = m0 -> length T0 = m0 -> length P0 = m0 ->
  (exists m i, (m0 <= m < m0 + k)%nat /\ (i < 2 ^ m)%nat /\ Pv m i = 0) ->
  for_ (seq m0 k) (GRA_outer quad dist a b) (F0, T0, P0) = Raise ZeroDivisionError.
Proof.
  induction k as [|k IH]; intros m0 F0 T0 P0 HF HT HP [m [i [Hm [Hi Hz]]]]; cbn [for_ seq map].
  - lia.
  - destruct (level_masses_dec m0 (2 ^ m0)) as [Hnz|Hex].
    + rewrite GRA_outer_ok by assumption. cbn [bind].
      apply IH; try (rewrite length_app; simpl; lia).
      exists m, i. repeat split; try assumption; try lia.
      destruct (Nat.eq_dec m m0) as [->|]; [|lia].
      exfalso. now apply (Hnz i).
    + now rewrite GRA_outer_raise.
Qed.

(** [GRA_tables] either builds the three tables or raises [ZeroDivisionError]. *)
Lemma GRA_tables_ok (n : nat) :
  masses_nonzero quad dist a b n ->
  GRA_tables quad n dist a b =
  Ok (map (row Fv) (seq 0 (n + 1)),
      map (row Tv) (seq 0 (n + 1)),
      map (row Pv) (seq 0 (n + 1))).
Proof.
  intros Hnz. unfold GRA_tables. rewrite range_0.
  rewrite (outer_loop_ok (n + 1) 0 [] [] []); try reflexivity.
  intros m i Hm Hi. apply Hnz; [lia | assumption].
Qed.

Lemma GRA_tables_raise (n m i : nat) :
  (m <= n)%nat -> (i < 2 ^ m)%nat -> Pv m i = 0 ->
  GRA_tables quad n dist a b = Raise ZeroDivisionError.
Proof.
  intros Hm Hi Hz. unfold GRA_tables. rewrite range_0.
  apply outer_loop_raise; try reflexivity.
  exists m, i. repeat split; try assumption; lia.
Qed.

End TablesFacts.

(** ** The bounds the code computes are the intervals of the tree *)

Section Intervals.

Local Open Scope R_scope.

Lemma INR_pow2 (m : nat) : INR (2 ^ m) = 2 ^ m.
Proof. rewrite pow_INR. reflexivity. Qed.

Lemma pow2_pos (m : nat) : 0 < 2 ^ m.
Proof. apply pow_lt; lra. Qed.

Lemma pow2_nat_pos (m : nat) : (0 < 2 ^ m)%nat.
Proof. apply Nat.neq_0_lt_0, Nat.pow_nonzero; lia. Qed.

Variables a b : R.

Lemma den_LB_eq (m i : nat) : den_LB a b m i = interval_lo a b m i.
Proof.
  unfold den_LB, interval_lo. rewrite INR_pow2.
  pose proof (pow2_pos m). field. lra.
Qed.

Lemma num_LB_eq (m i : nat) : num_LB a b m i = interval_lo a b m i.
Proof. apply den_LB_eq. Qed.

Lemma den_UB_eq (m i : nat) : den_UB a b m i = interval_hi a b m i.
Proof.
  unfold den_UB, interval_hi. rewrite INR_pow2, Nat.add_1_r, S_INR.
  pose proof (pow2_pos m). field. lra.
Qed.

Lemma num_UB_eq (m i : nat) : num_UB a b m i = interval_mid a b m i.
Proof.
  unfold num_UB, interval_mid. rewrite num_LB_eq, INR_pow2. reflexivity.
Qed.

(** Bisection: the two children of interval [i] of level [m] are the
    intervals [2i] and [2i+1] of level [m+1]. *)
Lemma interval_lo_left (m i : nat) :
  interval_lo a b (m + 1) (2 * i) = interval_lo a b m i.
Proof.
  unfold interval_lo. rewrite (Nat.add_1_r m), mult_INR. simpl.
  pose proof (pow2_pos m). field. lra.
Qed.

Lemma interval_hi_left (m i : nat) :
  interval_hi a b (m + 1) (2 * i) = interval_mid a b m i.
Proof.
  unfold interval_hi, interval_mid. rewrite (Nat.add_1_r m), mult_INR. simpl.
  pose proof (pow2_pos m). field. lra.
Qed.

Lemma interval_lo_right (m i : nat) :
  interval_lo a b (m + 1) (2 * i + 1) = interval_mid a b m i.
Proof.
  unfold interval_lo, interval_mid. rewrite (Nat.add_1_r m), plus_INR, mult_INR. simpl.
  pose proof (pow2_pos m). field. lra.
Qed.

Lemma interval_hi_right (m i : nat) :
  interval_hi a b (m + 1) (2 * i + 1) = interval_hi a b m i.
Proof.
  unfold interval_hi. rewrite (Nat.add_1_r m), plus_INR, mult_INR. simpl.
  pose proof (pow2_pos m). field. lra.
Qed.

Lemma interval_root : interval_lo a b 0 0 = a /\ interval_hi a b 0 0 = b.
Proof. unfold interval_lo, interval_hi. simpl. split; field. Qed.

End Intervals.

(** ** Reading the tables *)

Lemma nth_map_seq {A : Type} (g : nat -> A) (k i : nat) (d : A) :
  (i < k)%nat -> nth i (map g (seq 0 k)) d = g i.
Proof.
  intros Hi. rewrite (nth_indep _ d (g 0%nat)) by (rewrite length_map, length_seq; lia).
  rewrite map_nth, seq_nth by lia. reflexivity.
Qed.

Lemma nth_row (v : nat -> nat -> R) (n m i : nat) :
  (m <= n)%nat -> (i < 2 ^ m)%nat ->
  nth i (nth m (map (row v) (seq 0 (n + 1))) []) 0%R = v m i.
Proof.
  intros Hm Hi. rewrite nth_map_seq by lia. unfold row. now rewrite nth_map_seq.
Qed.

Lemma length_row (v : nat -> nat -> R) (n m : nat) :
  (m <= n)%nat -> length (nth m (map (row v) (seq 0 (n + 1))) []) = (2 ^ m)%nat.
Proof.
  intros Hm. rewrite nth_map_seq by lia. unfold row. now rewrite length_map, length_seq.
Qed.

Section TablesSpec.

Local Open Scope R_scope.

Variable quad : (R -> R) -> R -> R -> R.
Variable dist : R -> R.
Variables a b : R.

Lemma Pval_eq (m i : nat) :
  Pval quad dist a b m i = quad dist (interval_lo a b m i) (interval_hi a b m i).
Proof. unfold Pval. now rewrite den_LB_eq, den_UB_eq. Qed.

Lemma Fval_eq (m i : nat) :
  Fval quad dist a b m i =
  quad dist (interval_lo a b m i) (interval_mid a b m i) /
  quad dist (interval_lo a b m i) (interval_hi a b m i).
Proof. unfold Fval. now rewrite Pval_eq, num_LB_eq, num_UB_eq. Qed.

(** The tables [GRA_tables_ok] gives are the ones of the specification. *)
Lemma tables_meet_spec (n : nat) :
  GRA_tables_spec quad dist a b n
    (map (row (Fval quad dist a b)) (seq 0 (n + 1)))
    (map (row (Tval quad dist a b)) (seq 0 (n + 1)))
    (map (row (Pval quad dist a b)) (seq 0 (n + 1))).
Proof.
  unfold GRA_tables_spec. rewrite !length_map, !length_seq.
  repeat split; try reflexivity; try (now apply length_row).
  - rewrite nth_row by assumption. apply Pval_eq.
  - rewrite nth_row by assumption. apply Fval_eq.
  - now rewrite !nth_row by assumption.
Qed.

End TablesSpec.

(** ** The circuit of [GRA] *)

Section CircuitFacts.

Lemma extend_nil (qc : QuantumCircuit) : extend [] qc = qc.
Proof. destruct qc. unfold extend. simpl. now rewrite app_nil_r. Qed.

Lemma extend_extend (g1 g2 : list instruction) (qc : QuantumCircuit) :
  extend g2 (extend g1 qc) = extend (g1 ++ g2) qc.
Proof. unfold extend. simpl. now rewrite app_assoc. Qed.

Lemma append_extend (g : instruction) (qc : QuantumCircuit) : append g qc = extend [g] qc.
Proof. reflexivity. Qed.

(** A loop whose body appends [g j] appends the concatenation. *)
Lemma for_extend {A : Type} (n : nat) (g : A -> list instruction)
  (body : A -> QuantumCircuit -> result QuantumCircuit) (l : list A) :
  (forall j qc, In j l -> num_qubits qc = n -> body j qc = Ok (extend (g j) qc)) ->
  forall qc, num_qubits qc = n -> for_ l body qc = Ok (extend (flat_map g l) qc).
Proof.
  induction l as [|j l IH]; intros Hb qc Hn; cbn [for_ flat_map].
  - now rewrite extend_nil.
  - rewrite Hb by (try assumption; now left). cbn [bind].
    rewrite IH by (try assumption; intros; apply Hb; try assumption; now right).
    now rewrite extend_extend.
Qed.

(** [i & 2**j == 0] tests bit [j] of [i]. *)
Lemma land_pow2_eqb (i j : nat) : (Nat.land i (2 ^ j) =? 0)%nat = negb (Nat.testbit i j).
Proof.
  destruct (Nat.testbit i j) eqn:E; simpl.
  - apply Nat.eqb_neq. intros H.
    assert (B : Nat.testbit (Nat.land i (2 ^ j)) j = true).
    { rewrite Nat.land_spec, E, Nat.pow2_bits_eqb, Nat.eqb_refl. reflexivity. }
    rewrite H, Nat.bits_0 in B. discriminate.
  - apply Nat.eqb_eq. apply Nat.bits_inj_0. intros k.
    rewrite Nat.land_spec, Nat.pow2_bits_eqb.
    destruct (Nat.eqb_spec j k) as [<-|]; [now rewrite E | apply andb_false_r].
Qed.

Lemma GRA_x_layer_ok (m i : nat) (qc : QuantumCircuit) :
  (m <= num_qubits qc)%nat -> GRA_x_layer m i qc = Ok (extend (x_mask m i) qc).
Proof.
  intros Hm. unfold GRA_x_layer, x_mask. rewrite range_0.
  apply (for_extend (num_qubits qc)); [|reflexivity].
  intros j qc' Hj Hn. apply in_seq in Hj. rewrite land_pow2_eqb.
  destruct (Nat.testbit i j); simpl.
  - now rewrite extend_nil.
  - unfold x. rewrite Hn.
    destruct (Nat.ltb_spec (m - j - 1) (num_qubits qc)); [reflexivity | lia].
Qed.

Lemma control_qubits_ok (n k : nat) : forall (i0 : nat) (cq : list nat),
  (i0 + k <= n)%nat ->
  for_ (seq i0 k) (fun i cq => bind (qr n i) (fun q => Ok (cq ++ [q]))) cq =
  Ok (cq ++ seq i0 k).
Proof.
  induction k as [|k IH]; intros i0 cq H; cbn [for_ seq].
  - now rewrite app_nil_r.
  - unfold qr at 1. destruct (Nat.ltb_spec i0 n); [|lia]. cbn [bind].
    rewrite IH by lia. now rewrite <- app_assoc.
Qed.

Lemma mcrx_ok (theta : R) (m : nat) (qc : QuantumCircuit) :
  (m < num_qubits qc)%nat ->
  mcrx theta (seq 0 m) m qc = Ok (extend [MCRX theta (seq 0 m) m] qc).
Proof.
  intros Hm. unfold mcrx.
  assert (H1 : forallb (fun q => (q <? num_qubits qc)%nat) (m :: seq 0 m) = true).
  { apply forallb_forall. intros q [<-|Hq]; apply Nat.ltb_lt; [assumption|].
    apply in_seq in Hq. lia. }
  assert (H2 : existsb (Nat.eqb m) (seq 0 m) = false).
  { destruct (existsb (Nat.eqb m) (seq 0 m)) eqn:E; [|reflexivity].
    apply existsb_exists in E. destruct E as [q [Hq E]].
    apply in_seq in Hq. apply Nat.eqb_eq in E. lia. }
  rewrite H1, H2. reflexivity.
Qed.

Variable n : nat.
Variable T : list (list R).

(** The shape [GRA_tables] gives the table [T]. *)
Hypothesis T_shape :
  forall m i, (m <= n)%nat -> (i < 2 ^ m)%nat -> getitem2 T m i = Ok (entry T m i).

Lemma GRA_pattern_ok (m i : nat) (qc : QuantumCircuit) :
  num_qubits qc = n -> (m < n)%nat -> (i < 2 ^ m)%nat ->
  GRA_pattern n T (seq 0 m) m i qc = Ok (extend (pattern_gates (entry T) m i) qc).
Proof.
  intros Hn Hm Hi. unfold GRA_pattern.
  rewrite GRA_x_layer_ok by lia. cbn [bind].
  rewrite T_shape by (try assumption; lia). cbn [bind].
  unfold qr. destruct (Nat.ltb_spec m n); [|lia]. cbn [bind].
  rewrite mcrx_ok by (simpl; lia). cbn [bind].
  rewrite GRA_x_layer_ok by (simpl; lia).
  rewrite !extend_extend. unfold pattern_gates. now rewrite app_assoc.
Qed.

Lemma GRA_level_ok (m : nat) (qc : QuantumCircuit) :
  num_qubits qc = n -> (m < n)%nat ->
  GRA_level n T m qc = Ok (extend (Barrier :: level_gates (entry T) m) qc).
Proof.
  intros Hn Hm. unfold GRA_level, barrier. cbn [bind].
  rewrite range_0, (control_qubits_ok n m 0 []) by lia. cbn [bind app].
  rewrite range_0.
  rewrite (for_extend n (pattern_gates (entry T) m)).
  - now rewrite append_extend, extend_extend.
  - intros i qc' Hi Hn'. apply in_seq in Hi. apply GRA_pattern_ok; [assumption | lia | lia].
  - exact Hn.
Qed.

Lemma GRA_rotations_ok (qc : QuantumCircuit) :
  num_qubits qc = n -> (1 <= n)%nat ->
  GRA_rotations n T qc = Ok (extend (rotation_instructions n T) qc).
Proof.
  intros Hn H1. unfold GRA_rotations.
  rewrite T_shape by (try lia; apply pow2_nat_pos). cbn [bind].
  unfold rx. destruct (Nat.ltb_spec 0 (num_qubits qc)); [|lia]. cbn [bind].
  unfold range.
  rewrite (for_extend n (fun m => Barrier :: level_gates (entry T) m)).
  - now rewrite append_extend, extend_extend.
  - intros m qc' Hm Hn'. apply in_seq in Hm. apply GRA_level_ok; [assumption | lia].
  - exact Hn.
Qed.

End CircuitFacts.

Section SwapFacts.

Lemma flat_map_singleton {A B : Type} (g : A -> B) (l : list A) :
  flat_map (fun a => [g a]) l = map g l.
Proof. induction l as [|a l IH]; simpl; [reflexivity | now rewrite IH]. Qed.

Lemma swap_ok (n i : nat) (qc : QuantumCircuit) :
  num_qubits qc = n -> (i < n / 2)%nat ->
  swap i (n - i - 1) qc = Ok (extend [SWAP i (n - 1 - i)] qc).
Proof.
  intros Hn Hi. unfold swap. rewrite Hn.
  assert (H2 : (2 * (n / 2) <= n)%nat) by (apply Nat.Div0.mul_div_le).
  destruct (Nat.ltb_spec i n); [|lia].
  destruct (Nat.ltb_spec (n - i - 1) n); [|lia].
  destruct (Nat.eqb_spec i (n - i - 1)); [lia|].
  cbn [andb negb]. replace (n - i - 1)%nat with (n - 1 - i)%nat by lia.
  reflexivity.
Qed.

Lemma GRA_swaps_even_ok (n : nat) (qc : QuantumCircuit) :
  num_qubits qc = n -> GRA_swaps_even n qc = Ok (extend (swap_gates n) qc).
Proof.
  intros Hn. unfold GRA_swaps_even, swap_gates. rewrite range_0.
  rewrite <- flat_map_singleton.
  apply (for_extend n); [|assumption].
  intros i qc' Hi Hn'. apply in_seq in Hi. apply swap_ok; [assumption | lia].
Qed.

Lemma odd_half (n : nat) : (n mod 2 <> 0)%nat -> ((n - 1) / 2 = n / 2)%nat.
Proof.
  intros Hodd.
  pose proof (Nat.div_mod_eq n 2) as E.
  assert (Hm : (n mod 2 < 2)%nat) by (apply Nat.mod_upper_bound; lia).
  assert (E1 : (n - 1 = 0 + (n / 2) * 2)%nat) by lia.
  rewrite E1, Nat.div_add by lia. reflexivity.
Qed.

Lemma GRA_swaps_odd_ok (n : nat) (qc : QuantumCircuit) :
  num_qubits qc = n -> (n mod 2 <> 0)%nat ->
  GRA_swaps_odd n qc = Ok (extend (swap_gates n) qc).
Proof.
  intros Hn Hodd. unfold GRA_swaps_odd. rewrite odd_half by assumption.
  now apply GRA_swaps_even_ok.
Qed.

Lemma GRA_swaps_ok (n : nat) (qc : QuantumCircuit) :
  num_qubits qc = n -> GRA_swaps n qc = Ok (extend (swap_gates n) qc).
Proof.
  intros Hn. unfold GRA_swaps.
  destruct (Nat.eqb_spec (n mod 2) 0).
  - now apply GRA_swaps_even_ok.
  - now apply GRA_swaps_odd_ok.
Qed.

End SwapFacts.

Section GateFacts.

Lemma filter_all {A : Type} (p : A -> bool) (l : list A) :
  (forall a, In a l -> p a = true) -> filter p l = l.
Proof.
  induction l as [|a l IH]; intros H; simpl; [reflexivity|].
  rewrite H by now left. f_equal. apply IH. intros; apply H; now right.
Qed.

Lemma filter_none {A : Type} (p : A -> bool) (l : list A) :
  (forall a, In a l -> p a = false) -> filter p l = [].
Proof.
  induction l as [|a l IH]; intros H; simpl; [reflexivity|].
  rewrite H by now left. apply IH. intros; apply H; now right.
Qed.

Lemma filter_flat_map {A B : Type} (p : B -> bool) (g : A -> list B) (l : list A) :
  filter p (flat_map g l) = flat_map (fun a => filter p (g a)) l.
Proof.
  induction l as [|a l IH]; simpl; [reflexivity|].
  now rewrite filter_app, IH.
Qed.

Lemma in_x_mask (m i : nat) (g : instruction) :
  In g (x_mask m i) -> exists q, g = X q.
Proof.
  unfold x_mask. intros H. apply in_flat_map in H. destruct H as [j [_ H]].
  destruct (Nat.testbit i j); simpl in H; [contradiction|].
  destruct H as [<-|[]]. now eexists.
Qed.

Variable T : nat -> nat -> R.

Lemma in_pattern_gates (m i : nat) (g : instruction) :
  In g (pattern_gates T m i) ->
  (exists q, g = X q) \/ g = MCRX (2 * T m i) (seq 0 m) m.
Proof.
  unfold pattern_gates. intros H.
  apply in_app_or in H. destruct H as [H|H]; [left; eapply in_x_mask; eassumption|].
  apply in_app_or in H. destruct H as [[<-|[]]|H]; [now right|].
  left; eapply in_x_mask; eassumption.
Qed.

Lemma level_gates_are_gates (m : nat) : gates (level_gates T m) = level_gates T m.
Proof.
  apply filter_all. intros g H. unfold level_gates in H.
  apply in_flat_map in H. destruct H as [i [_ H]].
  apply in_pattern_gates in H. destruct H as [[q ->]| ->]; reflexivity.
Qed.

Lemma gates_levels (l : list nat) :
  gates (flat_map (fun m => Barrier :: level_gates T m) l) = flat_map (level_gates T) l.
Proof.
  unfold gates. rewrite filter_flat_map. apply flat_map_ext. intros m.
  cbn [filter is_gate]. apply level_gates_are_gates.
Qed.

Lemma gates_swaps (n : nat) : gates (swap_gates n) = swap_gates n.
Proof.
  apply filter_all. intros g H. unfold swap_gates in H.
  apply in_map_iff in H. destruct H as [i [<- _]]. reflexivity.
Qed.

Lemma rotations_app (l1 l2 : list instruction) :
  rotations (l1 ++ l2) = (rotations l1 + rotations l2)%nat.
Proof. unfold rotations. now rewrite filter_app, length_app. Qed.

Lemma rotations_x_mask (m i : nat) : rotations (x_mask m i) = 0%nat.
Proof.
  unfold rotations. rewrite filter_none; [reflexivity|].
  intros g H. apply in_x_mask in H. destruct H as [q ->]. reflexivity.
Qed.

Lemma rotations_pattern (m i : nat) : rotations (pattern_gates T m i) = 1%nat.
Proof.
  unfold pattern_gates. rewrite !rotations_app, !rotations_x_mask. reflexivity.
Qed.

Lemma rotations_patterns (m : nat) (l : list nat) :
  rotations (flat_map (pattern_gates T m) l) = length l.
Proof.
  induction l as [|i l IH]; cbn [flat_map length]; [reflexivity|].
  now rewrite rotations_app, rotations_pattern, IH.
Qed.

Lemma rotations_level (m : nat) : rotations (level_gates T m) = (2 ^ m)%nat.
Proof. unfold level_gates. now rewrite rotations_patterns, length_seq. Qed.

Lemma rotations_levels (k : nat) : forall m0 : nat,
  (rotations (flat_map (level_gates T) (seq m0 k)) + 2 ^ m0 = 2 ^ (m0 + k))%nat.
Proof.
  induction k as [|k IH]; intros m0; cbn [seq flat_map].
  - now rewrite Nat.add_0_r.
  - rewrite rotations_app, rotations_level.
    specialize (IH (S m0)). rewrite Nat.pow_succ_r' in IH.
    replace (m0 + S k)%nat with (S m0 + k)%nat by lia. lia.
Qed.

Lemma rotations_rotation_gates (n : nat) :
  (1 <= n)%nat -> rotations (rotation_gates T n) = (2 ^ n - 1)%nat.
Proof.
  intros Hn. unfold rotation_gates.
  change (RX (2 * T 0%nat 0%nat) 0 :: ?l) with ([RX (2 * T 0%nat 0%nat) 0] ++ l).
  rewrite rotations_app.
  pose proof (rotations_levels (n - 1) 1) as H.
  replace (1 + (n - 1))%nat with n in H by lia.
  change (rotations [RX (2 * T 0%nat 0%nat) 0]) with 1%nat.
  simpl in H. lia.
Qed.

Lemma rotations_swaps (n : nat) : rotations (swap_gates n) = 0%nat.
Proof.
  unfold rotations. rewrite filter_none; [reflexivity|].
  intros g H. unfold swap_gates in H.
  apply in_map_iff in H. destruct H as [i [<- _]]. reflexivity.
Qed.

End GateFacts.

(** ** [GRA] as a whole *)

Section GRAFacts.

Local Open Scope R_scope.

Variable quad : (R -> R) -> R -> R -> R.
Variable dist : R -> R.
Variables a b : R.

Let Ft (n : nat) := map (row (Fval quad dist a b)) (seq 0 (n + 1)).
Let Tt (n : nat) := map (row (Tval quad dist a b)) (seq 0 (n + 1)).
Let Pt (n : nat) := map (row (Pval quad dist a b)) (seq 0 (n + 1)).

Lemma masses_dec (n : nat) :
  masses_nonzero quad dist a b n \/
  (exists m i, (m <= n)%nat /\ (i < 2 ^ m)%nat /\ Pval quad dist a b m i = 0).
Proof.
  induction n as [|n [IH|(m & i & Hm & Hi & Hz)]].
  - destruct (level_masses_dec quad dist a b 0 (2 ^ 0)) as [H|(i & Hi & Hz)].
    + left. intros m i Hm Hi. assert (m = 0%nat) as -> by lia. now apply H.
    + right. exists 0%nat, i. auto.
  - destruct (level_masses_dec quad dist a b (S n) (2 ^ S n)) as [H|(i & Hi & Hz)].
    + left. intros m i Hm Hi. destruct (Nat.eq_dec m (S n)) as [->|].
      * now apply H.
      * apply IH; [lia | assumption].
    + right. exists (S n), i. auto.
  - right. exists m, i. repeat split; try assumption; lia.
Qed.

(** When [GRA_tables] returns, no mass was zero and the tables are the
    ones of [GRA_tables_ok]. *)
Lemma GRA_tables_inv (n : nat) (F T P : list (list R)) :
  GRA_tables quad n dist a b = Ok (F, T, P) ->
  masses_nonzero quad dist a b n /\ F = Ft n /\ T = Tt n /\ P = Pt n.
Proof.
  intros E. destruct (masses_dec n) as [H|(m & i & Hm & Hi & Hz)].
  - rewrite GRA_tables_ok in E by assumption. inversion E. auto.
  - rewrite (GRA_tables_raise quad dist a b n m i) in E by assumption. discriminate.
Qed.

Lemma getitem2_entry (T : list (list R)) (m i : nat) :
  (m < length T)%nat -> (i < length (nth m T []))%nat ->
  getitem2 T m i = Ok (entry T m i).
Proof.
  intros Hm Hi. unfold getitem2, entry.
  rewrite (nth_error_nth' T [] Hm), (nth_error_nth' _ 0 Hi). reflexivity.
Qed.

Lemma getitem2_Tt (n m i : nat) :
  (m <= n)%nat -> (i < 2 ^ m)%nat -> getitem2 (Tt n) m i = Ok (entry (Tt n) m i).
Proof.
  intros Hm Hi. apply getitem2_entry.
  - unfold Tt. rewrite length_map, length_seq. lia.
  - unfold Tt. rewrite length_row by assumption. assumption.
Qed.

Lemma entry_Tt (n m i : nat) :
  (m <= n)%nat -> (i < 2 ^ m)%nat -> entry (Tt n) m i = Tval quad dist a b m i.
Proof. intros. unfold entry, Tt. now apply nth_row. Qed.

Lemma entry_Ft (n m i : nat) :
  (m <= n)%nat -> (i < 2 ^ m)%nat -> entry (Ft n) m i = Fval quad dist a b m i.
Proof. intros. unfold entry, Ft. now apply nth_row. Qed.

Lemma entry_Pt (n m i : nat) :
  (m <= n)%nat -> (i < 2 ^ m)%nat -> entry (Pt n) m i = Pval quad dist a b m i.
Proof. intros. unfold entry, Pt. now apply nth_row. Qed.

(** The circuit [GRA] returns, instruction by instruction. *)
Lemma GRA_circuit_ok (n : nat) :
  (1 <= n)%nat ->
  GRA_circuit n (Tt n) =
  Ok {| num_qubits := n; num_clbits := n;
        data := rotation_instructions n (Tt n) ++ swap_gates n |}.
Proof.
  intros Hn. unfold GRA_circuit.
  rewrite (GRA_rotations_ok n (Tt n) (getitem2_Tt n)) by (simpl; lia). cbn [bind].
  rewrite GRA_swaps_ok by reflexivity. reflexivity.
Qed.

Lemma GRA_ok (n : nat) (F T P : list (list R)) :
  (1 <= n)%nat ->
  GRA_tables quad n dist a b = Ok (F, T, P) ->
  GRA quad n dist a b =
  Ok ({| num_qubits := n; num_clbits := n;
         data := rotation_instructions n T ++ swap_gates n |}, P).
Proof.
  intros Hn E. unfold GRA. rewrite E. cbn [bind].
  apply GRA_tables_inv in E. destruct E as (_ & _ & -> & _).
  rewrite GRA_circuit_ok by assumption. reflexivity.
Qed.

(** With no qubit the tables are computed, and [qc.rx] on qubit 0 raises. *)
Lemma GRA_no_qubit :
  masses_nonzero quad dist a b 0 -> GRA quad 0 dist a b = Raise CircuitError.
Proof.
  intros H. unfold GRA. rewrite (GRA_tables_ok quad dist a b 0 H). cbn [bind].
  unfold GRA_circuit, GRA_rotations. fold (Tt 0).
  rewrite (getitem2_Tt 0 0 0) by (simpl; lia). reflexivity.
Qed.

Lemma GRA_raise (n : nat) :
  GRA_tables quad n dist a b = Raise ZeroDivisionError ->
  GRA quad n dist a b = Raise ZeroDivisionError.
Proof. intros E. unfold GRA. now rewrite E. Qed.

Lemma gates_rotation_instructions (n : nat) (T : list (list R)) :
  gates (rotation_instructions n T) = rotation_gates (entry T) n.
Proof.
  unfold rotation_instructions, rotation_gates.
  change (gates (?g :: ?l)) with (g :: gates l) at 1.
  f_equal. apply gates_levels.
Qed.

End GRAFacts.

Section InstancesFacts.

Local Open Scope R_scope.

Lemma uniform_in (lo hi x : R) : lo <= x -> x <= hi -> uniform lo hi x = 1 / (hi - lo).
Proof.
  intros H1 H2. unfold uniform.
  destruct (Rle_dec lo x); [|contradiction].
  destruct (Rle_dec x hi); [reflexivity | contradiction].
Qed.

Lemma uniform_above (lo hi x : R) : hi < x -> uniform lo hi x = 0.
Proof.
  intros H. unfold uniform.
  destruct (Rle_dec lo x); [|reflexivity].
  destruct (Rle_dec x hi); [lra | reflexivity].
Qed.

Lemma uniform_below (lo hi x : R) : x < lo -> uniform lo hi x = 0.
Proof.
  intros H. unfold uniform. destruct (Rle_dec lo x); [lra | reflexivity].
Qed.

(** The rule is exact on the uniform density inside its support. *)
Lemma midpoint2_uniform (lo hi x y : R) :
  lo < hi -> lo <= x -> x <= y -> y <= hi ->
  midpoint2 (uniform lo hi) x y = (y - x) / (hi - lo).
Proof.
  intros H0 H1 H2 H3. unfold midpoint2.
  rewrite !uniform_in by lra. field. lra.
Qed.

(** and on an interval right of the support. *)
Lemma midpoint2_uniform_right (lo hi x y : R) :
  hi <= x -> x < y -> midpoint2 (uniform lo hi) x y = 0.
Proof.
  intros H1 H2. unfold midpoint2.
  rewrite !uniform_above by lra. lra.
Qed.

Lemma midpoint2_uniform_left (lo hi x y : R) :
  y <= lo -> x < y -> midpoint2 (uniform lo hi) x y = 0.
Proof.
  intros H1 H2. unfold midpoint2.
  rewrite !uniform_below by lra. lra.
Qed.

End InstancesFacts.

(** ** Where the intervals lie *)

Section IntervalBounds.

Local Open Scope R_scope.

Variables a b : R.
Hypothesis Hab : a < b.

Lemma INR_lt_pow2 (m i : nat) : (i < 2 ^ m)%nat -> INR i + 1 <= 2 ^ m.
Proof.
  intros Hi. rewrite <- S_INR, <- INR_pow2. apply le_INR. lia.
Qed.

Lemma half_pow2 (m : nat) : / 2 ^ (m + 1) = / 2 ^ m / 2.
Proof.
  rewrite Nat.add_1_r. simpl. pose proof (pow2_pos m). field. lra.
Qed.

Lemma grid (m i : nat) :
  (i < 2 ^ m)%nat ->
  0 < / 2 ^ m /\ 0 <= INR i * / 2 ^ m /\ (INR i + 1) * / 2 ^ m <= 1.
Proof.
  intros Hi. pose proof (pow2_pos m) as Hu.
  assert (Hr : 0 < / 2 ^ m) by now apply Rinv_0_lt_compat.
  repeat split; [assumption | |].
  - apply Rmult_le_pos; [apply pos_INR | lra].
  - apply Rle_trans with (2 ^ m * / 2 ^ m).
    + apply Rmult_le_compat_r; [lra | now apply INR_lt_pow2].
    + rewrite Rinv_r; lra.
Qed.

Lemma interval_bounds (m i : nat) :
  (i < 2 ^ m)%nat ->
  a <= interval_lo a b m i /\
  interval_lo a b m i < interval_mid a b m i /\
  interval_mid a b m i < interval_hi a b m i /\
  interval_hi a b m i <= b.
Proof.
  intros Hi. destruct (grid m i Hi) as (Hr & H0 & H1).
  unfold interval_lo, interval_mid, interval_hi, Rdiv.
  rewrite half_pow2. unfold Rdiv.
  set (r := / 2 ^ m) in *. set (t := INR i) in *.
  repeat split; nra.
Qed.

Lemma interval_lo_lt_hi (m i : nat) :
  (i < 2 ^ m)%nat -> interval_lo a b m i < interval_hi a b m i.
Proof. intros Hi. destruct (interval_bounds m i Hi) as (_ & ? & ? & _). lra. Qed.

End IntervalBounds.

Section InstanceMasses.

Local Open Scope R_scope.

(** The uniform density on [[0, 1]] integrated over the tree of [[0, 1]]:
    every interval has its length as mass. *)
Lemma uniform_Pval (m i : nat) :
  (i < 2 ^ m)%nat ->
  midpoint2 (uniform 0 1) (interval_lo 0 1 m i) (interval_hi 0 1 m i) =
  interval_hi 0 1 m i - interval_lo 0 1 m i.
Proof.
  intros Hi. destruct (interval_bounds 0 1 Rlt_0_1 m i Hi) as (H1 & H2 & H3 & H4).
  rewrite midpoint2_uniform by lra. field.
Qed.

Lemma uniform_masses (n m i : nat) :
  (m <= n)%nat -> (i < 2 ^ m)%nat ->
  midpoint2 (uniform 0 1) (interval_lo 0 1 m i) (interval_hi 0 1 m i) <> 0.
Proof.
  intros _ Hi. rewrite uniform_Pval by assumption.
  pose proof (interval_lo_lt_hi 0 1 Rlt_0_1 m i Hi). lra.
Qed.

Lemma uniform_masses_nonzero (n : nat) : masses_nonzero midpoint2 (uniform 0 1) 0 1 n.
Proof.
  intros m i Hm Hi. rewrite Pval_eq. now apply (uniform_masses n).
Qed.

End InstanceMasses.

Section MoreGateFacts.

Lemma rotations_gates (l : list instruction) : rotations (gates l) = rotations l.
Proof.
  unfold rotations, gates. induction l as [|g l IH]; [reflexivity|].
  destruct g; simpl; rewrite ?IH; reflexivity.
Qed.

Lemma rotation_instructions_no_swap (n : nat) (T : list (list R)) :
  filter is_swap (rotation_instructions n T) = [].
Proof.
  apply filter_none. intros g [<-|H]; [reflexivity|].
  apply in_flat_map in H. destruct H as [m [_ [<-|H]]]; [reflexivity|].
  unfold level_gates in H. apply in_flat_map in H. destruct H as [i [_ H]].
  apply in_pattern_gates in H. destruct H as [[q ->]| ->]; reflexivity.
Qed.

Lemma swap_gates_all_swaps (n : nat) : filter is_swap (swap_gates n) = swap_gates n.
Proof.
  apply filter_all. intros g H. unfold swap_gates in H.
  apply in_map_iff in H. destruct H as [i [<- _]]. reflexivity.
Qed.

End MoreGateFacts.

Section MassFacts.

Local Open Scope R_scope.

Variable quad : (R -> R) -> R -> R -> R.
Variable dist : R -> R.
Variables a b : R.

Local Abbreviation P := (Pval quad dist a b).
Local Abbreviation F := (Fval quad dist a b).

Lemma Pval_left (m i : nat) :
  P (m + 1) (2 * i) = quad dist (interval_lo a b m i) (interval_mid a b m i).
Proof. now rewrite Pval_eq, interval_lo_left, interval_hi_left. Qed.

Lemma Pval_right (m i : nat) :
  P (m + 1) (2 * i + 1) = quad dist (interval_mid a b m i) (interval_hi a b m i).
Proof. now rewrite Pval_eq, interval_lo_right, interval_hi_right. Qed.

Lemma Fval_ratio (m i : nat) : F m i = P (m + 1) (2 * i) / P m i.
Proof. now rewrite Fval_eq, Pval_left, Pval_eq. Qed.

Lemma Pval_root : P 0 0 = quad dist a b.
Proof. rewrite Pval_eq. destruct (interval_root a b) as [-> ->]. reflexivity. Qed.

Lemma sum_R_app (l1 l2 : list R) : sum_R (l1 ++ l2) = sum_R l1 + sum_R l2.
Proof. induction l1 as [|r l1 IH]; simpl; [lra | rewrite IH; lra]. Qed.

Lemma sum_pairs (g : nat -> R) (k : nat) :
  sum_R (map g (seq 0 (2 * k))) =
  sum_R (map (fun i => g (2 * i)%nat + g (2 * i + 1)%nat) (seq 0 k)).
Proof.
  induction k as [|k IH]; [reflexivity|].
  replace (2 * S k)%nat with (2 * k + 2)%nat by lia.
  rewrite (seq_S k 0), seq_app, !map_app, !sum_R_app, IH.
  cbn [seq map sum_R fold_right Nat.add].
  replace (S (2 * k)) with (2 * k + 1)%nat by lia. lra.
Qed.

Variable n : nat.
Hypothesis Hadd : additive_on_halves quad dist a b n.

Lemma Pval_split (m i : nat) :
  (m < n)%nat -> (i < 2 ^ m)%nat -> P m i = P (m + 1) (2 * i) + P (m + 1) (2 * i + 1).
Proof.
  intros Hm Hi. rewrite Pval_left, Pval_right, Pval_eq. symmetry. now apply Hadd.
Qed.

Lemma sum_level (m : nat) : (m <= n)%nat -> sum_R (row P m) = quad dist a b.
Proof.
  induction m as [|m IH]; intros Hm.
  - unfold row. cbn [Nat.pow seq map sum_R fold_right]. rewrite Pval_root. lra.
  - rewrite <- IH by lia. unfold row.
    rewrite Nat.pow_succ_r', sum_pairs. f_equal.
    apply map_ext_in. intros i Hi. apply in_seq in Hi.
    replace (S m) with (m + 1)%nat by lia. symmetry. apply Pval_split; lia.
Qed.

End MassFacts.

Section PathFacts.

Lemma path_prefix_root (n x : nat) : (x < 2 ^ n)%nat -> path_prefix n x 0 = 0%nat.
Proof. intros Hx. unfold path_prefix. rewrite Nat.sub_0_r. now apply Nat.div_small. Qed.

Lemma path_prefix_leaf (n x : nat) : path_prefix n x n = x.
Proof. unfold path_prefix. rewrite Nat.sub_diag. simpl. apply Nat.div_1_r. Qed.

Lemma path_prefix_lt (n x m : nat) :
  (x < 2 ^ n)%nat -> (m <= n)%nat -> (path_prefix n x m < 2 ^ m)%nat.
Proof.
  intros Hx Hm. unfold path_prefix.
  apply Nat.Div0.div_lt_upper_bound.
  rewrite <- Nat.pow_add_r. replace (n - m + m)%nat with n by lia. assumption.
Qed.

(** One step down the path: the next interval is the left or the right
    child, as the bit says. *)
Lemma path_prefix_step (n x m : nat) :
  (m < n)%nat ->
  path_prefix n x (m + 1) = (2 * path_prefix n x m + Nat.b2n (path_bit n x m))%nat.
Proof.
  intros Hm. unfold path_prefix, path_bit.
  replace (n - (m + 1))%nat with (n - 1 - m)%nat by lia.
  replace (n - m)%nat with (S (n - 1 - m)) by lia.
  set (c := (n - 1 - m)%nat).
  rewrite Nat.pow_succ_r', (Nat.mul_comm 2 (2 ^ c)), <- Nat.Div0.div_div, Nat.testbit_eqb.
  set (y := (x / 2 ^ c)%nat).
  pose proof (Nat.div_mod_eq y 2) as E.
  assert (Hlt : (y mod 2 < 2)%nat) by (apply Nat.mod_upper_bound; lia).
  destruct (Nat.eqb_spec (y mod 2) 1) as [H1|H1]; simpl Nat.b2n; lia.
Qed.

End PathFacts.

Section DomainFacts.

Local Open Scope R_scope.

Lemma ratio_bounds (u v : R) : 0 < u -> 0 < v -> 0 < u / (u + v) < 1.
Proof.
  intros Hu Hv. assert (Hs : 0 < / (u + v)) by (apply Rinv_0_lt_compat; lra).
  unfold Rdiv. split; [nra|].
  apply Rlt_le_trans with ((u + v) * / (u + v)); [nra | rewrite Rinv_r; lra].
Qed.

Lemma sqrt_unit (r : R) : 0 <= r <= 1 -> 0 <= sqrt r <= 1.
Proof.
  intros [H0 H1]. split; [apply sqrt_pos|].
  rewrite <- sqrt_1. now apply sqrt_le_1_alt.
Qed.

Lemma cos2_acos_sqrt (r : R) : 0 <= r <= 1 -> (cos (acos (sqrt r)))² = r.
Proof.
  intros H. pose proof (sqrt_unit r H) as Hs.
  rewrite cos_acos by lra. apply Rsqr_sqrt. lra.
Qed.

Lemma sin2_acos_sqrt (r : R) : 0 <= r <= 1 -> (sin (acos (sqrt r)))² = 1 - r.
Proof. intros H. now rewrite sin2, cos2_acos_sqrt. Qed.

Variable quad : (R -> R) -> R -> R -> R.
Variable dist : R -> R.
Variables a b : R.
Hypothesis Hab : a < b.
Hypothesis Hlc : log_concave_on dist a b.
Hypothesis Hpos : positive_integrals quad dist a b.

Local Abbreviation P := (Pval quad dist a b).
Local Abbreviation F := (Fval quad dist a b).
Local Abbreviation Tv := (Tval quad dist a b).

Lemma quad_pos (x y : R) : a <= x -> x < y -> y <= b -> 0 < quad dist x y.
Proof.
  intros H1 H2 H3. apply Hpos; try assumption.
  intros z Hz. apply (proj1 Hlc). lra.
Qed.

Lemma Pval_pos (m i : nat) : (i < 2 ^ m)%nat -> 0 < P m i.
Proof.
  intros Hi. rewrite Pval_eq.
  destruct (interval_bounds a b Hab m i Hi) as (H1 & H2 & H3 & H4).
  apply quad_pos; lra.
Qed.

Lemma positive_masses_nonzero (n : nat) : masses_nonzero quad dist a b n.
Proof. intros m i _ Hi. pose proof (Pval_pos m i Hi). lra. Qed.

Variable k : nat.
Hypothesis Hadd : additive_on_halves quad dist a b k.

Lemma Fval_bounds (m i : nat) : (m < k)%nat -> (i < 2 ^ m)%nat -> 0 < F m i < 1.
Proof.
  intros Hm Hi. rewrite Fval_eq, <- (Hadd m i Hm Hi).
  destruct (interval_bounds a b Hab m i Hi) as (H1 & H2 & H3 & H4).
  apply ratio_bounds; apply quad_pos; lra.
Qed.

Lemma cos2_Tval (m i : nat) :
  (m < k)%nat -> (i < 2 ^ m)%nat -> (cos (Tv m i))² = P (m + 1) (2 * i) / P m i.
Proof.
  intros Hm Hi. pose proof (Fval_bounds m i Hm Hi).
  unfold Tval. rewrite cos2_acos_sqrt by lra. apply Fval_ratio.
Qed.

Lemma sin2_Tval (m i : nat) :
  (m < k)%nat -> (i < 2 ^ m)%nat -> (sin (Tv m i))² = P (m + 1) (2 * i + 1) / P m i.
Proof.
  intros Hm Hi. pose proof (Fval_bounds m i Hm Hi).
  pose proof (Pval_pos m i Hi).
  unfold Tval. rewrite sin2_acos_sqrt by lra.
  pose proof (Pval_split quad dist a b k Hadd m i Hm Hi) as E.
  rewrite Fval_ratio.
  replace (P (m + 1) (2 * i + 1)) with (P m i - P (m + 1) (2 * i)) by lra.
  field. lra.
Qed.

End DomainFacts.

Section InstanceIntegrals.

Local Open Scope R_scope.

Lemma midpoint2_positive (g : R -> R) (a b : R) : positive_integrals midpoint2 g a b.
Proof.
  intros x y _ Hxy _ Hg. unfold midpoint2.
  assert (0 < g ((3 * x + y) / 4)) by (apply Hg; lra).
  assert (0 < g ((x + 3 * y) / 4)) by (apply Hg; lra).
  nra.
Qed.

Lemma uniform_log_concave : log_concave_on (uniform 0 1) 0 1.
Proof.
  split.
  - intros x Hx. rewrite uniform_in by lra. lra.
  - intros x y t Hx Hy Ht. rewrite !uniform_in by nra. lra.
Qed.

Lemma uniform_additive (k : nat) : additive_on_halves midpoint2 (uniform 0 1) 0 1 k.
Proof.
  intros m i _ Hi.
  destruct (interval_bounds 0 1 Rlt_0_1 m i Hi) as (H1 & H2 & H3 & H4).
  rewrite !midpoint2_uniform by lra. field.
Qed.

End InstanceIntegrals.

Lemma pow2_double_lt (m i : nat) :
  (i < 2 ^ m)%nat -> (2 * i < 2 ^ (m + 1))%nat /\ (2 * i + 1 < 2 ^ (m + 1))%nat.
Proof. intros Hi. rewrite Nat.add_1_r, Nat.pow_succ_r'. lia. Qed.

Section PathProduct.

Local Open Scope R_scope.

Variable quad : (R -> R) -> R -> R -> R.
Variable dist : R -> R.
Variables a b : R.
Variable n : nat.
Hypothesis Hab : a < b.
Hypothesis Hlc : log_concave_on dist a b.
Hypothesis Hpos : positive_integrals quad dist a b.
Hypothesis Hadd : additive_on_halves quad dist a b n.

Local Abbreviation P := (Pval quad dist a b).
Local Abbreviation Tn := (map (row (Tval quad dist a b)) (seq 0 (n + 1))).

(** The factor of level [m] is the mass of the next interval of the path
    over the mass of the current one. *)
Lemma path_factor_ratio (x m : nat) :
  (x < 2 ^ n)%nat -> (m < n)%nat ->
  path_factor Tn n x m =
  P (m + 1) (path_prefix n x (m + 1)) / P m (path_prefix n x m).
Proof.
  intros Hx Hm.
  pose proof (path_prefix_lt n x m Hx (Nat.lt_le_incl _ _ Hm)) as Hp.
  unfold path_factor. rewrite entry_Tt by (assumption || lia).
  rewrite path_prefix_step by assumption.
  destruct (path_bit n x m); cbn [Nat.b2n].
  - now apply (sin2_Tval quad dist a b Hab Hlc Hpos n Hadd).
  - rewrite Nat.add_0_r. now apply (cos2_Tval quad dist a b Hab Hlc Hpos n Hadd).
Qed.

Lemma path_product_telescopes (x k : nat) :
  (x < 2 ^ n)%nat -> (k <= n)%nat ->
  path_product Tn n x k = P k (path_prefix n x k) / P 0 0.
Proof.
  intros Hx. induction k as [|k IH]; intros Hk; cbn [path_product].
  - rewrite path_prefix_root by assumption.
    pose proof (Pval_pos quad dist a b Hab Hlc Hpos 0 0 (pow2_nat_pos 0)).
    field. lra.
  - rewrite IH by lia. rewrite path_factor_ratio by (assumption || lia).
    replace (S k) with (k + 1)%nat by lia.
    pose proof (Pval_pos quad dist a b Hab Hlc Hpos 0 0 (pow2_nat_pos 0)).
    pose proof (Pval_pos quad dist a b Hab Hlc Hpos k (path_prefix n x k)
                  (path_prefix_lt n x k Hx (Nat.lt_le_incl _ _ Hk))).
    field. lra.
Qed.

End PathProduct.

(** ** [binary_approx] *)

Section BinaryApprox.

Local Open Scope Q_scope.

Lemma zrange_indices (k : Z) : KW.zrange 1 (k + 1) = indices 0 (Z.to_nat k).
Proof. unfold KW.zrange, indices. now replace (k + 1 - 1)%Z with k by lia. Qed.

Lemma pow2_nat_pos_Q (j : nat) : 0 < KW.pow2 (Z.of_nat j).
Proof.
  unfold KW.pow2. rewrite <- (Zlt_Qlt 0). apply Z.pow_pos_nonneg; lia.
Qed.

Lemma pow2_next (j : nat) : KW.pow2 (1 + Z.of_nat j) == 2 * KW.pow2 (Z.of_nat j).
Proof.
  unfold KW.pow2. replace (1 + Z.of_nat j)%Z with (Z.succ (Z.of_nat j)) by lia.
  rewrite Z.pow_succ_r by lia. rewrite inject_Z_mult. reflexivity.
Qed.

(** With [h = 1/2^(j+1)]: [h > 0] and [1/2^j = 2h]. *)
Lemma halves (j : nat) :
  0 < / KW.pow2 (1 + Z.of_nat j) /\
  / KW.pow2 (Z.of_nat j) == 2 * / KW.pow2 (1 + Z.of_nat j).
Proof.
  pose proof (pow2_nat_pos_Q j) as Hp.
  assert (Hn : 0 < KW.pow2 (1 + Z.of_nat j)) by (rewrite pow2_next; Lqa.lra).
  split; [now apply Qinv_lt_0_compat|].
  rewrite pow2_next, Qinv_mult_distr.
  change (/ 2) with (1 # 2). Lqa.lra.
Qed.

Variable n : Q.

(** One iteration: the bit is set exactly under the strict inequality. *)
Lemma body_cases (a : list Z) (total : Q) (i : Z) :
  (total + / KW.pow2 i < n /\
   KW.binary_approx_body n (a, total) i = (a ++ [1%Z], total + inject_Z 1 / KW.pow2 i)) \/
  (n <= total + / KW.pow2 i /\
   KW.binary_approx_body n (a, total) i = (a ++ [0%Z], total + inject_Z 0 / KW.pow2 i)).
Proof.
  unfold KW.binary_approx_body, KW.Qgt_bool.
  assert (E1 : total + 1 / KW.pow2 i == total + / KW.pow2 i).
  { unfold Qdiv. now rewrite Qmult_1_l. }
  destruct (Qle_bool n (total + 1 / KW.pow2 i)) eqn:E; cbn [negb].
  - right. apply Qle_bool_iff in E. split; [Lqa.lra | reflexivity].
  - left. split; [|reflexivity].
    apply Qnot_le_lt. intros H. rewrite <- E1 in H.
    apply Qle_bool_iff in H. congruence.
Qed.

Lemma bit_one (i : Z) : inject_Z 1 / KW.pow2 i == / KW.pow2 i.
Proof. unfold Qdiv. change (inject_Z 1) with 1. now rewrite Qmult_1_l. Qed.

Lemma bit_zero (i : Z) : inject_Z 0 / KW.pow2 i == 0.
Proof. unfold Qdiv. change (inject_Z 0) with 0. now rewrite Qmult_0_l. Qed.

(** An invariant of the iterations holds at the end of the loop. *)
Lemma loop_invariant (I : nat -> list Z * Q -> Prop) :
  (forall j s, I j s -> I (S j) (KW.binary_approx_body n s (1 + Z.of_nat j))) ->
  forall K j0 s, I j0 s ->
    I (j0 + K)%nat (fold_left (KW.binary_approx_body n) (indices j0 K) s).
Proof.
  intros Hstep. induction K as [|K IH]; intros j0 s H; cbn [indices seq map fold_left].
  - now rewrite Nat.add_0_r.
  - replace (j0 + S K)%nat with (S j0 + K)%nat by lia.
    apply (IH (S j0)). now apply Hstep.
Qed.

Lemma sumQ_app (l1 l2 : list Q) : sumQ (l1 ++ l2) == sumQ l1 + sumQ l2.
Proof.
  induction l1 as [|q l1 IH].
  - change (sumQ ([] ++ l2)) with (sumQ l2). change (sumQ []) with 0. ring.
  - change (sumQ ((q :: l1) ++ l2)) with (q + sumQ (l1 ++ l2)).
    change (sumQ (q :: l1)) with (q + sumQ l1). rewrite IH. ring.
Qed.

Lemma binary_value_snoc (a : list Z) (v : Z) :
  binary_value (a ++ [v]) ==
  binary_value a + inject_Z v / KW.pow2 (1 + Z.of_nat (length a)).
Proof.
  unfold binary_value. rewrite length_app. cbn [length].
  rewrite Nat.add_1_r, seq_S, map_app, sumQ_app. cbn [map sumQ fold_right].
  replace (1 + length a - 1)%nat with (length a) by lia.
  rewrite nth_middle.
  replace (Z.of_nat (1 + length a)) with (1 + Z.of_nat (length a))%Z by lia.
  assert (E : map (fun i => inject_Z (nth (i - 1) (a ++ [v]) 0%Z) / KW.pow2 (Z.of_nat i))
                  (seq 1 (length a)) =
              map (fun i => inject_Z (nth (i - 1) a 0%Z) / KW.pow2 (Z.of_nat i))
                  (seq 1 (length a))).
  { apply map_ext_in. intros i Hi. apply in_seq in Hi.
    now rewrite app_nth1 by lia. }
  rewrite E. Lqa.lra.
Qed.

Lemma shape_step (j : nat) (s : list Z * Q) :
  shape j s -> shape (S j) (KW.binary_approx_body n s (1 + Z.of_nat j)).
Proof.
  destruct s as [a total]. intros (Hl & Hb & Hv & H0 & Hz). cbn [fst snd] in *.
  destruct (halves j) as [Hh _].
  destruct (body_cases a total (1 + Z.of_nat j)) as [[_ ->]|[_ ->]];
    unfold shape; cbn [fst snd].
  - repeat split.
    + rewrite length_app. cbn [length]. lia.
    + apply Forall_app. split; [assumption | constructor; [now right | constructor]].
    + rewrite binary_value_snoc, Hl, Hv. reflexivity.
    + rewrite bit_one. Lqa.lra.
    + intros H. rewrite bit_one in H. Lqa.lra.
    + intros H. apply Forall_app in H. destruct H as [_ H].
      inversion H; subst. discriminate.
  - repeat split.
    + rewrite length_app. cbn [length]. lia.
    + apply Forall_app. split; [assumption | constructor; [now left | constructor]].
    + rewrite binary_value_snoc, Hl, Hv. reflexivity.
    + rewrite bit_zero. Lqa.lra.
    + intros H. rewrite bit_zero in H. apply Forall_app. split.
      * apply Hz. Lqa.lra.
      * constructor; [reflexivity | constructor].
    + intros H. apply Forall_app in H. destruct H as [H _].
      apply Hz in H. rewrite bit_zero. Lqa.lra.
Qed.

(** The total never exceeds [n >= 0], and stays below [n > 0]. *)
Lemma below_step (j : nat) (s : list Z * Q) :
  snd s <= n -> snd (KW.binary_approx_body n s (1 + Z.of_nat j)) <= n.
Proof.
  destruct s as [a total]. cbn [snd]. intros H.
  destruct (body_cases a total (1 + Z.of_nat j)) as [[Hc ->]|[Hc ->]]; cbn [snd].
  - rewrite bit_one. Lqa.lra.
  - rewrite bit_zero. Lqa.lra.
Qed.

Lemma strictly_below_step (j : nat) (s : list Z * Q) :
  snd s < n -> snd (KW.binary_approx_body n s (1 + Z.of_nat j)) < n.
Proof.
  destruct s as [a total]. cbn [snd]. intros H.
  destruct (body_cases a total (1 + Z.of_nat j)) as [[Hc ->]|[Hc ->]]; cbn [snd].
  - rewrite bit_one. Lqa.lra.
  - rewrite bit_zero. Lqa.lra.
Qed.

(** After [j] iterations the total is within [1/2^j] of [n]. *)
Lemma close_step (j : nat) (s : list Z * Q) :
  n - snd s <= / KW.pow2 (Z.of_nat j) ->
  n - snd (KW.binary_approx_body n s (1 + Z.of_nat j)) <= / KW.pow2 (Z.of_nat (S j)).
Proof.
  destruct s as [a total]. cbn [snd]. intros H.
  replace (Z.of_nat (S j)) with (1 + Z.of_nat j)%Z by lia.
  destruct (halves j) as [Hh E]. rewrite E in H.
  destruct (body_cases a total (1 + Z.of_nat j)) as [[Hc ->]|[Hc ->]]; cbn [snd].
  - rewrite bit_one. Lqa.lra.
  - rewrite bit_zero. Lqa.lra.
Qed.

End BinaryApprox.

(** ** [f] and [angle] *)

Section GaussianSum.

Local Open Scope R_scope.

Lemma fold_left_Rplus (l : list R) (acc : R) :
  fold_left Rplus l acc = acc + fold_left Rplus l 0.
Proof.
  revert acc. induction l as [|r l IH]; intros acc; cbn [fold_left]; [lra|].
  rewrite (IH (acc + r)), (IH (0 + r)). lra.
Qed.

Lemma np_sum_cons (r : R) (l : list R) : KW.np_sum (r :: l) = r + KW.np_sum l.
Proof. unfold KW.np_sum. cbn [fold_left]. rewrite fold_left_Rplus. lra. Qed.

Lemma np_sum_app (l1 l2 : list R) : KW.np_sum (l1 ++ l2) = KW.np_sum l1 + KW.np_sum l2.
Proof.
  induction l1 as [|r l1 IH]; cbn [app].
  - unfold KW.np_sum at 2. cbn [fold_left]. lra.
  - rewrite !np_sum_cons, IH. lra.
Qed.

(** One more index on each side of [arange(lo, hi)]. *)
Lemma zrange_extend (lo hi : Z) :
  (lo <= hi)%Z ->
  KW.zrange (lo - 1) (hi + 1) = (lo - 1)%Z :: KW.zrange lo hi ++ [hi].
Proof.
  intros H. unfold KW.zrange.
  replace (Z.to_nat (hi + 1 - (lo - 1))) with (S (Z.to_nat (hi - lo) + 1)) by lia.
  cbn [seq map]. f_equal; [lia|].
  rewrite seq_app, map_app. cbn [seq map Nat.add]. f_equal.
  - rewrite <- seq_shift, map_map. apply map_ext. intros j. lia.
  - f_equal. lia.
Qed.


Lemma np_sum_symmetric (g : Z -> R) (n : nat) :
  KW.np_sum (map g (KW.zrange (- Z.of_nat n) (Z.of_nat n + 1))) = symmetric_sum g n.
Proof.
  induction n as [|n IH].
  - unfold KW.zrange, KW.np_sum.
    change (Z.to_nat (Z.of_nat 0 + 1 - - Z.of_nat 0)) with 1%nat.
    cbn [seq map fold_left symmetric_sum]. change (- Z.of_nat 0 + Z.of_nat 0)%Z with 0%Z.
    lra.
  - replace (- Z.of_nat (S n))%Z with (- Z.of_nat n - 1)%Z by lia.
    replace (Z.of_nat (S n) + 1)%Z with (Z.of_nat n + 1 + 1)%Z by lia.
    rewrite zrange_extend by lia.
    cbn [map]. rewrite np_sum_cons, map_app, np_sum_app, IH.
    cbn [map symmetric_sum]. rewrite np_sum_cons. unfold KW.np_sum at 1. cbn [fold_left].
    replace (- Z.of_nat n - 1)%Z with (- Z.of_nat (S n))%Z by lia.
    replace (Z.of_nat n + 1)%Z with (Z.of_nat (S n)) by lia. lra.
Qed.

Lemma f_symmetric (mu sigma : R) (n : Z) :
  (0 <= n)%Z -> KW.f mu sigma n = symmetric_sum (gaussian_term mu sigma) (Z.to_nat n).
Proof.
  intros Hn. unfold KW.f. rewrite <- np_sum_symmetric.
  rewrite Z2Nat.id by assumption. reflexivity.
Qed.

Lemma gaussian_term_pos (mu sigma : R) (j : Z) : 0 < gaussian_term mu sigma j.
Proof. apply exp_pos. Qed.

Lemma symmetric_sum_pos (g : Z -> R) (n : nat) :
  (forall j, 0 < g j) -> 0 < symmetric_sum g n.
Proof.
  intros Hg. induction n as [|n IH]; cbn [symmetric_sum]; [apply Hg|].
  pose proof (Hg (Z.of_nat (S n))). pose proof (Hg (- Z.of_nat (S n))%Z). lra.
Qed.

End GaussianSum.

(** ** The circuit on a state vector *)

Section StateVectorFacts.

Local Open Scope R_scope.

Lemma run_app (l1 l2 : list instruction) (psi : state) :
  run (l1 ++ l2) psi = run l2 (run l1 psi).
Proof. unfold run. apply fold_left_app. Qed.

Lemma flip_flip (q : nat) (s : basis) : flip q (flip q s) = s.
Proof.
  apply functional_extensionality. intros k. unfold flip.
  destruct (Nat.eqb_spec k q); [apply negb_involutive | reflexivity].
Qed.

Lemma flip_same (q : nat) (s : basis) : flip q s q = negb (s q).
Proof. unfold flip. now rewrite Nat.eqb_refl. Qed.

Lemma flip_other (q k : nat) (s : basis) : k <> q -> flip q s k = s k.
Proof. intros H. unfold flip. now destruct (Nat.eqb_spec k q). Qed.

Lemma pre_ext (l : nat) (s s' : basis) :
  (forall k, (k < l)%nat -> s k = s' k) -> pre l s = pre l s'.
Proof.
  induction l as [|l IH]; intros H; cbn [pre]; [reflexivity|].
  rewrite IH by (intros; apply H; lia). now rewrite H by lia.
Qed.

Lemma pre_lt (l : nat) (s : basis) : (pre l s < 2 ^ l)%nat.
Proof.
  induction l as [|l IH]; cbn [pre]; [simpl; lia|].
  rewrite Nat.pow_succ_r'. destruct (s l); simpl Nat.b2n; lia.
Qed.

Lemma prodfac_ext (T : nat -> nat -> R) (m : nat) (s s' : basis) :
  (forall k, (k < m)%nat -> s k = s' k) -> prodfac T m s = prodfac T m s'.
Proof.
  induction m as [|m IH]; intros H; cbn [prodfac]; [reflexivity|].
  rewrite IH by (intros; apply H; lia). unfold fac.
  rewrite (pre_ext m s s') by (intros; apply H; lia).
  now rewrite H by lia.
Qed.

Lemma existsb_ext_in (s s' : basis) (l : list nat) :
  (forall k, In k l -> s k = s' k) -> existsb s l = existsb s' l.
Proof.
  induction l as [|k l IH]; intros H; cbn [existsb]; [reflexivity|].
  rewrite H by now left. rewrite IH; [reflexivity|]. intros; apply H; now right.
Qed.

Lemma existsb_from (s : basis) (n m : nat) :
  (m < n)%nat ->
  existsb s (seq m (n - m)) = s m || existsb s (seq (S m) (n - S m)).
Proof.
  intros H. replace (n - m)%nat with (S (n - S m)) by lia. reflexivity.
Qed.

Lemma Cpair (x y x' y' : R) : x = x' -> y = y' -> (x, y) = (x', y').
Proof. now intros -> ->. Qed.

(** The rotation of level [m] on the states of interval [i]. *)
Lemma rx_step (T : nat -> nat -> R) (n m i : nat) (psi : state) :
  (m < n)%nat ->
  (forall s, pre m s = i -> psi s = amp T n m s) ->
  forall s, pre m s = i -> rx_on (2 * T m i) m psi s = amp T n (S m) s.
Proof.
  intros Hm Hpsi s Hs.
  assert (Hf : pre m (flip m s) = i).
  { rewrite <- Hs. apply pre_ext. intros k Hk. apply flip_other. lia. }
  unfold rx_on. rewrite (Hpsi s Hs), (Hpsi _ Hf).
  replace (2 * T m i / 2) with (T m i) by field.
  unfold amp. rewrite (existsb_from s n m Hm), (existsb_from (flip m s) n m Hm).
  rewrite flip_same.
  rewrite (existsb_ext_in (flip m s) s (seq (S m) (n - S m)))
    by (intros k Hk; apply in_seq in Hk; apply flip_other; lia).
  rewrite (prodfac_ext T m (flip m s) s) by (intros k Hk; apply flip_other; lia).
  cbn [prodfac]. unfold fac. rewrite Hs.
  destruct (s m); destruct (existsb s (seq (S m) (n - S m))); cbn [orb negb];
    destruct (prodfac T m s) as [u v]; unfold Cadd, Cmul; cbn [fst snd];
    apply Cpair; ring.
Qed.

(** *** The X gates around a rotation select its interval *)

Lemma run_x_layer (m i : nat) (psi : state) : forall j0, (j0 <= m)%nat ->
  run (flat_map (fun j => if Nat.testbit i j then [] else [X (m - j - 1)]) (seq 0 j0)) psi =
  fun s => psi (mask m i j0 s).
Proof.
  induction j0 as [|j0 IH]; intros Hj.
  - cbn. apply functional_extensionality. intros s. f_equal.
    apply functional_extensionality. intros k. unfold mask.
    destruct (Nat.ltb_spec (m - 1 - k) 0); [lia|]. now rewrite andb_false_r.
  - rewrite seq_S, flat_map_app, run_app, IH by lia. cbn [Nat.add flat_map].
    rewrite app_nil_r.
    apply functional_extensionality. intros s.
    destruct (Nat.testbit i j0) eqn:E.
    + cbn. f_equal. apply functional_extensionality. intros k. unfold mask.
      destruct (Nat.ltb_spec k m); cbn [andb]; [|reflexivity].
      destruct (Nat.ltb_spec (m - 1 - k) j0), (Nat.ltb_spec (m - 1 - k) (S j0));
        cbn [andb]; try reflexivity; try lia.
      assert (m - 1 - k = j0)%nat as -> by lia. now rewrite E.
    + cbn. f_equal. apply functional_extensionality. intros k. unfold mask, flip.
      destruct (Nat.eqb_spec k (m - j0 - 1)) as [->|Hk].
      * replace (m - 1 - (m - j0 - 1))%nat with j0 by lia. rewrite E.
        destruct (Nat.ltb_spec (m - j0 - 1) m); [|lia].
        rewrite Nat.ltb_irrefl.
        destruct (Nat.ltb_spec j0 (S j0)); [|lia]. reflexivity.
      * destruct (Nat.ltb_spec k m); cbn [andb]; [|reflexivity].
        destruct (Nat.ltb_spec (m - 1 - k) j0), (Nat.ltb_spec (m - 1 - k) (S j0));
          cbn [andb]; try reflexivity; lia.
Qed.

Lemma run_x_mask (m i : nat) (psi : state) :
  run (x_mask m i) psi = fun s => psi (mask m i m s).
Proof. unfold x_mask. now apply run_x_layer. Qed.

Lemma mask_mask (m i : nat) (s : basis) : mask m i m (mask m i m s) = s.
Proof.
  apply functional_extensionality. intros k. unfold mask.
  destruct ((k <? m)%nat && (m - 1 - k <? m)%nat && negb (Nat.testbit i (m - 1 - k)));
    [apply negb_involutive | reflexivity].
Qed.

Lemma mask_flip_mask (m i : nat) (s : basis) :
  mask m i m (flip m (mask m i m s)) = flip m s.
Proof.
  apply functional_extensionality. intros k. unfold mask, flip.
  destruct (Nat.eqb_spec k m) as [->|Hk].
  - now rewrite Nat.ltb_irrefl.
  - destruct ((k <? m)%nat && (m - 1 - k <? m)%nat && negb (Nat.testbit i (m - 1 - k)));
      [apply negb_involutive | reflexivity].
Qed.

Lemma mask_agrees (m i k : nat) (s : basis) :
  (k < m)%nat -> mask m i m s k = Bool.eqb (s k) (Nat.testbit i (m - 1 - k)).
Proof.
  intros Hk. unfold mask.
  destruct (Nat.ltb_spec k m); [|lia].
  destruct (Nat.ltb_spec (m - 1 - k) m); [|lia]. cbn [andb].
  destruct (s k), (Nat.testbit i (m - 1 - k)); reflexivity.
Qed.

Lemma testbit_pre (m k : nat) (s : basis) :
  (k < m)%nat -> Nat.testbit (pre m s) (m - 1 - k) = s k.
Proof.
  induction m as [|m IH]; intros Hk; [lia|]. cbn [pre].
  destruct (Nat.eq_dec k m) as [->|Hne].
  - replace (S m - 1 - m)%nat with 0%nat by lia. apply Nat.testbit_0_r.
  - replace (S m - 1 - k)%nat with (S (m - 1 - k)) by lia.
    rewrite Nat.testbit_succ_r. apply IH. lia.
Qed.

Lemma testbit_above (x m j : nat) : (x < 2 ^ m)%nat -> (m <= j)%nat -> Nat.testbit x j = false.
Proof.
  intros Hx Hj. apply Nat.testbit_false. rewrite Nat.div_small; [reflexivity|].
  apply Nat.lt_le_trans with (2 ^ m)%nat; [assumption|].
  apply Nat.pow_le_mono_r; lia.
Qed.

(** The controls are all 1 under the X layer exactly on interval [i]. *)
Lemma controls_select (m i : nat) (s : basis) :
  (i < 2 ^ m)%nat ->
  forallb (mask m i m s) (seq 0 m) = (pre m s =? i)%nat.
Proof.
  intros Hi. apply eq_true_iff_eq. rewrite forallb_forall, Nat.eqb_eq. split.
  - intros H. apply Nat.bits_inj. intros j.
    destruct (Nat.lt_ge_cases j m) as [Hj|Hj].
    + specialize (H (m - 1 - j)%nat). rewrite mask_agrees in H by lia.
      replace (m - 1 - (m - 1 - j))%nat with j in H by lia.
      rewrite <- (testbit_pre m (m - 1 - j) s) in H by lia.
      replace (m - 1 - (m - 1 - j))%nat with j in H by lia.
      apply eqb_prop. apply H. apply in_seq. lia.
    + rewrite (testbit_above (pre m s) m j), (testbit_above i m j);
        try assumption; [reflexivity | apply pre_lt].
  - intros <- k Hk. apply in_seq in Hk. rewrite mask_agrees by lia.
    rewrite testbit_pre by lia. apply eqb_reflx.
Qed.

(** X layer, multi-controlled rotation, X layer: the rotation of the target
    on the basis states of interval [i], and nothing elsewhere. *)
Lemma run_pattern (T : nat -> nat -> R) (m i : nat) (psi : state) :
  (i < 2 ^ m)%nat ->
  run (pattern_gates T m i) psi =
  fun s => if (pre m s =? i)%nat then rx_on (2 * T m i) m psi s else psi s.
Proof.
  intros Hi. unfold pattern_gates. rewrite !run_app, !run_x_mask.
  apply functional_extensionality. intros s. cbn [run fold_left apply].
  rewrite controls_select by assumption.
  destruct (pre m s =? i)%nat; [|now rewrite mask_mask].
  unfold rx_on. now rewrite mask_mask, mask_flip_mask.
Qed.

(** *** The levels *)

Lemma run_patterns (T : nat -> nat -> R) (n m : nat) :
  (m < n)%nat -> forall k, (k <= 2 ^ m)%nat ->
  run (flat_map (pattern_gates T m) (seq 0 k)) (amp T n m) =
  fun s => if (pre m s <? k)%nat then amp T n (S m) s else amp T n m s.
Proof.
  intros Hm. induction k as [|k IH]; intros Hk.
  - reflexivity.
  - rewrite seq_S, flat_map_app, run_app, IH by lia. cbn [Nat.add flat_map].
    rewrite app_nil_r, run_pattern by lia.
    apply functional_extensionality. intros s.
    destruct (Nat.eqb_spec (pre m s) k) as [E|E].
    + rewrite (rx_step T n m k) with (3 := E); try assumption.
      * destruct (Nat.ltb_spec (pre m s) (S k)); [reflexivity | lia].
      * intros s' E'. destruct (Nat.ltb_spec (pre m s') k); [lia | reflexivity].
    + destruct (Nat.ltb_spec (pre m s) k), (Nat.ltb_spec (pre m s) (S k));
        try reflexivity; lia.
Qed.

Lemma run_level (T : nat -> nat -> R) (n m : nat) :
  (m < n)%nat -> run (Barrier :: level_gates T m) (amp T n m) = amp T n (S m).
Proof.
  intros Hm. cbn [run fold_left apply]. fold (run (level_gates T m) (amp T n m)).
  unfold level_gates. rewrite run_patterns by lia.
  apply functional_extensionality. intros s.
  destruct (Nat.ltb_spec (pre m s) (2 ^ m)); [reflexivity|].
  pose proof (pre_lt m s). lia.
Qed.

Lemma run_levels (T : nat -> nat -> R) (n : nat) : forall k m0, (m0 + k <= n)%nat ->
  run (flat_map (fun m => Barrier :: level_gates T m) (seq m0 k)) (amp T n m0) =
  amp T n (m0 + k).
Proof.
  induction k as [|k IH]; intros m0 H.
  - now rewrite Nat.add_0_r.
  - cbn [seq flat_map]. rewrite run_app, run_level by lia.
    rewrite IH by lia. f_equal. lia.
Qed.

Lemma zero_state_amp (T : nat -> nat -> R) (n : nat) : zero_state n = amp T n 0.
Proof. unfold zero_state, amp. now rewrite Nat.sub_0_r. Qed.

(** The state the rotations prepare. *)
Lemma run_rotation_instructions (n : nat) (T : list (list R)) :
  (1 <= n)%nat ->
  run (rotation_instructions n T) (zero_state n) = amp (entry T) n n.
Proof.
  intros Hn. unfold rotation_instructions.
  change (run (?g :: ?l) ?p) with (run l (apply g p)).
  cbn [apply]. rewrite (zero_state_amp (entry T)).
  assert (E : rx_on (2 * entry T 0 0) 0 (amp (entry T) n 0) = amp (entry T) n 1).
  { apply functional_extensionality. intros s.
    apply (rx_step (entry T) n 0 0); [lia | reflexivity | reflexivity]. }
  rewrite E, run_levels by lia. f_equal. lia.
Qed.

(** *** The swaps reverse the register *)

Lemma run_swaps (n : nat) (psi : state) : forall j, (j <= n / 2)%nat ->
  run (map (fun i => SWAP i (n - 1 - i)) (seq 0 j)) psi =
  fun s => psi (reverse_upto n j s).
Proof.
  assert (H2 : (2 * (n / 2) <= n)%nat) by (apply Nat.Div0.mul_div_le).
  induction j as [|j IH]; intros Hj.
  - cbn. apply functional_extensionality. intros s. f_equal.
    apply functional_extensionality. intros k. unfold reverse_upto.
    destruct (Nat.ltb_spec k 0); [lia|].
    destruct (Nat.ltb_spec (n - 1 - 0) k), (Nat.ltb_spec k n);
      cbn [orb andb]; try reflexivity; lia.
  - rewrite seq_S, map_app, run_app, IH by lia. cbn [Nat.add map run fold_left apply].
    apply functional_extensionality. intros s. f_equal.
    apply functional_extensionality. intros k. unfold reverse_upto, exchange.
    destruct (Nat.ltb_spec k j), (Nat.ltb_spec (n - 1 - j) k), (Nat.ltb_spec k n),
      (Nat.ltb_spec k (S j)), (Nat.ltb_spec (n - 1 - S j) k);
      cbn [orb andb]; try lia;
      repeat match goal with
      | |- context [(?x =? ?y)%nat] => destruct (Nat.eqb_spec x y)
      end; try lia; try reflexivity; try (f_equal; lia).
Qed.

Lemma reverse_upto_half (n : nat) (s : basis) : reverse_upto n (n / 2) s = reverse n s.
Proof.
  assert (H2 : (2 * (n / 2) <= n)%nat) by (apply Nat.Div0.mul_div_le).
  assert (H3 : (n < 2 * (n / 2) + 2)%nat).
  { pose proof (Nat.div_mod_eq n 2). pose proof (Nat.mod_upper_bound n 2). lia. }
  apply functional_extensionality. intros k. unfold reverse_upto, reverse.
  destruct (Nat.ltb_spec k (n / 2)), (Nat.ltb_spec (n - 1 - n / 2) k), (Nat.ltb_spec k n);
    cbn [orb andb]; try reflexivity; try lia.
  f_equal. lia.
Qed.

Lemma run_swap_gates (n : nat) (psi : state) :
  run (swap_gates n) psi = fun s => psi (reverse n s).
Proof.
  unfold swap_gates. rewrite run_swaps by lia.
  apply functional_extensionality. intros s. now rewrite reverse_upto_half.
Qed.

End StateVectorFacts.

Section IndexFacts.

Lemma index_lt (n : nat) (s : basis) : (index n s < 2 ^ n)%nat.
Proof.
  induction n as [|n IH]; cbn [index]; [simpl; lia|].
  rewrite Nat.pow_succ_r'. destruct (s n); simpl Nat.b2n; lia.
Qed.

Lemma pow2_split (n q : nat) :
  (q < n)%nat -> (2 ^ n = 2 ^ (n - q - 1) * 2 * 2 ^ q)%nat.
Proof.
  intros H. replace n with (S (n - q - 1) + q)%nat at 1 by lia.
  rewrite Nat.pow_add_r, Nat.pow_succ_r'. lia.
Qed.

Lemma testbit_index (n q : nat) (s : basis) :
  (q < n)%nat -> Nat.testbit (index n s) q = s q.
Proof.
  induction n as [|n IH]; intros Hq; [lia|]. cbn [index].
  pose proof (index_lt n s) as Hlt.
  destruct (Nat.eq_dec q n) as [->|Hne].
  - rewrite Nat.testbit_eqb, Nat.div_add by (apply Nat.pow_nonzero; lia).
    rewrite Nat.div_small by assumption.
    destruct (s n); reflexivity.
  - rewrite <- IH by lia. rewrite !Nat.testbit_eqb. f_equal.
    rewrite (pow2_split n q) by lia.
    rewrite !Nat.mul_assoc, Nat.div_add by (apply Nat.pow_nonzero; lia).
    now rewrite Nat.Div0.mod_add.
Qed.

(** Reversed, the register selects at every level the interval of the path
    of its index. *)
Lemma pre_reverse (n m : nat) (s : basis) :
  (m <= n)%nat -> pre m (reverse n s) = path_prefix n (index n s) m.
Proof.
  induction m as [|m IH]; intros Hm.
  - cbn [pre]. symmetry. apply path_prefix_root, index_lt.
  - cbn [pre]. rewrite IH by lia.
    replace (S m) with (m + 1)%nat by lia.
    rewrite path_prefix_step by lia. f_equal. f_equal.
    unfold reverse, path_bit. destruct (Nat.ltb_spec m n); [|lia].
    symmetry. apply testbit_index. lia.
Qed.

End IndexFacts.

Section Measurement.

Local Open Scope R_scope.

Lemma Cnorm2_mul (z w : C) : Cnorm2 (Cmul z w) = Cnorm2 z * Cnorm2 w.
Proof. destruct z, w. unfold Cnorm2, Cmul. cbn [fst snd]. ring. Qed.

Variable quad : (R -> R) -> R -> R -> R.
Variable dist : R -> R.
Variables a b : R.
Variable n : nat.
Hypothesis Hab : a < b.
Hypothesis Hlc : log_concave_on dist a b.
Hypothesis Hpos : positive_integrals quad dist a b.
Hypothesis Hadd : additive_on_halves quad dist a b n.

Local Abbreviation P := (Pval quad dist a b).
Local Abbreviation Tn := (map (row (Tval quad dist a b)) (seq 0 (n + 1))).

Lemma Cnorm2_fac (m : nat) (s : basis) :
  (m < n)%nat ->
  Cnorm2 (fac (entry Tn) m s) = P (S m) (pre (S m) s) / P m (pre m s).
Proof.
  intros Hm. pose proof (pre_lt m s) as Hp.
  unfold fac. rewrite entry_Tt by (assumption || lia). cbn [pre].
  replace (S m) with (m + 1)%nat by lia.
  destruct (s m); cbn [Nat.b2n]; unfold Cnorm2; cbn [fst snd].
  - rewrite <- (sin2_Tval quad dist a b Hab Hlc Hpos n Hadd m _ Hm Hp).
    unfold Rsqr. ring.
  - rewrite Nat.add_0_r.
    rewrite <- (cos2_Tval quad dist a b Hab Hlc Hpos n Hadd m _ Hm Hp).
    unfold Rsqr. ring.
Qed.

Lemma Cnorm2_prodfac (m : nat) (s : basis) :
  (m <= n)%nat -> Cnorm2 (prodfac (entry Tn) m s) = P m (pre m s) / P 0 0.
Proof.
  pose proof (Pval_pos quad dist a b Hab Hlc Hpos 0 0 (pow2_nat_pos 0)) as H0.
  induction m as [|m IH]; intros Hm; cbn [prodfac].
  - cbn [pre]. unfold Cnorm2. cbn [fst snd]. field. lra.
  - rewrite Cnorm2_mul, IH, Cnorm2_fac by lia.
    pose proof (Pval_pos quad dist a b Hab Hlc Hpos m (pre m s) (pre_lt m s)).
    field. lra.
Qed.

End Measurement.

(** ** What [GRA] returns and what it raises *)

Section ExceptionFacts.

Local Open Scope R_scope.

Variable quad : (R -> R) -> R -> R -> R.
Variable dist : R -> R.
Variables a b : R.

Local Abbreviation Tn n := (map (row (Tval quad dist a b)) (seq 0 (n + 1))).
Local Abbreviation Pn n := (map (row (Pval quad dist a b)) (seq 0 (n + 1))).

(** What [GRA] does, for [n >= 1]: it returns, or it divides by zero. *)
Lemma GRA_cases (n : nat) :
  (1 <= n)%nat ->
  (masses_nonzero quad dist a b n /\
   GRA quad n dist a b =
   Ok ({| num_qubits := n; num_clbits := n;
          data := rotation_instructions n (Tn n) ++ swap_gates n |}, Pn n)) \/
  ((exists m i, (m <= n)%nat /\ (i < 2 ^ m)%nat /\ Pval quad dist a b m i = 0) /\
   GRA quad n dist a b = Raise ZeroDivisionError).
Proof.
  intros Hn. destruct (masses_dec quad dist a b n) as [H | (m & i & Hm & Hi & Hz)].
  - left. split; [exact H|].
    apply GRA_ok with (1 := Hn) (2 := GRA_tables_ok quad dist a b n H).
  - right. split; [now exists m, i|].
    apply GRA_raise. now apply GRA_tables_raise with (m := m) (i := i).
Qed.

Lemma GRA_inv (n : nat) (qc : QuantumCircuit) (P : list (list R)) :
  (1 <= n)%nat -> GRA quad n dist a b = Ok (qc, P) ->
  masses_nonzero quad dist a b n /\
  qc = {| num_qubits := n; num_clbits := n;
          data := rotation_instructions n (Tn n) ++ swap_gates n |} /\
  P = Pn n.
Proof.
  intros Hn E. destruct (GRA_cases n Hn) as [[H E'] | [_ E']]; rewrite E' in E.
  - injection E as <- <-. now repeat split.
  - discriminate.
Qed.

End ExceptionFacts.

(** ** The circuit read in the table [P] *)

Section ExtFacts.

Lemma flat_map_ext_seq {B : Type} (g g' : nat -> list B) (lo k : nat) :
  (forall j, (lo <= j < lo + k)%nat -> g j = g' j) ->
  flat_map g (seq lo k) = flat_map g' (seq lo k).
Proof.
  revert lo. induction k as [|k IH]; intros lo H; [reflexivity|].
  cbn [seq flat_map]. rewrite (H lo) by lia. f_equal. apply IH. intros j Hj. apply H. lia.
Qed.

Lemma rotation_gates_ext (T T' : nat -> nat -> R) (n : nat) :
  (1 <= n)%nat ->
  (forall m i, (m < n)%nat -> (i < 2 ^ m)%nat -> T m i = T' m i) ->
  rotation_gates T n = rotation_gates T' n.
Proof.
  intros Hn H. unfold rotation_gates.
  rewrite (H 0%nat 0%nat) by (simpl; lia). f_equal.
  apply flat_map_ext_seq. intros m Hm. unfold level_gates.
  apply flat_map_ext_seq. intros i Hi. unfold pattern_gates.
  rewrite (H m i) by lia. reflexivity.
Qed.

End ExtFacts.

Section OneMoreQubit.

Lemma rotation_gates_S (T : nat -> nat -> R) (n : nat) :
  (1 <= n)%nat -> rotation_gates T (n + 1) = rotation_gates T n ++ level_gates T n.
Proof.
  intros Hn. unfold rotation_gates.
  replace (n + 1 - 1)%nat with (S (n - 1)) by lia.
  rewrite seq_S, flat_map_app. cbn [flat_map app].
  replace (1 + (n - 1))%nat with n by lia. now rewrite app_nil_r.
Qed.

Lemma level_gates_ext (T T' : nat -> nat -> R) (m : nat) :
  (forall i, (i < 2 ^ m)%nat -> T m i = T' m i) -> level_gates T m = level_gates T' m.
Proof.
  intros H. unfold level_gates. apply flat_map_ext_seq. intros i Hi.
  unfold pattern_gates. rewrite (H i) by lia. reflexivity.
Qed.

Variable quad : (R -> R) -> R -> R -> R.
Variable dist : R -> R.
Variables a b : R.

Lemma angle_of_masses_Tval (n m i : nat) :
  (m < n)%nat -> (i < 2 ^ m)%nat ->
  entry (map (row (Tval quad dist a b)) (seq 0 (n + 1))) m i =
  angle_of_masses (map (row (Pval quad dist a b)) (seq 0 (n + 1))) m i.
Proof.
  intros Hm Hi. unfold angle_of_masses.
  destruct (pow2_double_lt m i Hi) as [H0 _].
  rewrite entry_Tt, !entry_Pt by (assumption || lia).
  unfold Tval. now rewrite Fval_ratio.
Qed.

End OneMoreQubit.

(** ** The range of the angles and of the probabilities *)

Section AngleRange.

Local Open Scope R_scope.

Lemma acos_sqrt_range (r : R) : 0 < r < 1 -> 0 < acos (sqrt r) < PI / 2.
Proof.
  intros [H0 H1].
  assert (Hs0 : 0 < sqrt r) by now apply sqrt_lt_R0.
  assert (Hs1 : sqrt r < 1).
  { rewrite <- sqrt_1. apply sqrt_lt_1; lra. }
  destruct (acos_bound_lt (sqrt r)) as [Ha0 Ha1]; [lra|].
  split; [exact Ha0|].
  destruct (Rlt_le_dec (acos (sqrt r)) (PI / 2)) as [Hlt | Hge]; [exact Hlt|].
  exfalso.
  assert (Hc : cos (acos (sqrt r)) <= 0).
  { apply cos_le_0; [exact Hge|]. pose proof PI_RGT_0. lra. }
  rewrite cos_acos in Hc by lra. lra.
Qed.

End AngleRange.

Section Normalisation.

Local Open Scope R_scope.


Variable quad : (R -> R) -> R -> R -> R.
Variable dist : R -> R.
Variables a b : R.
Variable n : nat.
Hypothesis Hab : a < b.
Hypothesis Hlc : log_concave_on dist a b.
Hypothesis Hpos : positive_integrals quad dist a b.
Hypothesis Hadd : additive_on_halves quad dist a b n.

Local Abbreviation P := (Pval quad dist a b).


End Normalisation.

(** ** One pattern and the swaps on a state vector *)

Section PatternSemantics.

Local Open Scope R_scope.

Lemma getitem2_ok_entry (T : list (list R)) (m i : nat) (t : R) :
  getitem2 T m i = Ok t -> entry T m i = t.
Proof.
  unfold getitem2, entry. intros H.
  destruct (nth_error T m) as [r|] eqn:Er; [|discriminate].
  destruct (nth_error r i) as [v|] eqn:Ev; [|discriminate].
  injection H as <-.
  rewrite (nth_error_nth T m [] Er). now apply nth_error_nth.
Qed.

Lemma reverse_reverse (n : nat) (s : basis) : reverse n (reverse n s) = s.
Proof.
  apply functional_extensionality. intros k. unfold reverse.
  destruct (Nat.ltb_spec k n) as [Hk|Hk]; [|reflexivity].
  destruct (Nat.ltb_spec (n - 1 - k) n) as [Hk'|Hk']; [|lia].
  f_equal. lia.
Qed.

Lemma GRA_pattern_inv (n : nat) (T : list (list R)) (m i : nat)
  (qc qc' : QuantumCircuit) :
  (m < n)%nat -> num_qubits qc = n ->
  GRA_pattern n T (seq 0 m) m i qc = Ok qc' ->
  qc' = extend (pattern_gates (entry T) m i) qc.
Proof.
  intros Hm Hq. unfold GRA_pattern.
  rewrite GRA_x_layer_ok by lia. cbn [bind].
  destruct (getitem2 T m i) as [t|e] eqn:Et; cbn [bind]; [|discriminate].
  unfold qr. destruct (Nat.ltb_spec m n) as [_|]; [|lia]. cbn [bind].
  rewrite mcrx_ok by (cbn [extend num_qubits]; lia). cbn [bind].
  rewrite GRA_x_layer_ok by (cbn [extend num_qubits]; lia).
  intros H. injection H as <-. rewrite !extend_extend.
  unfold pattern_gates. now rewrite (getitem2_ok_entry T m i t Et).
Qed.

(** Qubit 0 first, the register spells the index of its mirror image. *)
Lemma pre_index_reverse (n : nat) (s : basis) : pre n s = index n (reverse n s).
Proof.
  rewrite <- (reverse_reverse n s) at 1.
  rewrite pre_reverse by lia. apply path_prefix_leaf.
Qed.

End PatternSemantics.

(** ** The size of the circuit *)

Section SizeFacts.

Local Open Scope nat_scope.

Lemma length_x_mask (m i : nat) : length (x_mask m i) = zero_bits m i.
Proof.
  unfold x_mask, zero_bits. induction (seq 0 m) as [|j l IH]; [reflexivity|].
  cbn [flat_map filter]. rewrite length_app, IH.
  now destruct (Nat.testbit i j).
Qed.

Lemma zero_bits_S (m i : nat) :
  zero_bits (S m) i = (zero_bits m i + Nat.b2n (negb (Nat.testbit i m)))%nat.
Proof.
  unfold zero_bits. rewrite seq_S, filter_app, length_app. cbn [Nat.add filter].
  now destruct (Nat.testbit i m).
Qed.

Lemma testbit_add_pow2_low (m i j : nat) :
  (j < m)%nat -> Nat.testbit (2 ^ m + i) j = Nat.testbit i j.
Proof.
  intros Hj. rewrite <- (Nat.mod_pow2_bits_low (2 ^ m + i) m j Hj).
  rewrite <- (Nat.mod_pow2_bits_low i m j Hj). f_equal.
  rewrite Nat.add_comm. rewrite <- (Nat.mul_1_l (2 ^ m)) at 1.
  apply Nat.Div0.mod_add.
Qed.

Lemma testbit_add_pow2_high (m i : nat) :
  (i < 2 ^ m)%nat -> Nat.testbit (2 ^ m + i) m = true.
Proof.
  intros Hi. apply (Nat.testbit_unique (2 ^ m + i) m true i 0); [exact Hi|].
  cbn [Nat.b2n]. lia.
Qed.

Lemma zero_bits_high (m i : nat) : zero_bits m (2 ^ m + i) = zero_bits m i.
Proof.
  unfold zero_bits. f_equal. apply filter_ext_in. intros j Hj.
  apply in_seq in Hj. rewrite testbit_add_pow2_low by lia. reflexivity.
Qed.

Lemma list_sum_two (f g : nat -> nat) (k : nat) : forall a b,
  (list_sum (map f (seq a k)) + list_sum (map g (seq b k)) =
   list_sum (map (fun i => f (a + i) + g (b + i)) (seq 0 k)))%nat.
Proof.
  induction k as [|k IH]; intros a b; [reflexivity|].
  pose proof (IH (S a) (S b)) as H.
  rewrite (map_ext (fun i => f (S a + i) + g (S b + i))
                   (fun i => f (a + S i) + g (b + S i)))%nat in H
    by (intros i; now rewrite <- !plus_n_Sm).
  rewrite <- (map_map S (fun i => f (a + i) + g (b + i))%nat), seq_shift in H.
  cbn [seq map]. rewrite !Nat.add_0_r.
  change (list_sum (?x :: ?l)) with (x + list_sum l)%nat. lia.
Qed.

Lemma list_sum_const (g : nat -> nat) (c : nat) (l : list nat) :
  list_sum (map (fun i => g i + c) l) = (list_sum (map g l) + c * length l)%nat.
Proof.
  induction l as [|x l IH]; cbn [map list_sum fold_right length]; [lia|].
  fold (list_sum (map (fun i => g i + c) l))%nat. fold (list_sum (map g l)).
  rewrite IH. lia.
Qed.

Lemma list_sum_double (g : nat -> nat) (l : list nat) :
  list_sum (map (fun i => 2 * g i) l) = (2 * list_sum (map g l))%nat.
Proof.
  induction l as [|x l IH]; cbn [map list_sum fold_right]; [lia|].
  fold (list_sum (map (fun i => 2 * g i) l))%nat. fold (list_sum (map g l)).
  rewrite IH. lia.
Qed.

(** Over the [2^m] indices of a level, half of the [m * 2^m] bits are 0. *)
Lemma zero_bits_level (m : nat) :
  (2 * list_sum (map (zero_bits m) (seq 0 (2 ^ m))) = m * 2 ^ m)%nat.
Proof.
  induction m as [|m IH]; [reflexivity|].
  replace (2 ^ S m)%nat with (2 ^ m + 2 ^ m)%nat by (cbn [Nat.pow]; lia).
  rewrite seq_app, map_app, list_sum_app. cbn [Nat.add].
  rewrite (list_sum_two (zero_bits (S m)) (zero_bits (S m)) (2 ^ m) 0 (2 ^ m)).
  replace (map (fun i => zero_bits (S m) (0 + i) + zero_bits (S m) (2 ^ m + i))
               (seq 0 (2 ^ m)))%nat
    with (map (fun i => 2 * zero_bits m i + 1) (seq 0 (2 ^ m)))%nat.
  - rewrite list_sum_const, list_sum_double, length_seq. lia.
  - apply map_ext_in. intros i Hi. apply in_seq in Hi. cbn [Nat.add].
    rewrite !zero_bits_S, zero_bits_high.
    rewrite testbit_add_pow2_high by lia.
    rewrite (testbit_above i m m) by lia. cbn [negb Nat.b2n]. lia.
Qed.

Variable T : nat -> nat -> R.

Lemma filter_x_mask (m i : nat) : filter is_x (x_mask m i) = x_mask m i.
Proof.
  apply filter_all. intros g Hg. now destruct (in_x_mask m i g Hg) as [q ->].
Qed.

Lemma x_gates_pattern (m i : nat) :
  length (filter is_x (pattern_gates T m i)) = (2 * zero_bits m i)%nat.
Proof.
  unfold pattern_gates. rewrite !filter_app, !length_app, filter_x_mask, length_x_mask.
  cbn [filter is_x length]. lia.
Qed.

Lemma length_pattern (m i : nat) :
  length (pattern_gates T m i) = (2 * zero_bits m i + 1)%nat.
Proof.
  unfold pattern_gates. rewrite !length_app, length_x_mask. cbn [length]. lia.
Qed.

Lemma x_gates_level (m : nat) :
  length (filter is_x (level_gates T m)) = (m * 2 ^ m)%nat.
Proof.
  unfold level_gates. rewrite filter_flat_map, length_flat_map.
  rewrite (map_ext _ (fun i => 2 * zero_bits m i)%nat) by apply x_gates_pattern.
  rewrite list_sum_double. apply zero_bits_level.
Qed.

Lemma length_level (m : nat) :
  length (level_gates T m) = (m * 2 ^ m + 2 ^ m)%nat.
Proof.
  unfold level_gates. rewrite length_flat_map.
  rewrite (map_ext _ (fun i => 2 * zero_bits m i + 1)%nat) by apply length_pattern.
  rewrite list_sum_const, list_sum_double, length_seq, zero_bits_level. lia.
Qed.

Lemma barriers_level (m : nat) : filter is_barrier (level_gates T m) = [].
Proof.
  apply filter_none. intros g Hg. unfold level_gates in Hg.
  apply in_flat_map in Hg. destruct Hg as (i & _ & Hg).
  destruct (in_pattern_gates T m i g Hg) as [[q ->] | ->]; reflexivity.
Qed.

(** The sum of [m * 2^m] and of [2^m] over [m = 1..k]. *)
Lemma sum_levels (k : nat) :
  (list_sum (map (fun m => m * 2 ^ m) (seq 1 k)) + 2 * 2 ^ (k + 1) =
   (k + 1) * 2 ^ (k + 1) + 2)%nat /\
  (list_sum (map (fun m => 2 ^ m) (seq 1 k)) + 2 = 2 ^ (k + 1))%nat.
Proof.
  induction k as [|k [IH1 IH2]]; [split; reflexivity|].
  rewrite seq_S, !map_app, !list_sum_app. cbn [map list_sum fold_right].
  replace (1 + k)%nat with (k + 1)%nat by lia.
  replace (S k + 1)%nat with (S (k + 1)) by lia. cbn [Nat.pow].
  split; nia.
Qed.

End SizeFacts.

Section InstructionCounts.

Local Open Scope nat_scope.

Variable n : nat.
Variable T : list (list R).

Lemma x_gates_rotation_instructions :
  (1 <= n)%nat ->
  (length (filter is_x (rotation_instructions n T)) + 2 * 2 ^ n = n * 2 ^ n + 2)%nat.
Proof.
  intros Hn. unfold rotation_instructions. cbn [filter is_x].
  rewrite filter_flat_map, length_flat_map.
  rewrite (map_ext _ (fun m => m * 2 ^ m)%nat)
    by (intros m; cbn [filter is_barrier is_x]; apply x_gates_level).
  pose proof (proj1 (sum_levels (n - 1))) as H.
  replace (n - 1 + 1)%nat with n in H by lia. exact H.
Qed.

Lemma barriers_rotation_instructions :
  length (filter is_barrier (rotation_instructions n T)) = n - 1.
Proof.
  unfold rotation_instructions. cbn [filter is_barrier].
  rewrite filter_flat_map, length_flat_map.
  rewrite (map_ext _ (fun m => (fun _ => 0) m + 1))
    by (intros m; cbn [filter is_barrier]; now rewrite barriers_level).
  rewrite list_sum_const, length_seq.
  assert (Z : forall l : list nat, list_sum (map (fun _ => 0) l) = 0).
  { induction l as [|m l IH]; [reflexivity | exact IH]. }
  rewrite Z. lia.
Qed.

Lemma length_rotation_instructions :
  1 <= n -> length (rotation_instructions n T) + 2 ^ n = n * 2 ^ n + n.
Proof.
  intros Hn. unfold rotation_instructions. cbn [length].
  rewrite length_flat_map.
  rewrite (map_ext _ (fun m => (m * 2 ^ m + 2 ^ m) + 1))
    by (intros m; cbn [length]; rewrite length_level; lia).
  rewrite list_sum_const, length_seq.
  pose proof (list_sum_two (fun m => m * 2 ^ m) (fun m => 2 ^ m) (n - 1) 1 1) as H.
  rewrite <- (map_map (Nat.add 1) (fun m => m * 2 ^ m + 2 ^ m)) in H.
  replace (map (Nat.add 1) (seq 0 (n - 1))) with (seq 1 (n - 1)) in H
    by (symmetry; apply seq_shift).
  rewrite <- H.
  destruct (sum_levels (n - 1)) as [H1 H2].
  replace (n - 1 + 1) with n in H1, H2 by lia. lia.
Qed.

End InstructionCounts.

Lemma swap_gates_counts (n : nat) :
  filter is_x (swap_gates n) = [] /\ filter is_barrier (swap_gates n) = [] /\
  length (swap_gates n) = (n / 2)%nat.
Proof.
  unfold swap_gates. split; [|split].
  - apply filter_none. intros g Hg. apply in_map_iff in Hg.
    now destruct Hg as (i & <- & _).
  - apply filter_none. intros g Hg. apply in_map_iff in Hg.
    now destruct Hg as (i & <- & _).
  - now rewrite length_map, length_seq.
Qed.

(** ** Underflow, and [norm] *)

Section UnderflowFacts.

Local Open Scope R_scope.

Lemma exp_nat (m : nat) : exp (INR m) = exp 1 ^ m.
Proof.
  induction m as [|m IH].
  - simpl. apply exp_0.
  - rewrite S_INR, exp_plus, IH. simpl. ring.
Qed.

Lemma exp_scaled (y : R) (m : nat) : exp (INR m * y) = exp y ^ m.
Proof.
  induction m as [|m IH].
  - simpl. rewrite Rmult_0_l. apply exp_0.
  - rewrite S_INR. replace ((INR m + 1) * y) with (INR m * y + y) by ring.
    rewrite exp_plus, IH. simpl. ring.
Qed.

Lemma exp_1_upper : exp 1 <= 277 / 100.
Proof.
  replace 1 with (INR 32 * (1 / 32)) by (simpl; field).
  rewrite exp_scaled.
  assert (H : exp (1 / 32) <= 32 / 31).
  { pose proof (exp_ineq1_le (- (1 / 32))) as H.
    rewrite exp_Ropp in H. pose proof (exp_pos (1 / 32)) as P.
    apply (Rmult_le_reg_r (31 / 32)); [lra|].
    replace (32 / 31 * (31 / 32)) with 1 by field.
    apply (Rmult_le_compat_l (exp (1/32))) in H; [|lra].
    rewrite Rinv_r in H by lra. lra. }
  apply Rle_trans with ((32 / 31) ^ 32).
  - apply pow_incr. split; [apply Rlt_le, exp_pos | exact H].
  - lra.
Qed.

Lemma exp_1_lower : 64 / 25 <= exp 1.
Proof.
  replace 1 with (INR 8 * (1 / 8)) at 1 by (simpl; field).
  rewrite exp_scaled.
  apply Rle_trans with ((9 / 8) ^ 8); [lra|].
  apply pow_incr. split; [lra|]. pose proof (exp_ineq1_le (1 / 8)). lra.
Qed.


Lemma tiny_pos : 0 < / 2 ^ 1075.
Proof. apply Rinv_0_lt_compat, pow_lt. lra. Qed.

Lemma underflow_small (y : R) : Rabs y <= / 2 ^ 1075 -> B64.underflow y = 0.
Proof. intros H. unfold B64.underflow. now destruct (Rle_dec _ _). Qed.

Lemma underflow_large (y : R) : / 2 ^ 1075 < Rabs y -> B64.underflow y = y.
Proof. intros H. unfold B64.underflow. destruct (Rle_dec _ _); [lra | reflexivity]. Qed.

Lemma underflow_0 : B64.underflow 0 = 0.
Proof. apply underflow_small. rewrite Rabs_R0. apply Rlt_le, tiny_pos. Qed.

Lemma underflow_bounds (y : R) : 0 <= y -> 0 <= B64.underflow y <= y.
Proof. intros H. unfold B64.underflow. destruct (Rle_dec _ _); lra. Qed.

(** [np.exp] underflows below -800, and not above -722. *)
Lemma np_exp_far (x : R) : x <= - 800 -> np_exp x = 0.
Proof.
  intros H. apply underflow_small.
  rewrite Rabs_pos_eq by apply Rlt_le, exp_pos.
  apply Rle_trans with (exp (- 800)).
  - destruct H as [H | ->]; [apply Rlt_le, exp_increasing, H | apply Rle_refl].
  - replace (- 800) with (- (1 * 800)) by lra.
    rewrite exp_Ropp, Rmult_1_l. apply Rinv_le_contravar; [apply pow_lt; lra|].
    replace 800 with (INR 800) by (rewrite INR_IZR_INZ; reflexivity).
    rewrite exp_nat.
    apply Rle_trans with ((64 / 25) ^ 800); [lra|].
    apply pow_incr. split; [lra | apply exp_1_lower].
Qed.

Lemma np_exp_near (x : R) : - 722 <= x -> np_exp x = exp x /\ 4 / 2 ^ 1075 < exp x.
Proof.
  intros H.
  assert (L : 4 / 2 ^ 1075 < exp x).
  { apply Rlt_le_trans with (exp (- 722)).
    - replace (- 722) with (- (1 * 722)) by lra.
      rewrite exp_Ropp, Rmult_1_l.
      replace (4 / 2 ^ 1075) with (/ 2 ^ 1073) by (simpl; field; apply pow_nonzero; lra).
      apply Rinv_lt_contravar.
      + apply Rmult_lt_0_compat; [apply exp_pos | apply pow_lt; lra].
      + replace 722 with (INR 722) by (rewrite INR_IZR_INZ; reflexivity).
        rewrite exp_nat.
        apply Rle_lt_trans with ((277 / 100) ^ 722); [|lra].
        apply pow_incr. split; [apply Rlt_le, exp_pos | apply exp_1_upper].
    - destruct H as [H | <-]; [apply Rlt_le, exp_increasing, H | apply Rle_refl]. }
  split; [|exact L].
  apply underflow_large. rewrite Rabs_pos_eq by apply Rlt_le, exp_pos.
  pose proof tiny_pos. lra.
Qed.

End UnderflowFacts.

Section NormFacts.

Local Open Scope R_scope.

Lemma norm_scale_pos : 0 < 1 / sqrt (2 * PI).
Proof.
  apply Rdiv_lt_0_compat; [lra|]. apply sqrt_lt_R0. pose proof PI_RGT_0. lra.
Qed.

(** The density [norm] computes is log-concave on every interval. *)
Lemma standard_normal_log_concave_on (a b : R) : log_concave_on standard_normal a b.
Proof.
  assert (P : forall x, 0 < standard_normal x).
  { intros x. apply Rmult_lt_0_compat; [apply norm_scale_pos | apply exp_pos]. }
  split; [intros x _; apply P|].
  intros x y t _ _ Ht. unfold standard_normal.
  rewrite !ln_mult by (apply norm_scale_pos || apply exp_pos).
  rewrite !ln_exp.
  set (c := ln (1 / sqrt (2 * PI))).
  assert (H : 0 <= t * (1 - t) * (x - y) ^ 2).
  { apply Rmult_le_pos; [apply Rmult_le_pos; lra | apply pow2_ge_0]. }
  assert (E : c + - (t * x + (1 - t) * y) ^ 2 / 2 -
              (t * (c + - x ^ 2 / 2) + (1 - t) * (c + - y ^ 2 / 2)) =
              t * (1 - t) * (x - y) ^ 2 / 2) by field.
  lra.
Qed.

Lemma norm_scale_bounds : 1 / 4 <= 1 / sqrt (2 * PI) <= 1.
Proof.
  pose proof PI_RGT_0 as P0. pose proof PI_4 as P4.
  assert (L : 1 <= sqrt (2 * PI)).
  { rewrite <- sqrt_1 at 1. apply sqrt_le_1; try lra.
    pose proof PI2_1. unfold PI in *. lra. }
  assert (U : sqrt (2 * PI) <= 4).
  { replace 4 with (sqrt (4 * 4)) by (rewrite sqrt_square; lra).
    apply sqrt_le_1; lra. }
  split.
  - unfold Rdiv. rewrite !Rmult_1_l. apply Rinv_le_contravar; lra.
  - unfold Rdiv. rewrite Rmult_1_l.
    apply Rle_trans with (/ 1); [apply Rinv_le_contravar; lra | rewrite Rinv_1; lra].
Qed.

Lemma norm_near (x : R) :
  - 38 <= x <= 38 -> norm x = standard_normal x /\ 0 < norm x.
Proof.
  intros H. unfold standard_normal.
  assert (Hx : - 722 <= - x ^ 2 / 2) by nra.
  destruct (np_exp_near _ Hx) as [E L].
  destruct norm_scale_bounds as [C _].
  pose proof tiny_pos as T.
  assert (B : / 2 ^ 1075 < 1 / sqrt (2 * PI) * exp (- x ^ 2 / 2)).
  { unfold Rdiv in L. nra. }
  unfold norm. rewrite E, underflow_large.
  - split; [reflexivity | lra].
  - rewrite Rabs_pos_eq; lra.
Qed.

Lemma norm_far (x : R) : 40 <= Rabs x -> norm x = 0.
Proof.
  intros H. unfold norm. rewrite np_exp_far, Rmult_0_r; [apply underflow_0|].
  assert (1600 <= x ^ 2); [|lra].
  unfold Rabs in H. destruct (Rcase_abs x); nra.
Qed.

Lemma norm_even (x : R) : norm (- x) = norm x.
Proof. unfold norm. do 3 f_equal. field. Qed.

Lemma norm_range (x : R) : 0 <= norm x <= norm 0.
Proof.
  destruct norm_scale_bounds as [C _].
  assert (N : forall y, 0 <= 1 / sqrt (2 * PI) * np_exp y <= 1 / sqrt (2 * PI) * exp y).
  { intros y. pose proof (underflow_bounds (exp y) (Rlt_le _ _ (exp_pos y))) as U.
    unfold np_exp. nra. }
  destruct (norm_near 0) as [E0 _]; [lra|]. unfold standard_normal in E0.
  replace (- 0 ^ 2 / 2) with 0 in E0 by field. rewrite exp_0 in E0.
  pose proof (N (- x ^ 2 / 2)) as [N0 N1].
  pose proof (underflow_bounds _ N0) as U. fold (norm x) in U.
  split; [lra|]. rewrite E0.
  assert (exp (- x ^ 2 / 2) <= 1).
  { rewrite <- exp_0. destruct (Req_dec x 0) as [-> | Hx].
    - replace (- 0 ^ 2 / 2) with 0 by field. apply Rle_refl.
    - apply Rlt_le, exp_increasing. nra. }
  nra.
Qed.

Lemma norm_log_concave_on (a b : R) :
  - 38 <= a -> b <= 38 -> log_concave_on norm a b.
Proof.
  intros Ha Hb.
  assert (N : forall x, a <= x <= b -> norm x = standard_normal x /\ 0 < norm x).
  { intros x Hx. apply norm_near. lra. }
  split; [intros x Hx; now apply N|].
  intros x y t Hx Hy Ht.
  assert (Hz : a <= t * x + (1 - t) * y <= b) by nra.
  destruct (N x Hx) as [-> _], (N y Hy) as [-> _], (N _ Hz) as [-> _].
  now apply (standard_normal_log_concave_on a b).
Qed.



End NormFacts.

(** ** More on [binary_approx] *)

Section BinaryApproxMore.

Local Open Scope Q_scope.

Lemma bits_value_snoc (a : list Z) (v : Z) :
  bits_value (a ++ [v]) = (2 * bits_value a + v)%Z.
Proof. unfold bits_value. now rewrite fold_left_app. Qed.

Lemma indices_app (j0 K1 K2 : nat) :
  indices j0 (K1 + K2) = indices j0 K1 ++ indices (j0 + K1) K2.
Proof. unfold indices. now rewrite seq_app, map_app. Qed.

Lemma pow2_nat_nonzero (j : nat) : ~ KW.pow2 (Z.of_nat j) == 0.
Proof. pose proof (pow2_nat_pos_Q j). Lqa.lra. Qed.

(** [v / 2^(j+1)] for the two values of a bit, in halves of [1/2^j]. *)
Lemma scaled_step (M v : Z) (j : nat) :
  inject_Z M / KW.pow2 (Z.of_nat j) + inject_Z v / KW.pow2 (1 + Z.of_nat j) ==
  inject_Z (2 * M + v) / KW.pow2 (1 + Z.of_nat j).
Proof.
  rewrite inject_Z_plus, inject_Z_mult.
  pose proof (pow2_nat_nonzero j) as Hp.
  rewrite pow2_next. change (inject_Z 2) with 2. field. exact Hp.
Qed.

Variable n : Q.

(** The total is the integer of the bits over [2^j]. *)
Lemma scaled_invariant_step (j : nat) (s : list Z * Q) :
  snd s == inject_Z (bits_value (fst s)) / KW.pow2 (Z.of_nat j) ->
  snd (KW.binary_approx_body n s (1 + Z.of_nat j)) ==
  inject_Z (bits_value (fst (KW.binary_approx_body n s (1 + Z.of_nat j)))) /
  KW.pow2 (Z.of_nat (S j)).
Proof.
  destruct s as [a total]. cbn [fst snd]. intros H.
  replace (Z.of_nat (S j)) with (1 + Z.of_nat j)%Z by lia.
  destruct (body_cases n a total (1 + Z.of_nat j)) as [[_ ->]|[_ ->]]; cbn [fst snd];
    rewrite bits_value_snoc, H; apply scaled_step.
Qed.

(** Any run of iterations appends bits and does not lower the total. *)
Lemma loop_extends (l : list Z) : forall s : list Z * Q,
  (forall i, In i l -> (0 <= i)%Z) ->
  exists rest,
    fst (fold_left (KW.binary_approx_body n) l s) = fst s ++ rest /\
    length rest = length l /\
    Forall is_bit rest /\
    snd s <= snd (fold_left (KW.binary_approx_body n) l s).
Proof.
  induction l as [|i l IH]; intros [a total] Hl; cbn [fold_left fst snd].
  - exists []. rewrite app_nil_r. repeat split; [constructor | apply Qle_refl].
  - assert (Hi : 0 < / KW.pow2 i).
    { apply Qinv_lt_0_compat. unfold KW.pow2. rewrite <- (Zlt_Qlt 0).
      apply Z.pow_pos_nonneg; [lia | apply Hl; now left]. }
    assert (Hl' : forall i', In i' l -> (0 <= i')%Z) by (intros; apply Hl; now right).
    destruct (body_cases n a total i) as [[_ ->]|[_ ->]].
    + destruct (IH (a ++ [1%Z], total + inject_Z 1 / KW.pow2 i) Hl')
        as (rest & E & Hlen & Hb & Hle).
      cbn [fst snd] in *. exists (1%Z :: rest). rewrite E, <- app_assoc.
      repeat split; [cbn [length]; lia | constructor; [now right | exact Hb] |].
      pose proof (bit_one i) as B. Lqa.lra.
    + destruct (IH (a ++ [0%Z], total + inject_Z 0 / KW.pow2 i) Hl')
        as (rest & E & Hlen & Hb & Hle).
      cbn [fst snd] in *. exists (0%Z :: rest). rewrite E, <- app_assoc.
      repeat split; [cbn [length]; lia | constructor; [now left | exact Hb] |].
      pose proof (bit_zero i) as B. Lqa.lra.
Qed.

Lemma indices_nonneg (j0 K : nat) (i : Z) : In i (indices j0 K) -> (0 <= i)%Z.
Proof. unfold indices. intros H. apply in_map_iff in H. destruct H as (j & <- & _). lia. Qed.

End BinaryApproxMore.

Section BinaryApproxOrder.

Local Open Scope Q_scope.

Lemma scaled_lt (M M' : Z) (p : Q) :
  0 < p -> inject_Z M / p < inject_Z M' / p -> (M < M')%Z.
Proof.
  intros Hp H. rewrite Zlt_Qlt. unfold Qdiv in H.
  apply Qinv_lt_0_compat in Hp. now apply (Qmult_lt_r _ _ (/ p) Hp).
Qed.

Lemma scaled_le (M M' : Z) (p : Q) :
  0 < p -> (M <= M')%Z -> inject_Z M / p <= inject_Z M' / p.
Proof.
  intros Hp H. rewrite Zle_Qle in H. unfold Qdiv.
  apply Qinv_lt_0_compat in Hp. apply Qmult_le_compat_r; [exact H | Lqa.lra].
Qed.

(** Two runs of the loop, on [n] and on [n']. *)
Lemma loop_invariant2 (n n' : Q) (I : nat -> list Z * Q -> list Z * Q -> Prop) :
  (forall j s s', I j s s' ->
     I (S j) (KW.binary_approx_body n s (1 + Z.of_nat j))
             (KW.binary_approx_body n' s' (1 + Z.of_nat j))) ->
  forall K j0 s s', I j0 s s' ->
    I (j0 + K)%nat (fold_left (KW.binary_approx_body n) (indices j0 K) s)
                   (fold_left (KW.binary_approx_body n') (indices j0 K) s').
Proof.
  intros Hstep. induction K as [|K IH]; intros j0 s s' H; cbn [indices seq map fold_left].
  - now rewrite Nat.add_0_r.
  - replace (j0 + S K)%nat with (S j0 + K)%nat by lia.
    apply (IH (S j0)). now apply Hstep.
Qed.

Lemma ordered_step (n n' : Q) (j : nat) (s s' : list Z * Q) :
  n <= n' -> ordered j s s' ->
  ordered (S j) (KW.binary_approx_body n s (1 + Z.of_nat j))
                (KW.binary_approx_body n' s' (1 + Z.of_nat j)).
Proof.
  intros Hn (H & H' & Hle). unfold ordered.
  split; [now apply scaled_invariant_step|].
  split; [now apply scaled_invariant_step|].
  destruct s as [a total], s' as [a' total']. cbn [fst snd] in *.
  destruct (body_cases n a total (1 + Z.of_nat j)) as [[Hc ->]|[Hc ->]];
    destruct (body_cases n' a' total' (1 + Z.of_nat j)) as [[Hc' ->]|[Hc' ->]];
    cbn [fst]; rewrite !bits_value_snoc; try lia.
  assert (Hlt : total < total') by Lqa.lra.
  rewrite H, H' in Hlt. apply scaled_lt in Hlt; [lia | apply pow2_nat_pos_Q].
Qed.

Lemma bits_nonneg_step (n : Q) (s : list Z * Q) (i : Z) :
  (0 <= bits_value (fst s))%Z ->
  (0 <= bits_value (fst (KW.binary_approx_body n s i)))%Z.
Proof.
  destruct s as [a total]. cbn [fst]. intros H.
  destruct (body_cases n a total i) as [[_ ->]|[_ ->]]; cbn [fst];
    rewrite bits_value_snoc; lia.
Qed.

End BinaryApproxOrder.

(** ** Rounding to binary64, and [binary_approx] on floats *)

Section RoundFacts.

Local Open Scope Q_scope.

Lemma two_nonzero : ~ 2 == 0.
Proof. discriminate. Qed.

Lemma pow2_Qpower (i : Z) : (0 <= i)%Z -> KW.pow2 i == 2 ^ i.
Proof. intros H. unfold KW.pow2. now rewrite Zpower_Qpower. Qed.

Lemma Qpower_pow2 (i : Z) : (0 <= i)%Z -> 2 ^ i == inject_Z (2 ^ i).
Proof. intros H. now rewrite Zpower_Qpower. Qed.

Lemma nearest_even_exact (w d : Z) : (0 < d)%Z -> B64.nearest_even (w * d) d = w.
Proof.
  intros Hd. unfold B64.nearest_even.
  rewrite Z.div_mul by lia. rewrite Z.mod_mul by lia.
  rewrite Z.mul_0_r. destruct d; try lia. reflexivity.
Qed.

Lemma nearest_even_integer (y : Q) (w : Z) :
  y == inject_Z w -> B64.nearest_even (Qnum y) (Zpos (Qden y)) = w.
Proof.
  intros H. unfold Qeq in H. cbn [Qnum Qden inject_Z] in H.
  rewrite Z.mul_1_r in H. rewrite H. apply nearest_even_exact. lia.
Qed.

Lemma ilog2_le (x : Q) : 0 < x -> 2 ^ B64.ilog2 x <= x.
Proof.
  intros Hx. unfold B64.ilog2.
  destruct (Qle_bool _ x) eqn:E; [now apply Qle_bool_iff|].
  destruct x as [p d]. cbn [Qnum Qden].
  assert (Hp : (0 < p)%Z).
  { unfold Qlt in Hx. cbn in Hx. lia. }
  destruct (Z.log2_spec p Hp) as [Hlo _].
  destruct (Z.log2_spec (Zpos d) ltac:(lia)) as [_ Hhi].
  pose proof (Z.log2_nonneg p) as Np.
  pose proof (Z.log2_nonneg (Zpos d)) as Nd.
  replace (Z.log2 p - Z.log2 (Z.pos d) - 1)%Z
    with (Z.log2 p - Z.succ (Z.log2 (Z.pos d)))%Z by lia.
  rewrite Qpower_minus by exact two_nonzero.
  rewrite !Qpower_pow2 by lia.
  rewrite (Qmake_Qdiv p d).
  apply Qle_shift_div_l; [rewrite <- (Zlt_Qlt 0); lia|].
  unfold Qdiv. rewrite <- Qmult_assoc, (Qmult_comm (/ _)), Qmult_assoc.
  apply Qle_shift_div_r; [rewrite <- (Zlt_Qlt 0); lia|].
  rewrite <- !inject_Z_mult, <- Zle_Qle. nia.
Qed.

Lemma Qabs_dyadic (K i : Z) : Qabs (inject_Z K / 2 ^ i) == inject_Z (Z.abs K) / 2 ^ i.
Proof.
  unfold Qdiv. rewrite Qabs_Qmult, Qabs_Qinv.
  rewrite (Qabs_pos (2 ^ i)) by (apply Qpower_0_le; discriminate).
  apply Qmult_comp; [|reflexivity].
  unfold Qabs, inject_Z. reflexivity.
Qed.

Lemma ulp_exponent_dyadic (x : Q) (K i : Z) :
  (0 <= i <= 1074)%Z -> (Z.abs K < 2 ^ 53)%Z -> ~ x == 0 ->
  x == inject_Z K / 2 ^ i ->
  (B64.ulp_exponent x <= - i)%Z.
Proof.
  intros Hi HK Hx E. unfold B64.ulp_exponent.
  apply Z.max_lub; [|lia].
  assert (Hpos : 0 < Qabs x).
  { destruct (Qle_lt_or_eq _ _ (Qabs_nonneg x)) as [H|H]; [exact H|].
    exfalso. apply Hx. revert H. apply (Qabs_case x); intros; Lqa.lra. }
  pose proof (ilog2_le _ Hpos) as Hle.
  assert (Hlt : Qabs x < 2 ^ (53 - i)).
  { rewrite E, Qabs_dyadic, Qpower_minus by exact two_nonzero.
    assert (P : 0 < 2 ^ i) by (apply Qpower_0_lt; reflexivity).
    unfold Qdiv. apply Qmult_lt_compat_r; [now apply Qinv_lt_0_compat|].
    rewrite Qpower_pow2 by lia. now rewrite <- Zlt_Qlt. }
  assert (H : 2 ^ B64.ilog2 (Qabs x) < 2 ^ (53 - i)) by Lqa.lra.
  apply Qpower_lt_compat_l_inv in H; [lia | reflexivity].
Qed.

Lemma round_exact (x : Q) (K i : Z) :
  (0 <= i <= 1074)%Z -> (Z.abs K < 2 ^ 53)%Z ->
  x == inject_Z K / 2 ^ i ->
  B64.round x == x.
Proof.
  intros Hi HK E. unfold B64.round.
  destruct (Qeq_bool x 0) eqn:E0.
  - apply Qeq_bool_iff in E0. now rewrite E0.
  - apply Qeq_bool_neq in E0.
    pose proof (ulp_exponent_dyadic x K i Hi HK E0 E) as Hq.
    set (q := B64.ulp_exponent x) in *.
    assert (Ey : x / 2 ^ q == inject_Z (K * 2 ^ (- i - q))).
    { rewrite E, inject_Z_mult, Zpower_Qpower by lia.
      change (inject_Z 2) with 2.
      replace (- i - q)%Z with (- i + - q)%Z by lia.
      rewrite Qpower_plus by exact two_nonzero. rewrite !Qpower_opp.
      field. split; apply Qpower_not_0; exact two_nonzero. }
    rewrite (nearest_even_integer _ _ Ey), Qred_correct.
    rewrite E, inject_Z_mult, Zpower_Qpower by lia.
    change (inject_Z 2) with 2.
    replace (- i - q)%Z with (- i + - q)%Z by lia.
    rewrite Qpower_plus by exact two_nonzero. rewrite !Qpower_opp.
    field. split; apply Qpower_not_0; exact two_nonzero.
Qed.

End RoundFacts.

Section Agreement.

Local Open Scope Q_scope.

Lemma Qgt_bool_comp (n y y' : Q) : y == y' -> KW.Qgt_bool n y = KW.Qgt_bool n y'.
Proof.
  intros E. unfold KW.Qgt_bool. f_equal.
  destruct (Qle_bool n y) eqn:H, (Qle_bool n y') eqn:H'; try reflexivity.
  - apply Qle_bool_iff in H. rewrite E in H. apply Qle_bool_iff in H. congruence.
  - apply Qle_bool_iff in H'. rewrite <- E in H'. apply Qle_bool_iff in H'. congruence.
Qed.

(** A multiple [K / 2^i] of [1/2^i] below 1, with [i <= 53], is a number of
    binary64. *)
Lemma round_fraction (x : Q) (K i : Z) :
  (0 <= i <= 53)%Z -> (0 <= K < 2 ^ i)%Z ->
  x == inject_Z K / KW.pow2 i ->
  B64.round x == x.
Proof.
  intros Hi HK E. apply (round_exact x K i); [lia | |].
  - assert (2 ^ i <= 2 ^ 53)%Z by (apply Z.pow_le_mono_r; lia). lia.
  - now rewrite <- pow2_Qpower by lia.
Qed.

Lemma pow2_succ (j : nat) : (2 ^ (1 + Z.of_nat j) = 2 * 2 ^ Z.of_nat j)%Z.
Proof.
  replace (1 + Z.of_nat j)%Z with (Z.succ (Z.of_nat j)) by lia.
  apply Z.pow_succ_r. lia.
Qed.

Variable n : Q.

Lemma agree_step (j : nat) (s s' : list Z * Q) :
  (j < 53)%nat -> agree j s s' ->
  agree (S j) (KW.binary_approx_b64_body n s (1 + Z.of_nat j))
              (KW.binary_approx_body n s' (1 + Z.of_nat j)).
Proof.
  intros Hj. destruct s as [a t], s' as [a' t']. unfold agree. cbn [fst snd].
  intros (<- & Et & Ev & HM).
  set (i := (1 + Z.of_nat j)%Z) in *. set (M := bits_value a) in *.
  pose proof (pow2_succ j) as Hp. fold i in Hp.
  assert (Hi : (0 <= i <= 53)%Z) by lia.
  assert (X : forall v : Z, (0 <= v <= 1)%Z ->
              B64.round (t + B64.round (inject_Z v / KW.pow2 i)) ==
              t' + inject_Z v / KW.pow2 i /\
              t' + inject_Z v / KW.pow2 i == inject_Z (2 * M + v) / KW.pow2 i).
  { intros v Hv.
    assert (Ew : B64.round (inject_Z v / KW.pow2 i) == inject_Z v / KW.pow2 i).
    { apply (round_fraction _ v i); [lia | lia | reflexivity]. }
    assert (Es : t' + inject_Z v / KW.pow2 i == inject_Z (2 * M + v) / KW.pow2 i).
    { rewrite Ev. apply scaled_step. }
    split; [|exact Es].
    rewrite (round_fraction _ (2 * M + v) i); [now rewrite Ew, Et | lia | lia |].
    now rewrite Ew, Et. }
  unfold KW.binary_approx_b64_body, KW.binary_approx_body.
  destruct (X 1%Z ltac:(lia)) as [E1 _].
  change (inject_Z 1) with 1 in E1.
  rewrite (Qgt_bool_comp n _ _ E1).
  destruct (KW.Qgt_bool n (t' + 1 / KW.pow2 i)); cbn [fst snd].
  - destruct (X 1%Z ltac:(lia)) as [E E']. rewrite bits_value_snoc.
    replace (Z.of_nat (S j)) with i by lia.
    repeat split; [exact E | exact E' | fold M; lia | fold M; lia].
  - destruct (X 0%Z ltac:(lia)) as [E E']. rewrite bits_value_snoc.
    replace (Z.of_nat (S j)) with i by lia.
    repeat split; [exact E | exact E' | fold M; lia | fold M; lia].
Qed.

Lemma agree_loop (K : nat) : forall (j0 : nat) (s s' : list Z * Q),
  (j0 + K <= 53)%nat -> agree j0 s s' ->
  agree (j0 + K) (fold_left (KW.binary_approx_b64_body n) (indices j0 K) s)
                 (fold_left (KW.binary_approx_body n) (indices j0 K) s').
Proof.
  induction K as [|K IH]; intros j0 s s' HK H; cbn [indices seq map fold_left].
  - now rewrite Nat.add_0_r.
  - replace (j0 + S K)%nat with (S j0 + K)%nat by lia.
    apply (IH (S j0)); [lia|]. apply agree_step; [lia | exact H].
Qed.

(** Up to 53 bits, the binary64 run of [binary_approx] is the exact run. *)
Lemma binary_approx_b64_exact (k : Z) :
  (k <= 53)%Z ->
  fst (KW.binary_approx_b64 n k) = fst (KW.binary_approx n k) /\
  snd (KW.binary_approx_b64 n k) == snd (KW.binary_approx n k).
Proof.
  intros Hk. unfold KW.binary_approx_b64, KW.binary_approx. rewrite zrange_indices.
  destruct (agree_loop (Z.to_nat k) 0 ([], 0) ([], 0)) as (E1 & E2 & _).
  - lia.
  - unfold agree. cbn [fst snd]. repeat split; try reflexivity; try lia.
  - cbn [Nat.add] in *. split; assumption.
Qed.

End Agreement.

(** ** The exact run of [binary_approx] *)

Section ExactRun.

(** The bits, their value and the distance to [n]. *)
Lemma exact_bounds (n : Q) (k : Z) :
  (0 <= n)%Q -> (n <= 1)%Q -> (0 <= k)%Z ->
  Z.of_nat (length (fst (KW.binary_approx n k))) = k /\
  Forall is_bit (fst (KW.binary_approx n k)) /\
  (snd (KW.binary_approx n k) == binary_value (fst (KW.binary_approx n k)))%Q /\
  (0 <= snd (KW.binary_approx n k))%Q /\
  (snd (KW.binary_approx n k) <= n)%Q /\
  (n - snd (KW.binary_approx n k) <= 1 / KW.pow2 k)%Q.
Proof.
  intros H0 H1 Hk. unfold KW.binary_approx. rewrite zrange_indices.
  pose proof (loop_invariant n
    (fun j s => shape j s /\ (snd s <= n)%Q /\
                (n - snd s <= / KW.pow2 (Z.of_nat j))%Q)) as L.
  specialize (L (fun j s '(conj Hs (conj Hb Hc)) =>
    conj (shape_step n j s Hs) (conj (below_step n j s Hb) (close_step n j s Hc)))).
  specialize (L (Z.to_nat k) 0%nat ([], 0%Q)). cbn [Nat.add] in L.
  destruct L as ((Hl & Hbits & Hv & Hpos & _) & Hle & Hclose).
  - split; [|split].
    + unfold shape. cbn [fst snd length]. repeat split; try constructor.
      all: try reflexivity. all: try (intros _; constructor).
      all: apply Qle_refl.
    + exact H0.
    + cbn [snd]. change (/ KW.pow2 (Z.of_nat 0)) with (/ 1)%Q.
      change (/ 1)%Q with 1%Q. Lqa.lra.
  - rewrite Z2Nat.id in Hclose by assumption.
    repeat split; try assumption.
    + rewrite Hl. now apply Z2Nat.id.
    + unfold Qdiv. now rewrite Qmult_1_l.
Qed.

(** For [n >= 1] every bit is set. *)
Lemma exact_saturates (n : Q) (k : Z) :
  (1 <= n)%Q -> (0 <= k)%Z ->
  fst (KW.binary_approx n k) = repeat 1%Z (Z.to_nat k) /\
  (snd (KW.binary_approx n k) == 1 - 1 / KW.pow2 k)%Q /\
  ((1 < n)%Q -> (1 / KW.pow2 k < n - snd (KW.binary_approx n k))%Q).
Proof.
  intros Hn Hk.
  assert (H : fst (KW.binary_approx n k) = repeat 1%Z (Z.to_nat k) /\
              (snd (KW.binary_approx n k) ==
               1 - / KW.pow2 (Z.of_nat (Z.to_nat k)))%Q).
  { unfold KW.binary_approx. rewrite zrange_indices.
    refine (loop_invariant n
              (fun j s => fst s = repeat 1%Z j /\
                          (snd s == 1 - / KW.pow2 (Z.of_nat j))%Q)
              _ (Z.to_nat k) 0%nat ([], 0%Q) _); [|split; reflexivity].
    intros j [a total] [Ha Ht]. cbn [fst snd] in *.
    replace (Z.of_nat (S j)) with (1 + Z.of_nat j)%Z by lia.
    destruct (halves j) as [Hh E].
    destruct (body_cases n a total (1 + Z.of_nat j)) as [[_ ->]|[Hc _]].
    - cbn [fst snd]. split.
      + rewrite Ha. change [1%Z] with (repeat 1%Z 1). rewrite <- repeat_app.
        f_equal. lia.
      + rewrite bit_one. Lqa.lra.
    - exfalso. Lqa.lra. }
  rewrite Z2Nat.id in H by assumption. destruct H as [Ha Ht].
  assert (E : (1 / KW.pow2 k == / KW.pow2 k)%Q) by (unfold Qdiv; now rewrite Qmult_1_l).
  split; [exact Ha|]. split; [Lqa.lra|]. intros H1. Lqa.lra.
Qed.

(** The total is the largest multiple of [1/2^k] strictly below [n]. *)
Lemma exact_largest_below (n : Q) (k : Z) :
  (0 < n)%Q -> (n <= 1)%Q -> (0 <= k)%Z ->
  (snd (KW.binary_approx n k) ==
   inject_Z (bits_value (fst (KW.binary_approx n k))) / KW.pow2 k)%Q /\
  (0 <= bits_value (fst (KW.binary_approx n k)) < 2 ^ k)%Z /\
  (inject_Z (bits_value (fst (KW.binary_approx n k))) / KW.pow2 k < n)%Q /\
  forall N : Z, (inject_Z N / KW.pow2 k < n)%Q ->
    (N <= bits_value (fst (KW.binary_approx n k)))%Z.
Proof.
  intros H0 H1 Hk.
  pose proof (loop_invariant n
    (fun j s => (snd s == inject_Z (bits_value (fst s)) / KW.pow2 (Z.of_nat j))%Q /\
                (0 <= bits_value (fst s))%Z /\ (snd s < n)%Q /\
                (n - snd s <= / KW.pow2 (Z.of_nat j))%Q)) as L.
  specialize (L (fun j s '(conj Hs (conj Hp (conj Hb Hc))) =>
    conj (scaled_invariant_step n j s Hs)
      (conj (bits_nonneg_step n s _ Hp)
        (conj (strictly_below_step n j s Hb) (close_step n j s Hc))))).
  specialize (L (Z.to_nat k) 0%nat ([], 0%Q)). cbn [Nat.add] in L.
  unfold KW.binary_approx. rewrite zrange_indices.
  destruct L as (Hs & Hp & Hb & Hc).
  - cbn [fst snd]. split; [reflexivity|]. split; [reflexivity|]. split; [exact H0|].
    change (/ KW.pow2 (Z.of_nat 0))%Q with (/ 1)%Q. change (/ 1)%Q with 1%Q. Lqa.lra.
  - rewrite Z2Nat.id in Hs, Hc by assumption.
    set (r := fold_left (KW.binary_approx_body n) (indices 0 (Z.to_nat k)) ([], 0%Q)) in *.
    assert (Pk : (0 < KW.pow2 k)%Q).
    { rewrite <- (Z2Nat.id k Hk). apply pow2_nat_pos_Q. }
    split; [exact Hs|].
    assert (Hlt : (inject_Z (bits_value (fst r)) / KW.pow2 k < n)%Q) by (now rewrite <- Hs).
    assert (E1 : (inject_Z (bits_value (fst r) + 1) / KW.pow2 k ==
                  snd r + / KW.pow2 k)%Q).
    { rewrite Hs, inject_Z_plus. change (inject_Z 1) with 1%Q. field. Lqa.lra. }
    split; [split; [exact Hp|]|split; [exact Hlt|]].
    + assert (E2 : (inject_Z (2 ^ k) / KW.pow2 k == 1)%Q).
      { unfold KW.pow2 in *. field. Lqa.lra. }
      apply (scaled_lt _ _ (KW.pow2 k) Pk). rewrite E2. Lqa.lra.
    + intros N HN. apply Z.lt_succ_r. unfold Z.succ.
      apply (scaled_lt _ _ (KW.pow2 k) Pk). rewrite E1. Lqa.lra.
Qed.

End ExactRun.


(** ** More on [f] and [angle] *)

Section GaussianSumMore.

Local Open Scope R_scope.

Lemma exp_monotone (x y : R) : x <= y -> exp x <= exp y.
Proof.
  intros [H | ->]; [apply Rlt_le, exp_increasing, H | apply Rle_refl].
Qed.

Lemma symmetric_sum_le (g h : Z -> R) (n : nat) :
  (forall j, (- Z.of_nat n <= j <= Z.of_nat n)%Z -> g j <= h j) ->
  symmetric_sum g n <= symmetric_sum h n.
Proof.
  induction n as [|n IH]; intros H; cbn [symmetric_sum].
  - apply H. lia.
  - assert (IH' : symmetric_sum g n <= symmetric_sum h n) by (apply IH; intros; apply H; lia).
    pose proof (H (Z.of_nat (S n)) ltac:(lia)).
    pose proof (H (- Z.of_nat (S n))%Z ltac:(lia)). lra.
Qed.

Lemma symmetric_sum_const (c : R) (n : nat) :
  symmetric_sum (fun _ => c) n = (2 * INR n + 1) * c.
Proof.
  induction n as [|n IH]; cbn [symmetric_sum]; [cbn [INR]; lra|].
  rewrite IH, S_INR. lra.
Qed.









(** Centred at 0, the term of the half width is below the term of index [j]. *)
Lemma gaussian_term_half (sigma : R) (j : Z) :
  sigma <> 0 -> gaussian_term (0 / 2) (sigma / 2) j <= gaussian_term 0 sigma j.
Proof.
  intros Hs. unfold gaussian_term. apply exp_monotone.
  assert (Hp : 0 < sigma ^ 2) by nra.
  assert (Hj : 0 <= IZR j ^ 2) by apply pow2_ge_0.
  assert (Hq : 0 <= IZR j ^ 2 / sigma ^ 2).
  { apply Rmult_le_pos; [assumption | apply Rlt_le, Rinv_0_lt_compat; assumption]. }
  replace (- (IZR j - 0 / 2) ^ 2 / (sigma / 2) ^ 2)
    with (- (4 * (IZR j ^ 2 / sigma ^ 2))) by (field; assumption).
  replace (- (IZR j - 0) ^ 2 / sigma ^ 2)
    with (- (IZR j ^ 2 / sigma ^ 2)) by (field; assumption).
  lra.
Qed.

Lemma acos_sqrt_range_closed (r : R) : 0 < r <= 1 -> 0 <= acos (sqrt r) < PI / 2.
Proof.
  intros [H0 [H1 | ->]].
  - destruct (acos_sqrt_range r (conj H0 H1)). lra.
  - rewrite sqrt_1, acos_1. pose proof PI_RGT_0. lra.
Qed.

Lemma f_pos (mu sigma : R) (n : Z) : (0 <= n)%Z -> 0 < KW.f mu sigma n.
Proof.
  intros Hn. rewrite f_symmetric by assumption.
  apply symmetric_sum_pos, gaussian_term_pos.
Qed.

Lemma ratio_centred (sigma : R) (n : Z) :
  sigma <> 0 -> (0 <= n)%Z ->
  0 < KW.f (0 / 2) (sigma / 2) n / KW.f 0 sigma n <= 1.
Proof.
  intros Hs Hn.
  pose proof (f_pos (0 / 2) (sigma / 2) n Hn) as H1.
  pose proof (f_pos 0 sigma n Hn) as H2.
  split; [now apply Rdiv_lt_0_compat|].
  apply (Rmult_le_reg_r (KW.f 0 sigma n)); [exact H2|].
  unfold Rdiv. rewrite Rmult_assoc, Rinv_l by lra. rewrite Rmult_1_r, Rmult_1_l.
  rewrite !f_symmetric by assumption.
  apply symmetric_sum_le. intros j _. now apply gaussian_term_half.
Qed.

Section OutOfDomain.

Variable sigma : R.
Variable N : nat.
Hypothesis Hs : sigma <> 0.
Hypothesis HN : (1 <= N)%nat.
Hypothesis Hsmall : sigma ^ 2 <= INR N / 2.

Local Abbreviation mu := (2 * INR N).

Lemma numerator_above_1 :
  1 < symmetric_sum (gaussian_term (mu / 2) (sigma / 2)) N.
Proof.
  destruct N as [|N']; [lia|]. cbn [symmetric_sum].
  pose proof (symmetric_sum_pos (gaussian_term (2 * INR (S N') / 2) (sigma / 2)) N'
                (gaussian_term_pos _ _)) as H1.
  pose proof (gaussian_term_pos (2 * INR (S N') / 2) (sigma / 2) (- Z.of_nat (S N'))) as H2.
  assert (E : gaussian_term (2 * INR (S N') / 2) (sigma / 2) (Z.of_nat (S N')) = 1).
  { unfold gaussian_term. rewrite <- INR_IZR_INZ.
    replace (- (INR (S N') - 2 * INR (S N') / 2) ^ 2 / (sigma / 2) ^ 2) with 0
      by (field; exact Hs).
    apply exp_0. }
  lra.
Qed.

Lemma far_term (j : Z) :
  (- Z.of_nat N <= j <= Z.of_nat N)%Z ->
  gaussian_term mu sigma j <= exp (- (2 * INR N)).
Proof.
  intros Hj. unfold gaussian_term. apply exp_monotone.
  assert (Hp : 0 < sigma ^ 2) by nra.
  assert (Hn : 1 <= INR N) by (replace 1 with (INR 1) by reflexivity; now apply le_INR).
  assert (Hj' : IZR j <= INR N) by (rewrite INR_IZR_INZ; apply IZR_le; lia).
  assert (Hsq : INR N ^ 2 <= (IZR j - 2 * INR N) ^ 2) by nra.
  assert (Hi : 0 < / sigma ^ 2) by now apply Rinv_0_lt_compat.
  assert (Hb : 2 * INR N <= INR N ^ 2 * / sigma ^ 2).
  { apply (Rmult_le_reg_r (sigma ^ 2)); [exact Hp|].
    replace (INR N ^ 2 * / sigma ^ 2 * sigma ^ 2) with (INR N ^ 2) by (field; lra).
    nra. }
  unfold Rdiv. rewrite Ropp_mult_distr_l_reverse. apply Ropp_le_contravar.
  apply Rle_trans with (1 := Hb). apply Rmult_le_compat_r; lra.
Qed.

Lemma denominator_at_most_1 : symmetric_sum (gaussian_term mu sigma) N <= 1.
Proof.
  apply Rle_trans with (symmetric_sum (fun _ => exp (- (2 * INR N))) N).
  - apply symmetric_sum_le. exact far_term.
  - rewrite symmetric_sum_const, exp_Ropp.
    assert (H : 2 * INR N + 1 <= exp (2 * INR N)).
    { pose proof (exp_ineq1_le (2 * INR N)). lra. }
    pose proof (exp_pos (2 * INR N)) as He.
    apply (Rmult_le_reg_r (exp (2 * INR N))); [exact He|].
    rewrite Rmult_assoc, Rinv_l by lra. lra.
Qed.

End OutOfDomain.

End GaussianSumMore.

(** ** The circuit of [main.ipynb] *)

Section Operators.

Local Open Scope R_scope.

Ltac pointwise := apply functional_extensionality; intros s.
Ltac carith := unfold Cadd, Cmul; cbn [fst snd]; apply Cpair; ring.

Lemma cell_ok :
  KW.circuit_cell =
  Ok {| KW.num_qubits := 4; KW.num_clbits := 3;
        KW.data :=
          [KW.HGate 0; KW.HGate 1; KW.HGate 2; KW.HGate 3; KW.Barrier;
           KW.CXGate 0 1; KW.CXGate 1 2; KW.CXGate 2 3; KW.RZGate (PI / 4) 3;
           KW.CXGate 2 3; KW.CXGate 1 2; KW.CXGate 0 1; KW.Barrier;
           KW.HGate 0; KW.HGate 1; KW.HGate 2; KW.HGate 3] |}.
Proof. reflexivity. Qed.

Lemma half : / sqrt 2 * / sqrt 2 = / 2.
Proof.
  rewrite <- Rinv_mult. f_equal. apply sqrt_sqrt. lra.
Qed.

Lemma flip_comm (p q : nat) (s : basis) : flip p (flip q s) = flip q (flip p s).
Proof.
  apply functional_extensionality. intros k. unfold flip.
  destruct (Nat.eqb_spec k p), (Nat.eqb_spec k q); reflexivity.
Qed.

Lemma h_on_combine (q : nat) (a b : C) (psi phi : state) :
  h_on q (combine a b psi phi) = combine a b (h_on q psi) (h_on q phi).
Proof. pointwise. unfold h_on, combine. carith. Qed.

Ltac by_half Hh x y :=
  unfold Cadd, Cmul; cbn [fst snd]; apply Cpair;
  [ transitivity (2 * (/ sqrt 2 * / sqrt 2) * x) | transitivity (2 * (/ sqrt 2 * / sqrt 2) * y) ];
  [ ring | rewrite Hh; field | ring | rewrite Hh; field ].

Lemma h_on_h_on (q : nat) (psi : state) : h_on q (h_on q psi) = psi.
Proof.
  pointwise. unfold h_on. rewrite flip_flip, flip_same.
  pose proof half as Hh.
  destruct (psi s) as [x y]. destruct (psi (flip q s)) as [u v].
  destruct (s q); cbn [negb]; by_half Hh x y.
Qed.

Lemma h_on_z_on_h_on (q : nat) (psi : state) : h_on q (z_on q (h_on q psi)) = x_on q psi.
Proof.
  pointwise. unfold h_on, z_on, x_on. rewrite flip_flip, flip_same.
  pose proof half as Hh.
  destruct (psi s) as [x y]. destruct (psi (flip q s)) as [u v].
  destruct (s q); cbn [negb]; by_half Hh u v.
Qed.

Lemma h_on_comm (p q : nat) (psi : state) :
  p <> q -> h_on p (h_on q psi) = h_on q (h_on p psi).
Proof.
  intros Hpq. pointwise. unfold h_on.
  rewrite (flip_comm q p), (flip_other p q s), (flip_other q p s) by congruence.
  destruct (s p), (s q); carith.
Qed.

Lemma h_on_z_on_comm (p q : nat) (psi : state) :
  p <> q -> h_on p (z_on q psi) = z_on q (h_on p psi).
Proof.
  intros Hpq. pointwise. unfold h_on, z_on.
  rewrite (flip_other p q s) by congruence.
  destruct (s p), (s q); carith.
Qed.

Lemma h_on_x_on_comm (p q : nat) (psi : state) :
  p <> q -> h_on p (x_on q psi) = x_on q (h_on p psi).
Proof.
  intros Hpq. pointwise. unfold h_on, x_on.
  rewrite (flip_comm q p), (flip_other q p s) by congruence.
  destruct (s p); carith.
Qed.

Lemma h_layer_h_layer (psi : state) : h_layer (h_layer psi) = psi.
Proof.
  unfold h_layer.
  rewrite (h_on_comm 0 3), (h_on_comm 0 2), (h_on_comm 0 1), h_on_h_on by lia.
  rewrite (h_on_comm 1 3), (h_on_comm 1 2), h_on_h_on by lia.
  rewrite (h_on_comm 2 3), h_on_h_on by lia.
  apply h_on_h_on.
Qed.

Lemma h_layer_z_h_layer (psi : state) :
  h_layer (z_on 3 (z_on 2 (z_on 1 (z_on 0 (h_layer psi))))) =
  x_on 3 (x_on 2 (x_on 1 (x_on 0 psi))).
Proof.
  unfold h_layer.
  rewrite <- (h_on_z_on_comm 3 0), <- (h_on_z_on_comm 2 0), <- (h_on_z_on_comm 1 0) by lia.
  rewrite (h_on_z_on_comm 0 3), (h_on_z_on_comm 0 2), (h_on_z_on_comm 0 1) by lia.
  rewrite (h_on_comm 0 3), (h_on_comm 0 2), (h_on_comm 0 1), h_on_z_on_h_on by lia.
  rewrite <- (h_on_z_on_comm 3 1), <- (h_on_z_on_comm 2 1) by lia.
  rewrite (h_on_z_on_comm 1 3), (h_on_z_on_comm 1 2) by lia.
  rewrite (h_on_comm 1 3), (h_on_comm 1 2), h_on_z_on_h_on by lia.
  rewrite <- (h_on_z_on_comm 3 2) by lia.
  rewrite (h_on_z_on_comm 2 3) by lia.
  rewrite (h_on_comm 2 3) by lia.
  now rewrite !h_on_z_on_h_on.
Qed.

Ltac bits E0 E1 E2 E3 :=
  repeat (first [ rewrite flip_flip | rewrite flip_same | rewrite flip_other by lia
                | rewrite E0 | rewrite E1 | rewrite E2 | rewrite E3 ];
          cbn [negb xorb]).

(** The ladder of CX gates, RZ, and the ladder back: a phase by the parity
    of the four qubits. *)
Lemma ladder (phi : R) (psi : state) :
  cx_on 0 1 (cx_on 1 2 (cx_on 2 3 (rz_on phi 3 (cx_on 2 3 (cx_on 1 2 (cx_on 0 1 psi)))))) =
  fun s => Cmul (cos (phi / 2), if parity4 s then sin (phi / 2) else - sin (phi / 2)) (psi s).
Proof.
  pointwise. unfold cx_on, rz_on, parity4.
  destruct (s 0%nat) eqn:E0, (s 1%nat) eqn:E1, (s 2%nat) eqn:E2, (s 3%nat) eqn:E3;
    bits E0 E1 E2 E3; reflexivity.
Qed.

(** The phase by the parity, as a combination of the identity and of the
    four Z operators. *)
Lemma parity_phase (phi : R) (psi : state) :
  (fun s => Cmul (cos (phi / 2), if parity4 s then sin (phi / 2) else - sin (phi / 2)) (psi s)) =
  combine (cos (phi / 2), 0) (0, - sin (phi / 2)) psi
          (z_on 3 (z_on 2 (z_on 1 (z_on 0 psi)))).
Proof.
  pointwise. unfold combine, z_on, parity4.
  destruct (s 0%nat), (s 1%nat), (s 2%nat), (s 3%nat); cbn [xorb]; carith.
Qed.

(** The circuit of the cell on a state. *)
Lemma run_cell (phi : R) (psi : state) :
  run_gates
    [KW.HGate 0; KW.HGate 1; KW.HGate 2; KW.HGate 3; KW.Barrier;
     KW.CXGate 0 1; KW.CXGate 1 2; KW.CXGate 2 3; KW.RZGate phi 3;
     KW.CXGate 2 3; KW.CXGate 1 2; KW.CXGate 0 1; KW.Barrier;
     KW.HGate 0; KW.HGate 1; KW.HGate 2; KW.HGate 3] psi =
  combine (cos (phi / 2), 0) (0, - sin (phi / 2)) psi
          (x_on 3 (x_on 2 (x_on 1 (x_on 0 psi)))).
Proof.
  unfold run_gates. cbn [fold_left apply_gate].
  fold (h_layer psi). rewrite ladder, parity_phase.
  fold (h_layer (combine (cos (phi / 2), 0) (0, - sin (phi / 2)) (h_layer psi)
                   (z_on 3 (z_on 2 (z_on 1 (z_on 0 (h_layer psi))))))).
  unfold h_layer at 1. rewrite !h_on_combine.
  fold (h_layer (h_layer psi)).
  fold (h_layer (z_on 3 (z_on 2 (z_on 1 (z_on 0 (h_layer psi)))))).
  now rewrite h_layer_h_layer, h_layer_z_h_layer.
Qed.

End Operators.

Section CellFacts.

Local Open Scope R_scope.

Lemma cos2_PI8 : (cos (PI / 8))² = (1 + / sqrt 2) / 2.
Proof.
  pose proof (cos_2a_cos (PI / 8)) as H.
  replace (2 * (PI / 8)) with (PI / 4) in H by field.
  rewrite cos_PI4 in H. unfold Rsqr. unfold Rdiv in *. rewrite Rmult_1_l in H. lra.
Qed.

Lemma sin2_PI8 : (sin (PI / 8))² = (1 - / sqrt 2) / 2.
Proof.
  pose proof (sin2_cos2 (PI / 8)) as H. pose proof cos2_PI8 as Hc. lra.
Qed.

Lemma zero_state_4 (s : basis) :
  zero_state 4 s = if s 0%nat || s 1%nat || s 2%nat || s 3%nat then (0, 0) else (1, 0).
Proof.
  unfold zero_state. cbn [seq existsb].
  destruct (s 0%nat), (s 1%nat), (s 2%nat), (s 3%nat); reflexivity.
Qed.

End CellFacts.

(** * Part IV. The claims *)

(** C1.  Whenever no interval of the binary tree down to level
    [n] has a zero integral, [GRA] computes the three tables with [n+1]
    levels, level [m] of length [2^m], and for every node
    [P[m][i]] the integral over [[a + R*i/2^m, a + R*(i+1)/2^m]],
    [F[m][i]] the integral over the left half divided by the integral over
    the whole interval, and [T[m][i] = arccos(sqrt(F[m][i]))]; for
    [n >= 1] the table [P] is the one [GRA] returns.  The condition on the
    integrals is needed: see [C1_zero_mass_counterexample]. *)
Theorem C1_GRA_tables_exact (quad : (R -> R) -> R -> R -> R) (dist : R -> R)
  (a b : R) (n : nat) :
  (forall m i, (m <= n)%nat -> (i < 2 ^ m)%nat ->
     quad dist (interval_lo a b m i) (interval_hi a b m i) <> 0%R) ->
  exists F T P,
    GRA_tables quad n dist a b = Ok (F, T, P) /\
    GRA_tables_spec quad dist a b n F T P /\
    ((1 <= n)%nat -> exists qc, GRA quad n dist a b = Ok (qc, P)).
Proof.
  intros Hnz.
  assert (H : masses_nonzero quad dist a b n).
  { intros m i Hm Hi. rewrite Pval_eq. now apply Hnz. }
  pose proof (GRA_tables_ok quad dist a b n H) as E.
  eexists _, _, _. split; [exact E|]. split; [apply tables_meet_spec|].
  intros Hn. eexists. now apply GRA_ok with (1 := Hn) (2 := E).
Qed.

Lemma C1_GRA_tables_exact_witness :
  exists F T P,
    GRA_tables midpoint2 2 (uniform 0 1) 0 1 = Ok (F, T, P) /\
    GRA_tables_spec midpoint2 (uniform 0 1) 0 1 2 F T P /\
    ((1 <= 2)%nat -> exists qc, GRA midpoint2 2 (uniform 0 1) 0 1 = Ok (qc, P)).
Proof.
  apply (C1_GRA_tables_exact midpoint2 (uniform 0 1) 0 1 2).
  apply (uniform_masses 2).
Defined.

(** C1 without the condition on the integrals: for the uniform density on
    [[0, 1]] and the bounds [0 < 2], the interval [[1, 2]] of level 1 has
    integral zero, and [GRA] raises [ZeroDivisionError] instead of
    computing the tables. *)
Lemma C1_zero_mass_counterexample :
  (0 < 2)%R /\
  GRA_tables midpoint2 1 (uniform 0 1) 0 2 = Raise ZeroDivisionError /\
  GRA midpoint2 1 (uniform 0 1) 0 2 = Raise ZeroDivisionError.
Proof.
  assert (E : GRA_tables midpoint2 1 (uniform 0 1) 0 2 = Raise ZeroDivisionError).
  { apply (GRA_tables_raise midpoint2 (uniform 0 1) 0 2 1 1 1); [lia | simpl; lia |].
    rewrite Pval_eq. apply midpoint2_uniform_right.
    - unfold interval_lo. simpl. lra.
    - apply interval_lo_lt_hi; [lra | simpl; lia]. }
  split; [lra|]. split; [exact E | now apply GRA_raise].
Qed.

(** C2.  Whenever no interval of the tree down to level [n] has
    a zero integral and the integral is additive over the two halves of
    every interval of the levels below [n], the tables of [GRA] satisfy
    [F[m][i] = P[m+1][2i] / P[m][i]] and
    [P[m][i] = P[m+1][2i] + P[m+1][2i+1]] for [m < n], and every level of
    [P] sums to the integral of [dist] over [[a, b]].  The condition on the
    integrals is needed: see [C2_zero_mass_counterexample]. *)
Theorem C2_GRA_conditional_mass (quad : (R -> R) -> R -> R -> R) (dist : R -> R)
  (a b : R) (n : nat) :
  (forall m i, (m <= n)%nat -> (i < 2 ^ m)%nat ->
     quad dist (interval_lo a b m i) (interval_hi a b m i) <> 0%R) ->
  additive_on_halves quad dist a b n ->
  exists F T P,
    GRA_tables quad n dist a b = Ok (F, T, P) /\
    (forall m i, (m < n)%nat -> (i < 2 ^ m)%nat ->
       entry F m i = (entry P (m + 1) (2 * i) / entry P m i)%R /\
       entry P m i = (entry P (m + 1) (2 * i) + entry P (m + 1) (2 * i + 1))%R) /\
    (forall m, (m <= n)%nat -> sum_R (nth m P []) = quad dist a b).
Proof.
  intros Hnz Hadd.
  assert (H : masses_nonzero quad dist a b n).
  { intros m i Hm Hi. rewrite Pval_eq. now apply Hnz. }
  eexists _, _, _. split; [apply (GRA_tables_ok quad dist a b n H)|]. split.
  - intros m i Hm Hi. destruct (pow2_double_lt m i Hi) as [H0 H1].
    rewrite entry_Ft, !entry_Pt by (assumption || lia).
    split; [apply Fval_ratio | now apply (Pval_split quad dist a b n)].
  - intros m Hm. rewrite nth_map_seq by lia.
    now apply (sum_level quad dist a b n).
Qed.

Lemma C2_GRA_conditional_mass_witness :
  exists F T P,
    GRA_tables midpoint2 2 (uniform 0 1) 0 1 = Ok (F, T, P) /\
    (forall m i, (m < 2)%nat -> (i < 2 ^ m)%nat ->
       entry F m i = (entry P (m + 1) (2 * i) / entry P m i)%R /\
       entry P m i = (entry P (m + 1) (2 * i) + entry P (m + 1) (2 * i + 1))%R) /\
    (forall m, (m <= 2)%nat -> sum_R (nth m P []) = midpoint2 (uniform 0 1) 0 1).
Proof.
  apply (C2_GRA_conditional_mass midpoint2 (uniform 0 1) 0 1 2).
  - apply (uniform_masses 2).
  - apply uniform_additive.
Defined.

(** C2 without the condition on the integrals: for the uniform density on
    [[0, 1]] and the bounds [-1 < 1] with [n = 1], the integral is additive
    over the two halves of [[-1, 1]], but the left half [[-1, 0]] has
    integral zero and [GRA] raises [ZeroDivisionError]: there are no tables
    to relate. *)
Lemma C2_zero_mass_counterexample :
  (-1 < 1)%R /\ (1 <= 1)%nat /\
  additive_on_halves midpoint2 (uniform 0 1) (-1) 1 1 /\
  GRA_tables midpoint2 1 (uniform 0 1) (-1) 1 = Raise ZeroDivisionError /\
  GRA midpoint2 1 (uniform 0 1) (-1) 1 = Raise ZeroDivisionError.
Proof.
  assert (E : GRA_tables midpoint2 1 (uniform 0 1) (-1) 1 = Raise ZeroDivisionError).
  { apply (GRA_tables_raise midpoint2 (uniform 0 1) (-1) 1 1 1 0); [lia | simpl; lia |].
    rewrite Pval_eq. apply midpoint2_uniform_left.
    - unfold interval_hi. simpl. lra.
    - apply interval_lo_lt_hi; [lra | simpl; lia]. }
  split; [lra|]. split; [lia|]. split; [|split; [exact E | now apply GRA_raise]].
  intros m i Hm Hi. assert (m = 0%nat) as -> by lia.
  assert (i = 0%nat) as -> by (simpl in Hi; lia).
  unfold interval_lo, interval_mid, interval_hi. simpl.
  rewrite midpoint2_uniform_left by lra.
  rewrite midpoint2_uniform by lra.
  unfold midpoint2. rewrite uniform_below by lra. rewrite uniform_in by lra. lra.
Qed.

(** C3.  For [n >= 1], once the tables are computed, [GRA] returns a circuit
    whose gates (the barriers apart) are, before the swaps: RX by
    [2*T[0][0]] on qubit 0; then for [m = 1..n-1] and [i = 0..2^m-1], in
    this order, X on qubit [m-j-1] for the [j] in [0..m-1] where bit [j] of
    [i] is 0, one multi-controlled RX by [2*T[m][i]] with controls
    [0..m-1] and target [m], and the same X gates again.  The circuit holds
    [2^n - 1] rotations. *)
Theorem C3_GRA_gate_sequence (quad : (R -> R) -> R -> R -> R) (dist : R -> R)
  (a b : R) (n : nat) (F T P : list (list R)) :
  (1 <= n)%nat ->
  GRA_tables quad n dist a b = Ok (F, T, P) ->
  exists qc,
    GRA quad n dist a b = Ok (qc, P) /\
    num_qubits qc = n /\
    gates (data qc) = rotation_gates (entry T) n ++ swap_gates n /\
    rotations (data qc) = (2 ^ n - 1)%nat.
Proof.
  intros Hn E. eexists. split; [now apply GRA_ok with (1 := Hn) (2 := E)|].
  cbn [num_qubits data]. split; [reflexivity|].
  assert (G : gates (rotation_instructions n T ++ swap_gates n) =
              rotation_gates (entry T) n ++ swap_gates n).
  { unfold gates. rewrite filter_app. fold (gates (rotation_instructions n T)).
    fold (gates (swap_gates n)).
    now rewrite gates_rotation_instructions, gates_swaps. }
  split; [exact G|].
  rewrite <- rotations_gates, G, rotations_app, rotations_swaps.
  rewrite rotations_rotation_gates by assumption. lia.
Qed.

Lemma C3_GRA_gate_sequence_witness :
  exists qc,
    GRA midpoint2 2 (uniform 0 1) 0 1 =
      Ok (qc, map (row (Pval midpoint2 (uniform 0 1) 0 1)) (seq 0 (2 + 1))) /\
    num_qubits qc = 2%nat /\
    gates (data qc) =
      rotation_gates
        (entry (map (row (Tval midpoint2 (uniform 0 1) 0 1)) (seq 0 (2 + 1)))) 2 ++
      swap_gates 2 /\
    rotations (data qc) = (2 ^ 2 - 1)%nat.
Proof.
  apply (C3_GRA_gate_sequence midpoint2 (uniform 0 1) 0 1 2
           (map (row (Fval midpoint2 (uniform 0 1) 0 1)) (seq 0 (2 + 1)))).
  - lia.
  - apply GRA_tables_ok, uniform_masses_nonzero.
Defined.




(** C5.  For [0 <= n <= 1] and an integer [0 <= k <= 53],
    [binary_approx(n, k)], run on floats, returns [(a, total)] with [a] a
    list of exactly [k] elements, each 0 or 1, [total] the sum over
    [i = 1..k] of [a[i-1] / 2^i], [0 <= total <= n] and
    [n - total <= 1 / 2^k].  Up to 53 bits no operation of the loop rounds.
    From 54 bits on the bound fails: see [C5_rounding_counterexample]. *)
Theorem C5_binary_approx_bounds (n : Q) (k : Z) :
  (0 <= n)%Q -> (n <= 1)%Q -> (0 <= k)%Z -> (k <= 53)%Z ->
  Z.of_nat (length (fst (KW.binary_approx_b64 n k))) = k /\
  Forall is_bit (fst (KW.binary_approx_b64 n k)) /\
  (snd (KW.binary_approx_b64 n k) == binary_value (fst (KW.binary_approx_b64 n k)))%Q /\
  (0 <= snd (KW.binary_approx_b64 n k))%Q /\
  (snd (KW.binary_approx_b64 n k) <= n)%Q /\
  (n - snd (KW.binary_approx_b64 n k) <= 1 / KW.pow2 k)%Q.
Proof.
  intros H0 H1 Hk Hk'.
  destruct (binary_approx_b64_exact n k Hk') as [Ea Et].
  rewrite Ea, Et. now apply exact_bounds.
Qed.

Lemma C5_binary_approx_bounds_witness :
  Z.of_nat (length (fst (KW.binary_approx_b64 (3 # 4) 2))) = 2%Z /\
  Forall is_bit (fst (KW.binary_approx_b64 (3 # 4) 2)) /\
  (snd (KW.binary_approx_b64 (3 # 4) 2) ==
   binary_value (fst (KW.binary_approx_b64 (3 # 4) 2)))%Q /\
  (0 <= snd (KW.binary_approx_b64 (3 # 4) 2))%Q /\
  (snd (KW.binary_approx_b64 (3 # 4) 2) <= 3 # 4)%Q /\
  ((3 # 4) - snd (KW.binary_approx_b64 (3 # 4) 2) <= 1 / KW.pow2 2)%Q.
Proof.
  apply (C5_binary_approx_bounds (3 # 4) 2).
  - discriminate.
  - discriminate.
  - lia.
  - lia.
Defined.

(** With 54 bits the claim fails on floats, in its bound and in its sum.

    [binary_approx(1.0, 54)]: after 53 iterations the total is [1 - 2^-53];
    the sum [total + 1/2**54] lies half-way between that number and 1.0 and
    rounds to 1.0, the even one, so that the test [1.0 > 1.0] fails and the
    last bit is 0.  The total stays [2^-53] below [n], twice the bound
    [1/2^54].

    [binary_approx(0.5 + 2^-53, 54)]: after 53 iterations the bits are a 1
    and 52 zeros, and the total is 0.5; the sum [total + 1/2**54] rounds
    back to 0.5, the test [n > 0.5] holds and the last bit is 1, but
    [total += 1/2**54] leaves the total at 0.5, which is no longer the sum
    of the bits. *)
Lemma C5_rounding_counterexample :
  ((0 <= 1)%Q /\ (1 <= 1)%Q /\ (0 <= 54)%Z /\
   fst (KW.binary_approx_b64 1 54) = repeat 1%Z 53 ++ [0%Z] /\
   (snd (KW.binary_approx_b64 1 54) == 1 - 1 / KW.pow2 53)%Q /\
   (B64.round ((1 - 1 / KW.pow2 53) + B64.round (1 / KW.pow2 54)) == 1)%Q /\
   ~ (1 - snd (KW.binary_approx_b64 1 54) <= 1 / KW.pow2 54)%Q) /\
  ((0 <= 1 / 2 + 1 / KW.pow2 53)%Q /\ (1 / 2 + 1 / KW.pow2 53 <= 1)%Q /\
   fst (KW.binary_approx_b64 (1 / 2 + 1 / KW.pow2 53) 54) =
     1%Z :: repeat 0%Z 52 ++ [1%Z] /\
   (snd (KW.binary_approx_b64 (1 / 2 + 1 / KW.pow2 53) 54) == 1 / 2)%Q /\
   (B64.round (1 / 2 + B64.round (1 / KW.pow2 54)) == 1 / 2)%Q /\
   ~ (snd (KW.binary_approx_b64 (1 / 2 + 1 / KW.pow2 53) 54) ==
      binary_value (fst (KW.binary_approx_b64 (1 / 2 + 1 / KW.pow2 53) 54)))%Q).
Proof.
  split.
  - split; [discriminate|]. split; [discriminate|]. split; [lia|].
    split; [vm_compute; reflexivity|]. split; [vm_compute; reflexivity|].
    split; [vm_compute; reflexivity|].
    vm_compute. intros H. now apply H.
  - split; [discriminate|]. split; [discriminate|].
    split; [vm_compute; reflexivity|]. split; [vm_compute; reflexivity|].
    split; [vm_compute; reflexivity|].
    vm_compute. discriminate.
Qed.

(** [B64.round], run: [1/3] and [0.1] as Python prints their exact values,
    a tie, and the two smallest numbers. *)
Example round_values :
  (B64.round (1 # 3) == 6004799503160661 # 18014398509481984)%Q /\
  (B64.round (1 # 10) == 3602879701896397 # 36028797018963968)%Q /\
  (B64.round (9007199254740993 # 1) == 9007199254740992 # 1)%Q /\
  (B64.round (9007199254740995 # 1) == 9007199254740996 # 1)%Q /\
  (B64.round (1 / KW.pow2 1074) == 1 / KW.pow2 1074)%Q /\
  (B64.round (1 / KW.pow2 1075) == 0)%Q /\
  (B64.round (3 / KW.pow2 1075) == 1 / KW.pow2 1073)%Q.
Proof. repeat split; vm_compute; reflexivity. Qed.

(** [binary_approx(3/4, 2)] and [binary_approx(1/2, 1)], run. *)
Example binary_approx_three_quarters :
  fst (KW.binary_approx (3 # 4) 2) = [1%Z; 0%Z] /\
  (snd (KW.binary_approx (3 # 4) 2) == 1 # 2)%Q.
Proof. split; reflexivity. Qed.

Example binary_approx_half :
  fst (KW.binary_approx (1 # 2) 1) = [0%Z] /\
  (snd (KW.binary_approx (1 # 2) 1) == 0)%Q.
Proof. split; reflexivity. Qed.

(** C6.  Whatever its arguments, [KWA] returns [None]; it builds no circuit
    and leaves the circuit of the notebook as it is. *)
Theorem C6_KWA_returns_None (mu sigma : R) (k N : Z) (g : KW.globals) :
  KW.KWA mu sigma k N g = Ok (KW.PyNone, g).
Proof. reflexivity. Qed.






(** C9.  For [n >= 1], once the tables are computed, [GRA] ends the circuit
    with exactly [floor(n/2)] swaps, qubit [i] with qubit [n-1-i] for
    [i = 0..floor(n/2)-1], and nothing before them is a swap.  The two
    branches of the test on [n % 2] emit the same instructions: for odd [n],
    [(n-1)//2 = n//2], so the loop of the even branch alone does what the
    case split does. *)
Theorem C9_GRA_swaps (quad : (R -> R) -> R -> R -> R) (dist : R -> R)
  (a b : R) (n : nat) (F T P : list (list R)) :
  (1 <= n)%nat ->
  GRA_tables quad n dist a b = Ok (F, T, P) ->
  (exists qc before,
     GRA quad n dist a b = Ok (qc, P) /\
     data qc = before ++ swap_gates n /\
     filter is_swap before = [] /\
     filter is_swap (data qc) = map (fun i => SWAP i (n - 1 - i)) (seq 0 (n / 2)) /\
     length (filter is_swap (data qc)) = (n / 2)%nat) /\
  ((n mod 2 <> 0)%nat -> ((n - 1) / 2 = n / 2)%nat) /\
  (forall qc, GRA_swaps n qc = GRA_swaps_even n qc) /\
  (forall qc, (n mod 2 <> 0)%nat -> GRA_swaps_odd n qc = GRA_swaps_even n qc).
Proof.
  intros Hn E. split; [|split; [|split]].
  - eexists _, (rotation_instructions n T).
    split; [now apply GRA_ok with (1 := Hn) (2 := E)|].
    cbn [data]. split; [reflexivity|].
    split; [apply rotation_instructions_no_swap|].
    rewrite filter_app, rotation_instructions_no_swap, swap_gates_all_swaps.
    split; [reflexivity|]. unfold swap_gates. cbn [app].
    now rewrite length_map, length_seq.
  - apply odd_half.
  - intros qc. unfold GRA_swaps. destruct (Nat.eqb_spec (n mod 2) 0); [reflexivity|].
    unfold GRA_swaps_odd, GRA_swaps_even. now rewrite odd_half.
  - intros qc Hodd. unfold GRA_swaps_odd, GRA_swaps_even. now rewrite odd_half.
Qed.

Lemma C9_GRA_swaps_witness :
  (exists qc before,
     GRA midpoint2 3 (uniform 0 1) 0 1 =
       Ok (qc, map (row (Pval midpoint2 (uniform 0 1) 0 1)) (seq 0 (3 + 1))) /\
     data qc = before ++ swap_gates 3 /\
     filter is_swap before = [] /\
     filter is_swap (data qc) = map (fun i => SWAP i (3 - 1 - i)) (seq 0 (3 / 2)) /\
     length (filter is_swap (data qc)) = (3 / 2)%nat) /\
  ((3 mod 2 <> 0)%nat -> ((3 - 1) / 2 = 3 / 2)%nat) /\
  (forall qc, GRA_swaps 3 qc = GRA_swaps_even 3 qc) /\
  (forall qc, (3 mod 2 <> 0)%nat -> GRA_swaps_odd 3 qc = GRA_swaps_even 3 qc).
Proof.
  apply (C9_GRA_swaps midpoint2 (uniform 0 1) 0 1 3
           (map (row (Fval midpoint2 (uniform 0 1) 0 1)) (seq 0 (3 + 1)))
           (map (row (Tval midpoint2 (uniform 0 1) 0 1)) (seq 0 (3 + 1)))).
  - lia.
  - apply GRA_tables_ok, uniform_masses_nonzero.
Defined.

(** C10.  For [n > 0] the total [binary_approx(n, k)] returns is strictly
    less than [n], also when [n] is a [k]-bit binary fraction: a bit is set
    only under the strict inequality [n > total + 1/2^i].  The total is
    never [n] itself, and it is 0 exactly when no bit is set. *)
Theorem C10_binary_approx_strict (n : Q) (k : Z) :
  (0 < n)%Q -> (1 <= k)%Z ->
  (snd (KW.binary_approx n k) < n)%Q /\
  ~ (snd (KW.binary_approx n k) == n)%Q /\
  ((snd (KW.binary_approx n k) == 0)%Q <->
   Forall (fun v => v = 0%Z) (fst (KW.binary_approx n k))).
Proof.
  intros H0 _. unfold KW.binary_approx. rewrite zrange_indices.
  pose proof (loop_invariant n (fun j s => shape j s /\ (snd s < n)%Q)) as L.
  specialize (L (fun j s '(conj Hs Hb) =>
    conj (shape_step n j s Hs) (strictly_below_step n j s Hb))).
  specialize (L (Z.to_nat k) 0%nat ([], 0%Q)).
  destruct L as ((_ & _ & _ & _ & Hz) & Hlt).
  - split; [|exact H0].
    unfold shape. cbn [fst snd length]. repeat split; try constructor.
    all: try reflexivity. all: try (intros _; constructor).
    all: apply Qle_refl.
  - split; [exact Hlt|]. split; [|exact Hz].
    intros E. rewrite E in Hlt. now apply Qlt_irrefl in Hlt.
Qed.

Lemma C10_binary_approx_strict_witness :
  (snd (KW.binary_approx (1 # 2) 1) < 1 # 2)%Q /\
  ~ (snd (KW.binary_approx (1 # 2) 1) == 1 # 2)%Q /\
  ((snd (KW.binary_approx (1 # 2) 1) == 0)%Q <->
   Forall (fun v => v = 0%Z) (fst (KW.binary_approx (1 # 2) 1))).
Proof.
  apply (C10_binary_approx_strict (1 # 2) 1).
  - reflexivity.
  - lia.
Defined.

(** X1.  For a density that is log-concave on [[a, b]] (integrated as in
    C8) and [n >= 1], the circuit [GRA] returns, run on the register at
    zero, gives the basis state of index [x] the probability
    [P[n][x] / P[0][0]], the product of the factors along the path of [x]. *)
Theorem GRA_measurement_distribution (quad : (R -> R) -> R -> R -> R)
  (dist : R -> R) (a b : R) (n : nat) :
  (1 <= n)%nat ->
  (a < b)%R ->
  log_concave_on dist a b ->
  positive_integrals quad dist a b ->
  additive_on_halves quad dist a b n ->
  exists qc F T P,
    GRA_tables quad n dist a b = Ok (F, T, P) /\
    GRA quad n dist a b = Ok (qc, P) /\
    forall s : basis,
      probability (run (data qc) (zero_state n)) s =
        (entry P n (index n s) / entry P 0 0)%R /\
      probability (run (data qc) (zero_state n)) s =
        path_product T n (index n s) n.
Proof.
  intros Hn Hab Hlc Hpos Hadd.
  pose proof (positive_masses_nonzero quad dist a b Hab Hlc Hpos n) as H.
  pose proof (GRA_tables_ok quad dist a b n H) as E.
  eexists _, _, _, _. split; [exact E|].
  split; [now apply GRA_ok with (1 := Hn) (2 := E)|].
  intros s. cbn [data].
  assert (Q : probability
                (run (rotation_instructions n
                        (map (row (Tval quad dist a b)) (seq 0 (n + 1))) ++
                      swap_gates n) (zero_state n)) s =
              (Pval quad dist a b n (index n s) / Pval quad dist a b 0 0)%R).
  { rewrite run_app, run_rotation_instructions, run_swap_gates by assumption.
    unfold probability, amp. rewrite Nat.sub_diag. cbn [seq existsb].
    rewrite (Cnorm2_prodfac quad dist a b n Hab Hlc Hpos Hadd n _ (le_n n)).
    rewrite pre_reverse by lia. now rewrite path_prefix_leaf. }
  pose proof (index_lt n s) as Hx.
  split.
  - rewrite Q, !entry_Pt by (assumption || lia || apply pow2_nat_pos). reflexivity.
  - rewrite Q.
    rewrite (path_product_telescopes quad dist a b n Hab Hlc Hpos Hadd _ n Hx (le_n n)).
    now rewrite path_prefix_leaf.
Qed.

Lemma GRA_measurement_distribution_witness :
  exists qc F T P,
    GRA_tables midpoint2 2 (uniform 0 1) 0 1 = Ok (F, T, P) /\
    GRA midpoint2 2 (uniform 0 1) 0 1 = Ok (qc, P) /\
    forall s : basis,
      probability (run (data qc) (zero_state 2)) s =
        (entry P 2 (index 2 s) / entry P 0 0)%R /\
      probability (run (data qc) (zero_state 2)) s =
        path_product T 2 (index 2 s) 2.
Proof.
  apply (GRA_measurement_distribution midpoint2 (uniform 0 1) 0 1 2).
  - lia.
  - exact Rlt_0_1.
  - exact uniform_log_concave.
  - apply midpoint2_positive.
  - apply uniform_additive.
Defined.

(** * Part V. Further properties of the code *)

(** ** [GRA] *)

(** X2.  For [n >= 1], where [dist] and the integrator return a number on
    every interval: [GRA] returns a circuit on [n] qubits and [n] classical
    bits when no interval of the tree down to level [n] has a zero
    integral, and it raises [ZeroDivisionError] as soon as one has.  The
    construction of the circuit never raises: once the tables are
    computed, [GRA] returns (no qubit index is out of range, no gate
    repeats a qubit, no table is read out of range), so that [GRA] raises
    neither [IndexError] nor [CircuitError]. *)
Theorem GRA_construction_never_raises (quad : (R -> R) -> R -> R -> R)
  (dist : R -> R) (a b : R) (n : nat) :
  (1 <= n)%nat ->
  ((forall m i, (m <= n)%nat -> (i < 2 ^ m)%nat ->
      quad dist (interval_lo a b m i) (interval_hi a b m i) <> 0%R) ->
   exists qc P, GRA quad n dist a b = Ok (qc, P) /\
                num_qubits qc = n /\ num_clbits qc = n) /\
  (forall m i, (m <= n)%nat -> (i < 2 ^ m)%nat ->
     quad dist (interval_lo a b m i) (interval_hi a b m i) = 0%R ->
     GRA quad n dist a b = Raise ZeroDivisionError) /\
  (forall F T P, GRA_tables quad n dist a b = Ok (F, T, P) ->
     exists qc, GRA_circuit n T = Ok qc /\ GRA quad n dist a b = Ok (qc, P)) /\
  GRA quad n dist a b <> Raise IndexError /\
  GRA quad n dist a b <> Raise CircuitError.
Proof.
  intros Hn. split; [|split; [|split]].
  - intros Hnz.
    assert (H : masses_nonzero quad dist a b n).
    { intros m i Hm Hi. rewrite Pval_eq. now apply Hnz. }
    eexists _, _. split.
    + apply GRA_ok with (1 := Hn) (2 := GRA_tables_ok quad dist a b n H).
    + split; reflexivity.
  - intros m i Hm Hi Hz. apply GRA_raise.
    apply GRA_tables_raise with (m := m) (i := i); try assumption.
    now rewrite Pval_eq.
  - intros F T P E. pose proof (GRA_ok quad dist a b n F T P Hn E) as G.
    eexists. split; [|exact G].
    revert G. unfold GRA. rewrite E. cbn [bind].
    destruct (GRA_circuit n T) as [qc | e]; cbn [bind]; [|discriminate].
    intros G. now injection G as ->.
  - destruct (GRA_cases quad dist a b n Hn) as [[_ E] | [_ E]]; rewrite E;
      split; discriminate.
Qed.

Lemma GRA_construction_never_raises_witness :
  ((forall m i, (m <= 2)%nat -> (i < 2 ^ m)%nat ->
      midpoint2 (uniform 0 1) (interval_lo 0 2 m i) (interval_hi 0 2 m i) <> 0%R) ->
   exists qc P, GRA midpoint2 2 (uniform 0 1) 0 2 = Ok (qc, P) /\
                num_qubits qc = 2%nat /\ num_clbits qc = 2%nat) /\
  (forall m i, (m <= 2)%nat -> (i < 2 ^ m)%nat ->
     midpoint2 (uniform 0 1) (interval_lo 0 2 m i) (interval_hi 0 2 m i) = 0%R ->
     GRA midpoint2 2 (uniform 0 1) 0 2 = Raise ZeroDivisionError) /\
  (forall F T P, GRA_tables midpoint2 2 (uniform 0 1) 0 2 = Ok (F, T, P) ->
     exists qc, GRA_circuit 2 T = Ok qc /\
                GRA midpoint2 2 (uniform 0 1) 0 2 = Ok (qc, P)) /\
  GRA midpoint2 2 (uniform 0 1) 0 2 <> Raise IndexError /\
  GRA midpoint2 2 (uniform 0 1) 0 2 <> Raise CircuitError.
Proof.
  apply (GRA_construction_never_raises midpoint2 (uniform 0 1) 0 2 2). lia.
Defined.

(** X3.  With [n = 0], [GRA] never returns: it computes the level 0 of the
    tables, and raises [ZeroDivisionError] when the integral over [[a, b]]
    is zero; otherwise the construction of the circuit raises
    [CircuitError], where the first rotation, [qc.rx(2*T[0][0], 0)],
    addresses the qubit 0 of a circuit that has no qubit. *)
Theorem GRA_without_qubits (quad : (R -> R) -> R -> R -> R) (dist : R -> R)
  (a b : R) :
  (quad dist a b <> 0%R -> GRA quad 0 dist a b = Raise CircuitError) /\
  (quad dist a b = 0%R -> GRA quad 0 dist a b = Raise ZeroDivisionError).
Proof.
  split; intros H.
  - apply GRA_no_qubit. intros m i Hm Hi.
    assert (m = 0%nat) as -> by lia. assert (i = 0%nat) as -> by (simpl in Hi; lia).
    now rewrite Pval_root.
  - apply GRA_raise. apply GRA_tables_raise with (m := 0%nat) (i := 0%nat).
    + lia.
    + simpl; lia.
    + now rewrite Pval_root.
Qed.

(** X4.  The circuit [GRA] returns is a function of the table [P] it returns
    with it: the rotation of level [m], interval [i], turns by twice
    [arccos(sqrt(P[m+1][2i] / P[m][i]))].  The last level of [F] and [T],
    which costs one more integral per interval of level [n], does not reach
    the result. *)
Theorem GRA_circuit_from_P (quad : (R -> R) -> R -> R -> R) (dist : R -> R)
  (a b : R) (n : nat) (qc : QuantumCircuit) (P : list (list R)) :
  (1 <= n)%nat ->
  GRA quad n dist a b = Ok (qc, P) ->
  gates (data qc) = rotation_gates (angle_of_masses P) n ++ swap_gates n.
Proof.
  intros Hn E.
  destruct (GRA_inv quad dist a b n qc P Hn E) as (_ & -> & ->).
  cbn [data]. unfold gates. rewrite filter_app.
  fold (gates (swap_gates n)). rewrite gates_swaps. f_equal.
  fold (gates (rotation_instructions n (map (row (Tval quad dist a b)) (seq 0 (n + 1))))).
  rewrite gates_rotation_instructions.
  apply rotation_gates_ext; [exact Hn|].
  intros m i Hm Hi. now apply angle_of_masses_Tval.
Qed.

Lemma GRA_circuit_from_P_witness :
  gates (data {| num_qubits := 2; num_clbits := 2;
                 data := rotation_instructions 2
                           (map (row (Tval midpoint2 (uniform 0 1) 0 1)) (seq 0 (2 + 1))) ++
                         swap_gates 2 |}) =
  rotation_gates
    (angle_of_masses (map (row (Pval midpoint2 (uniform 0 1) 0 1)) (seq 0 (2 + 1)))) 2 ++
  swap_gates 2.
Proof.
  apply (GRA_circuit_from_P midpoint2 (uniform 0 1) 0 1 2).
  - lia.
  - apply GRA_ok with (F := map (row (Fval midpoint2 (uniform 0 1) 0 1)) (seq 0 (2 + 1))).
    + lia.
    + apply GRA_tables_ok, uniform_masses_nonzero.
Defined.

(** X5.  One more qubit refines the result and changes nothing of it: where
    [GRA] returns for [n+1] qubits ([n >= 1]) it returns for [n] qubits, the
    table [P] for [n+1] is the table for [n] with one more level, and the
    gates for [n+1] are the rotations for [n], then the patterns of level
    [n], then the swaps of [n+1] qubits. *)
Theorem GRA_one_more_qubit (quad : (R -> R) -> R -> R -> R) (dist : R -> R)
  (a b : R) (n : nat) (qc' : QuantumCircuit) (P' : list (list R)) :
  (1 <= n)%nat ->
  GRA quad (n + 1) dist a b = Ok (qc', P') ->
  exists qc P,
    GRA quad n dist a b = Ok (qc, P) /\
    P' = P ++ [nth (n + 1) P' []] /\
    gates (data qc) = rotation_gates (angle_of_masses P') n ++ swap_gates n /\
    gates (data qc') =
      rotation_gates (angle_of_masses P') n ++ level_gates (angle_of_masses P') n ++
      swap_gates (n + 1).
Proof.
  intros Hn E'.
  destruct (GRA_inv quad dist a b (n + 1) qc' P' ltac:(lia) E') as (Hnz & -> & ->).
  assert (H : masses_nonzero quad dist a b n).
  { intros m i Hm Hi. apply Hnz; [lia | assumption]. }
  eexists _, _.
  split; [apply GRA_ok with (1 := Hn) (2 := GRA_tables_ok quad dist a b n H)|].
  assert (EP : map (row (Pval quad dist a b)) (seq 0 (n + 1 + 1)) =
               map (row (Pval quad dist a b)) (seq 0 (n + 1)) ++
               [row (Pval quad dist a b) (n + 1)]).
  { replace (n + 1 + 1)%nat with (S (n + 1)) by lia.
    now rewrite seq_S, map_app. }
  split; [|split].
  - rewrite EP at 1. f_equal. f_equal. rewrite EP.
    rewrite app_nth2 by (rewrite length_map, length_seq; lia).
    rewrite length_map, length_seq, Nat.sub_diag. reflexivity.
  - cbn [data]. unfold gates. rewrite filter_app.
    fold (gates (swap_gates n)). rewrite gates_swaps. f_equal.
    fold (gates (rotation_instructions n (map (row (Tval quad dist a b)) (seq 0 (n + 1))))).
    rewrite gates_rotation_instructions.
    apply rotation_gates_ext; [exact Hn|]. intros m i Hm Hi.
    rewrite entry_Tt by (assumption || lia).
    rewrite <- (entry_Tt quad dist a b (n + 1) m i) by (assumption || lia).
    apply angle_of_masses_Tval; [lia | assumption].
  - cbn [data]. unfold gates. rewrite filter_app.
    fold (gates (swap_gates (n + 1))). rewrite gates_swaps.
    rewrite app_assoc. f_equal.
    fold (gates (rotation_instructions (n + 1)
                   (map (row (Tval quad dist a b)) (seq 0 (n + 1 + 1))))).
    rewrite gates_rotation_instructions, rotation_gates_S by assumption. f_equal.
    + apply rotation_gates_ext; [exact Hn|]. intros m i Hm Hi.
      apply angle_of_masses_Tval; [lia | assumption].
    + apply level_gates_ext. intros i Hi.
      apply angle_of_masses_Tval; [lia | assumption].
Qed.

Lemma GRA_one_more_qubit_witness :
  exists qc P,
    GRA midpoint2 1 (uniform 0 1) 0 1 = Ok (qc, P) /\
    map (row (Pval midpoint2 (uniform 0 1) 0 1)) (seq 0 (1 + 1 + 1)) =
      P ++ [nth (1 + 1) (map (row (Pval midpoint2 (uniform 0 1) 0 1)) (seq 0 (1 + 1 + 1))) []] /\
    gates (data qc) =
      rotation_gates
        (angle_of_masses (map (row (Pval midpoint2 (uniform 0 1) 0 1)) (seq 0 (1 + 1 + 1)))) 1 ++
      swap_gates 1 /\
    gates (data {| num_qubits := 1 + 1; num_clbits := 1 + 1;
                   data := rotation_instructions (1 + 1)
                             (map (row (Tval midpoint2 (uniform 0 1) 0 1))
                                  (seq 0 (1 + 1 + 1))) ++
                           swap_gates (1 + 1) |}) =
      rotation_gates
        (angle_of_masses (map (row (Pval midpoint2 (uniform 0 1) 0 1)) (seq 0 (1 + 1 + 1)))) 1 ++
      level_gates
        (angle_of_masses (map (row (Pval midpoint2 (uniform 0 1) 0 1)) (seq 0 (1 + 1 + 1)))) 1 ++
      swap_gates (1 + 1).
Proof.
  apply (GRA_one_more_qubit midpoint2 (uniform 0 1) 0 1 1).
  - lia.
  - apply GRA_ok
      with (F := map (row (Fval midpoint2 (uniform 0 1) 0 1)) (seq 0 (1 + 1 + 1))).
    + lia.
    + apply GRA_tables_ok, uniform_masses_nonzero.
Defined.

(** X6.  The calls [GRA] makes on the circuit, for [n >= 1] qubits: besides
    the [2^n - 1] rotations (one call of [rx], the others of [mcrx]) it
    calls [qc.x] [(n - 2) * 2^n + 2] times (over the [2^m] patterns of
    level [m], half of the [m * 2^m] bits are 0, and every 0 costs two
    calls), [qc.barrier] [n - 1] times and [qc.swap] [floor(n/2)] times,
    that is [(n - 1) * 2^n + n + floor(n/2)] calls in all.  (The gates
    into which Qiskit expands each call of [mcrx] are not counted.) *)
Theorem GRA_call_counts (quad : (R -> R) -> R -> R -> R) (dist : R -> R)
  (a b : R) (n : nat) (F T P : list (list R)) :
  (1 <= n)%nat ->
  GRA_tables quad n dist a b = Ok (F, T, P) ->
  exists qc,
    GRA quad n dist a b = Ok (qc, P) /\
    (length (filter is_x (data qc)) + 2 * 2 ^ n = n * 2 ^ n + 2)%nat /\
    length (filter is_barrier (data qc)) = (n - 1)%nat /\
    (length (data qc) + 2 ^ n = n * 2 ^ n + n + n / 2)%nat.
Proof.
  intros Hn E. eexists. split; [now apply GRA_ok with (1 := Hn) (2 := E)|].
  cbn [data]. destruct (swap_gates_counts n) as (Sx & Sb & Sl).
  rewrite !filter_app, !length_app, Sx, Sb, Sl. cbn [length].
  pose proof (x_gates_rotation_instructions n T Hn).
  pose proof (barriers_rotation_instructions n T).
  pose proof (length_rotation_instructions n T Hn).
  repeat split; lia.
Qed.

Lemma GRA_call_counts_witness :
  exists qc,
    GRA midpoint2 3 (uniform 0 1) 0 1 =
      Ok (qc, map (row (Pval midpoint2 (uniform 0 1) 0 1)) (seq 0 (3 + 1))) /\
    (length (filter is_x (data qc)) + 2 * 2 ^ 3 = 3 * 2 ^ 3 + 2)%nat /\
    length (filter is_barrier (data qc)) = (3 - 1)%nat /\
    (length (data qc) + 2 ^ 3 = 3 * 2 ^ 3 + 3 + 3 / 2)%nat.
Proof.
  apply (GRA_call_counts midpoint2 (uniform 0 1) 0 1 3
           (map (row (Fval midpoint2 (uniform 0 1) 0 1)) (seq 0 (3 + 1)))
           (map (row (Tval midpoint2 (uniform 0 1) 0 1)) (seq 0 (3 + 1)))).
  - lia.
  - apply GRA_tables_ok, uniform_masses_nonzero.
Defined.

(** X7.  One pattern of the circuit (the X gates, the multi-controlled RX on
    the controls [0..m-1] the loop over [m] builds, the X gates again), read
    with Qiskit's gate matrices, is the rotation RX by [2*T[m][i]] of
    qubit [m] on the basis states whose qubits [0..m-1] spell [i], qubit 0
    first, and nothing on the other basis states: the second layer of X
    gates undoes the first. *)
Theorem GRA_pattern_controlled_rotation (n : nat) (T : list (list R)) (m i : nat)
  (qc qc' : QuantumCircuit) :
  (m < n)%nat -> (i < 2 ^ m)%nat -> num_qubits qc = n ->
  GRA_pattern n T (seq 0 m) m i qc = Ok qc' ->
  num_qubits qc' = n /\
  forall (psi : state) (s : basis),
    run (data qc') psi s =
    if (pre m s =? i)%nat then rx_on (2 * entry T m i) m (run (data qc) psi) s
    else run (data qc) psi s.
Proof.
  intros Hm Hi Hq E.
  rewrite (GRA_pattern_inv n T m i qc qc' Hm Hq E). split; [exact Hq|].
  intros psi s. cbn [extend data].
  rewrite run_app, run_pattern by assumption. reflexivity.
Qed.

Lemma GRA_pattern_controlled_rotation_witness :
  num_qubits (extend (pattern_gates (entry [[0%R]; [1%R; 2%R]]) 1 0)
                {| num_qubits := 2; num_clbits := 2; data := [] |}) = 2%nat /\
  forall (psi : state) (s : basis),
    run (data (extend (pattern_gates (entry [[0%R]; [1%R; 2%R]]) 1 0)
                 {| num_qubits := 2; num_clbits := 2; data := [] |})) psi s =
    if (pre 1 s =? 0)%nat
    then rx_on (2 * entry [[0%R]; [1%R; 2%R]] 1 0) 1
           (run (data {| num_qubits := 2; num_clbits := 2; data := [] |}) psi) s
    else run (data {| num_qubits := 2; num_clbits := 2; data := [] |}) psi s.
Proof.
  apply (GRA_pattern_controlled_rotation 2 [[0%R]; [1%R; 2%R]] 1 0
           {| num_qubits := 2; num_clbits := 2; data := [] |}).
  - lia.
  - simpl; lia.
  - reflexivity.
  - reflexivity.
Defined.

(** X8.  The swaps that end the circuit never raise, and they reverse the
    order of the [n] qubits: after them the amplitude of a basis state is
    the amplitude its mirror image had (for odd [n] the middle qubit stays).
    Run twice, they change nothing. *)
Theorem GRA_swaps_reverse_register (n : nat) (qc : QuantumCircuit) :
  num_qubits qc = n ->
  exists qc' qc'',
    GRA_swaps n qc = Ok qc' /\
    GRA_swaps n qc' = Ok qc'' /\
    forall (psi : state),
      (forall s, run (data qc') psi s = run (data qc) psi (reverse n s)) /\
      run (data qc'') psi = run (data qc) psi.
Proof.
  intros Hq. eexists _, _.
  split; [now apply GRA_swaps_ok|].
  split; [now apply GRA_swaps_ok|].
  intros psi. cbn [extend data]. split.
  - intros s. now rewrite run_app, run_swap_gates.
  - rewrite !run_app, !run_swap_gates. apply functional_extensionality. intros s.
    now rewrite reverse_reverse.
Qed.

Lemma GRA_swaps_reverse_register_witness :
  exists qc' qc'',
    GRA_swaps 3 {| num_qubits := 3; num_clbits := 3; data := [] |} = Ok qc' /\
    GRA_swaps 3 qc' = Ok qc'' /\
    forall (psi : state),
      (forall s, run (data qc') psi s =
                 run (data {| num_qubits := 3; num_clbits := 3; data := [] |}) psi
                     (reverse 3 s)) /\
      run (data qc'') psi =
      run (data {| num_qubits := 3; num_clbits := 3; data := [] |}) psi.
Proof.
  apply (GRA_swaps_reverse_register 3 {| num_qubits := 3; num_clbits := 3; data := [] |}).
  reflexivity.
Defined.



(** X21.  Before the swaps the distribution sits in the register in
    bit-reversed order: for a density that is log-concave on [[a, b]]
    (integrated as in C8) and [n >= 1], the rotations of [GRA] alone, run on
    the register at zero, give a basis state the probability
    [P[n][x] / P[0][0]] for [x] the index of its mirror image (the level-1
    bit in qubit 0).  The swaps are what put it in order (X1, X8). *)
Theorem GRA_rotations_bit_reversed (quad : (R -> R) -> R -> R -> R)
  (dist : R -> R) (a b : R) (n : nat) :
  (1 <= n)%nat ->
  (a < b)%R ->
  log_concave_on dist a b ->
  positive_integrals quad dist a b ->
  additive_on_halves quad dist a b n ->
  exists F T P qc,
    GRA_tables quad n dist a b = Ok (F, T, P) /\
    GRA_rotations n T {| num_qubits := n; num_clbits := n; data := [] |} = Ok qc /\
    forall s : basis,
      probability (run (data qc) (zero_state n)) s =
        (entry P n (index n (reverse n s)) / entry P 0 0)%R.
Proof.
  intros Hn Hab Hlc Hpos Hadd.
  pose proof (positive_masses_nonzero quad dist a b Hab Hlc Hpos n) as H.
  eexists _, _, _, _. split; [apply (GRA_tables_ok quad dist a b n H)|].
  split.
  - apply GRA_rotations_ok; [apply getitem2_Tt | reflexivity | exact Hn].
  - intros s. cbn [extend data app].
    rewrite run_rotation_instructions by assumption.
    unfold probability, amp. rewrite Nat.sub_diag. cbn [seq existsb].
    rewrite (Cnorm2_prodfac quad dist a b n Hab Hlc Hpos Hadd n _ (le_n n)).
    rewrite pre_index_reverse.
    rewrite !entry_Pt by (lia || apply pow2_nat_pos || apply index_lt). reflexivity.
Qed.

Lemma GRA_rotations_bit_reversed_witness :
  exists F T P qc,
    GRA_tables midpoint2 2 (uniform 0 1) 0 1 = Ok (F, T, P) /\
    GRA_rotations 2 T {| num_qubits := 2; num_clbits := 2; data := [] |} = Ok qc /\
    forall s : basis,
      probability (run (data qc) (zero_state 2)) s =
        (entry P 2 (index 2 (reverse 2 s)) / entry P 0 0)%R.
Proof.
  apply (GRA_rotations_bit_reversed midpoint2 (uniform 0 1) 0 1 2).
  - lia.
  - exact Rlt_0_1.
  - exact uniform_log_concave.
  - apply midpoint2_positive.
  - apply uniform_additive.
Defined.

(** ** [norm] *)

(** X11.  [norm], the density the notebook passes to [GRA], is what the
    input of [GRA] has to be on the intervals within [[-38, 38]]: there it
    computes the density of the standard normal law, it is positive and its
    logarithm is concave.  It is even, nowhere negative, and largest at 0.
    Beyond 40 it is 0: [exp] underflows. *)
Theorem norm_log_concave (a b : R) :
  (- 38 <= a)%R -> (b <= 38)%R ->
  log_concave_on norm a b /\
  (forall x, (a <= x <= b)%R -> norm x = standard_normal x) /\
  (forall x, norm (- x) = norm x) /\
  (forall x, (0 <= norm x <= norm 0)%R) /\
  (forall x, (40 <= Rabs x)%R -> norm x = 0%R).
Proof.
  intros Ha Hb. split; [now apply norm_log_concave_on|]. split; [|split; [|split]].
  - intros x Hx. apply norm_near. lra.
  - apply norm_even.
  - apply norm_range.
  - apply norm_far.
Qed.

Lemma norm_log_concave_witness :
  log_concave_on norm 0 24 /\
  (forall x, (0 <= x <= 24)%R -> norm x = standard_normal x) /\
  (forall x, norm (- x) = norm x) /\
  (forall x, (0 <= norm x <= norm 0)%R) /\
  (forall x, (40 <= Rabs x)%R -> norm x = 0%R).
Proof.
  apply (norm_log_concave 0 24); lra.
Defined.



(** ** [binary_approx] *)

(** X13.  For [n <= 0], [binary_approx(n, k)] sets no bit: it returns
    [max(k, 0)] zeros and the total 0. *)
Theorem binary_approx_nonpositive (n : Q) (k : Z) :
  (n <= 0)%Q ->
  fst (KW.binary_approx n k) = repeat 0%Z (Z.to_nat k) /\
  (snd (KW.binary_approx n k) == 0)%Q.
Proof.
  intros Hn. unfold KW.binary_approx. rewrite zrange_indices.
  refine (loop_invariant n (fun j s => fst s = repeat 0%Z j /\ (snd s == 0)%Q)
            _ (Z.to_nat k) 0%nat ([], 0%Q) _); [|split; reflexivity].
  intros j [a total] [Ha Ht]. cbn [fst snd] in *.
  destruct (halves j) as [Hh _].
  destruct (body_cases n a total (1 + Z.of_nat j)) as [[Hc _]|[_ ->]].
  - exfalso. Lqa.lra.
  - cbn [fst snd]. split.
    + rewrite Ha. change [0%Z] with (repeat 0%Z 1). rewrite <- repeat_app.
      f_equal. lia.
    + rewrite bit_zero. Lqa.lra.
Qed.

Lemma binary_approx_nonpositive_witness :
  fst (KW.binary_approx (- (1 # 3)) 4) = repeat 0%Z (Z.to_nat 4) /\
  (snd (KW.binary_approx (- (1 # 3)) 4) == 0)%Q.
Proof.
  apply (binary_approx_nonpositive (- (1 # 3)) 4). discriminate.
Defined.

(** X14.  For [n >= 1] and [0 <= k <= 53], [binary_approx(n, k)], run on
    floats, sets every bit: it returns [k] ones and the total [1 - 1/2^k],
    whatever [n] is.  For [n > 1] the total is further than [1/2^k] from
    [n]: the bound of C5 needs [n <= 1]. *)
Theorem binary_approx_saturates (n : Q) (k : Z) :
  (1 <= n)%Q -> (0 <= k)%Z -> (k <= 53)%Z ->
  fst (KW.binary_approx_b64 n k) = repeat 1%Z (Z.to_nat k) /\
  (snd (KW.binary_approx_b64 n k) == 1 - 1 / KW.pow2 k)%Q /\
  ((1 < n)%Q -> (1 / KW.pow2 k < n - snd (KW.binary_approx_b64 n k))%Q).
Proof.
  intros Hn Hk Hk'.
  destruct (binary_approx_b64_exact n k Hk') as [Ea Et].
  rewrite Ea, Et. now apply exact_saturates.
Qed.

Lemma binary_approx_saturates_witness :
  fst (KW.binary_approx_b64 (3 # 2) 3) = repeat 1%Z (Z.to_nat 3) /\
  (snd (KW.binary_approx_b64 (3 # 2) 3) == 1 - 1 / KW.pow2 3)%Q /\
  ((1 < 3 # 2)%Q ->
   (1 / KW.pow2 3 < (3 # 2) - snd (KW.binary_approx_b64 (3 # 2) 3))%Q).
Proof.
  apply (binary_approx_saturates (3 # 2) 3).
  - discriminate.
  - lia.
  - lia.
Defined.

(** X15.  More bits refine the approximation and keep the bits there are:
    for [0 <= k <= k'], the bits of [binary_approx(n, k')] are the bits of
    [binary_approx(n, k)] followed by [k' - k] more bits, and the total
    does not decrease. *)
Theorem binary_approx_refines (n : Q) (k k' : Z) :
  (0 <= k)%Z -> (k <= k')%Z ->
  exists rest,
    fst (KW.binary_approx n k') = fst (KW.binary_approx n k) ++ rest /\
    Z.of_nat (length rest) = (k' - k)%Z /\
    Forall is_bit rest /\
    (snd (KW.binary_approx n k) <= snd (KW.binary_approx n k'))%Q.
Proof.
  intros Hk Hk'. unfold KW.binary_approx. rewrite !zrange_indices.
  replace (Z.to_nat k') with (Z.to_nat k + Z.to_nat (k' - k))%nat by lia.
  rewrite indices_app, fold_left_app. cbn [Nat.add].
  destruct (loop_extends n (indices (Z.to_nat k) (Z.to_nat (k' - k)))
              (fold_left (KW.binary_approx_body n) (indices 0 (Z.to_nat k)) ([], 0%Q))
              (indices_nonneg _ _)) as (rest & E & Hlen & Hb & Hle).
  exists rest. repeat split; try assumption.
  rewrite Hlen. unfold indices. rewrite length_map, length_seq. lia.
Qed.

Lemma binary_approx_refines_witness :
  exists rest,
    fst (KW.binary_approx (5 # 8) 3) = fst (KW.binary_approx (5 # 8) 1) ++ rest /\
    Z.of_nat (length rest) = (3 - 1)%Z /\
    Forall is_bit rest /\
    (snd (KW.binary_approx (5 # 8) 1) <= snd (KW.binary_approx (5 # 8) 3))%Q.
Proof.
  apply (binary_approx_refines (5 # 8) 1 3); lia.
Defined.

(** X16.  For [0 < n <= 1] and [0 <= k <= 53], the total
    [binary_approx(n, k)], run on floats, returns is the largest multiple
    of [1/2^k] strictly below [n]: it is [M / 2^k] with [M] the integer
    whose binary digits are the bits returned, the most significant first,
    [0 <= M < 2^k], and every integer [N] with [N / 2^k < n] is at most
    [M]. *)
Theorem binary_approx_largest_below (n : Q) (k : Z) :
  (0 < n)%Q -> (n <= 1)%Q -> (0 <= k)%Z -> (k <= 53)%Z ->
  (snd (KW.binary_approx_b64 n k) ==
   inject_Z (bits_value (fst (KW.binary_approx_b64 n k))) / KW.pow2 k)%Q /\
  (0 <= bits_value (fst (KW.binary_approx_b64 n k)) < 2 ^ k)%Z /\
  (inject_Z (bits_value (fst (KW.binary_approx_b64 n k))) / KW.pow2 k < n)%Q /\
  forall N : Z, (inject_Z N / KW.pow2 k < n)%Q ->
    (N <= bits_value (fst (KW.binary_approx_b64 n k)))%Z.
Proof.
  intros H0 H1 Hk Hk'.
  destruct (binary_approx_b64_exact n k Hk') as [Ea Et].
  rewrite Ea, Et. now apply exact_largest_below.
Qed.

Lemma binary_approx_largest_below_witness :
  (snd (KW.binary_approx_b64 (1 # 2) 3) ==
   inject_Z (bits_value (fst (KW.binary_approx_b64 (1 # 2) 3))) / KW.pow2 3)%Q /\
  (0 <= bits_value (fst (KW.binary_approx_b64 (1 # 2) 3)) < 2 ^ 3)%Z /\
  (inject_Z (bits_value (fst (KW.binary_approx_b64 (1 # 2) 3))) / KW.pow2 3 < 1 # 2)%Q /\
  forall N : Z, (inject_Z N / KW.pow2 3 < 1 # 2)%Q ->
    (N <= bits_value (fst (KW.binary_approx_b64 (1 # 2) 3)))%Z.
Proof.
  apply (binary_approx_largest_below (1 # 2) 3).
  - reflexivity.
  - discriminate.
  - lia.
  - lia.
Defined.

(** X17.  [binary_approx] keeps the order of its inputs, whatever they are:
    for [n <= n'] and the same [k], the bits returned for [n], read as a
    binary integer, are at most those returned for [n'], and so are the
    totals. *)
Theorem binary_approx_monotone (n n' : Q) (k : Z) :
  (n <= n')%Q ->
  (bits_value (fst (KW.binary_approx n k)) <=
   bits_value (fst (KW.binary_approx n' k)))%Z /\
  (snd (KW.binary_approx n k) <= snd (KW.binary_approx n' k))%Q.
Proof.
  intros Hn. unfold KW.binary_approx. rewrite zrange_indices.
  pose proof (loop_invariant2 n n' ordered
                (fun j s s' => ordered_step n n' j s s' Hn)
                (Z.to_nat k) 0%nat ([], 0%Q) ([], 0%Q)) as L.
  cbn [Nat.add] in L. destruct L as (Hs & Hs' & Hle).
  - unfold ordered. cbn [fst snd]. repeat split; reflexivity || lia.
  - split; [exact Hle|]. rewrite Hs, Hs'.
    apply scaled_le; [apply pow2_nat_pos_Q | exact Hle].
Qed.

Lemma binary_approx_monotone_witness :
  (bits_value (fst (KW.binary_approx (1 # 3) 4)) <=
   bits_value (fst (KW.binary_approx (2 # 3) 4)))%Z /\
  (snd (KW.binary_approx (1 # 3) 4) <= snd (KW.binary_approx (2 # 3) 4))%Q.
Proof.
  apply (binary_approx_monotone (1 # 3) (2 # 3) 4). discriminate.
Defined.

(** ** [f] and [angle] *)

(** X18.  For the mean 0 of the notebook, [sigma <> 0] and [n >= 0],
    [angle] stays in the domain of its functions: the ratio
    [f(0, sigma/2, n) / f(0, sigma, n)] lies in [(0, 1]], so that
    [angle(0, sigma, n)] lies in [[0, pi/2)] and
    [alpha = angle(0, sigma, n) / (2*pi)], the number the notebook passes
    to [binary_approx], in [[0, 1/4)]. *)
Theorem angle_centred_in_domain (sigma : R) (n : Z) :
  sigma <> 0%R -> (0 <= n)%Z ->
  (0 < KW.f (0 / 2) (sigma / 2) n / KW.f 0 sigma n <= 1)%R /\
  (0 <= KW.angle 0 sigma n < PI / 2)%R /\
  (0 <= KW.angle 0 sigma n / (2 * PI) < 1 / 4)%R.
Proof.
  intros Hs Hn. pose proof (ratio_centred sigma n Hs Hn) as Hr.
  pose proof (acos_sqrt_range_closed _ Hr) as Ha.
  pose proof PI_RGT_0 as Hpi.
  split; [exact Hr|]. split; [exact Ha|].
  fold (KW.angle 0 sigma n) in Ha. split.
  - apply Rmult_le_pos; [lra | apply Rlt_le, Rinv_0_lt_compat; lra].
  - apply (Rmult_lt_reg_r (2 * PI)); [lra|].
    unfold Rdiv. rewrite Rmult_assoc, Rinv_l by lra. lra.
Qed.

Lemma angle_centred_in_domain_witness :
  (0 < KW.f (0 / 2) (1 / 2) 1000 / KW.f 0 1 1000 <= 1)%R /\
  (0 <= KW.angle 0 1 1000 < PI / 2)%R /\
  (0 <= KW.angle 0 1 1000 / (2 * PI) < 1 / 4)%R.
Proof.
  apply (angle_centred_in_domain 1 1000).
  - exact R1_neq_R0.
  - lia.
Defined.

(** X19.  Away from the mean 0 the truncation of the two sums to the same
    indices [-n..n] takes [angle] out of the domain of [arccos]: for
    [n >= 1], the mean [mu = 2n] and [0 < sigma^2 <= n/2], the sum
    [f(mu, sigma, n)] is at most 1, the sum [f(mu/2, sigma/2, n)], which
    holds the term 1 of the index [n], is at least 1, and the number
    [angle(mu, sigma, n)] passes to [arccos] is above 1. *)
Theorem angle_far_mean_out_of_domain (sigma : R) (n : Z) :
  sigma <> 0%R -> (1 <= n)%Z -> (sigma ^ 2 <= IZR n / 2)%R ->
  (KW.f (2 * IZR n) sigma n <= 1)%R /\
  (1 <= KW.f (2 * IZR n / 2) (sigma / 2) n)%R /\
  (1 < sqrt (KW.f (2 * IZR n / 2) (sigma / 2) n / KW.f (2 * IZR n) sigma n))%R /\
  KW.angle (2 * IZR n) sigma n =
    acos (sqrt (KW.f (2 * IZR n / 2) (sigma / 2) n / KW.f (2 * IZR n) sigma n)).
Proof.
  intros Hs Hn Hsmall. split; [|split; [|split; [|reflexivity]]].
  all: assert (HN : (1 <= Z.to_nat n)%nat) by lia.
  all: assert (E : IZR n = INR (Z.to_nat n))
         by (rewrite INR_IZR_INZ, Z2Nat.id; [reflexivity | lia]).
  all: rewrite E in *.
  all: pose proof (numerator_above_1 sigma (Z.to_nat n) Hs HN Hsmall) as H1.
  all: pose proof (denominator_at_most_1 sigma (Z.to_nat n) Hs HN Hsmall) as H2.
  all: rewrite <- !f_symmetric in H1, H2 by lia.
  all: pose proof (f_pos (2 * INR (Z.to_nat n)) sigma n ltac:(lia)) as H0.
  - lra.
  - lra.
  - rewrite <- sqrt_1. apply sqrt_lt_1; [lra | |].
    + apply Rlt_le, Rdiv_lt_0_compat; lra.
    + apply (Rmult_lt_reg_r (KW.f (2 * INR (Z.to_nat n)) sigma n)); [exact H0|].
      unfold Rdiv. rewrite Rmult_assoc, Rinv_l by lra. lra.
Qed.

Lemma angle_far_mean_out_of_domain_witness :
  (KW.f (2 * IZR 2) (1 / 2) 2 <= 1)%R /\
  (1 <= KW.f (2 * IZR 2 / 2) (1 / 2 / 2) 2)%R /\
  (1 < sqrt (KW.f (2 * IZR 2 / 2) (1 / 2 / 2) 2 / KW.f (2 * IZR 2) (1 / 2) 2))%R /\
  KW.angle (2 * IZR 2) (1 / 2) 2 =
    acos (sqrt (KW.f (2 * IZR 2 / 2) (1 / 2 / 2) 2 / KW.f (2 * IZR 2) (1 / 2) 2)).
Proof.
  apply (angle_far_mean_out_of_domain (1 / 2) 2).
  - lra.
  - lia.
  - lra.
Defined.



(** ** The circuit of [main.ipynb] *)

(** X22.  The cell of [main.ipynb] that builds [qc = QuantumCircuit(4, 3)]
    raises nothing, and its circuit (the Hadamard gates, the ladder of CX
    gates, [RZ(pi/4)] on qubit 3, the ladder back, the Hadamard gates),
    read with Qiskit's gate matrices, is the rotation
    [exp(-i (pi/8) X.X.X.X)]: it maps every state [psi] to
    [cos(pi/8) psi - i sin(pi/8) psi'], where [psi'] is [psi] with the four
    qubits flipped.  On the register at zero a measurement gives [0000]
    with probability [(1 + 1/sqrt 2)/2], [1111] with probability
    [(1 - 1/sqrt 2)/2], and nothing else. *)
Theorem circuit_cell_rotates_about_XXXX :
  exists qc,
    KW.circuit_cell = Ok qc /\
    KW.num_qubits qc = 4%nat /\
    (forall (psi : state) (s : basis),
       run_gates (KW.data qc) psi s =
       Cadd (Cmul (cos (PI / 8), 0%R) (psi s))
            (Cmul (0%R, (- sin (PI / 8))%R)
                  (psi (flip 0 (flip 1 (flip 2 (flip 3 s))))))) /\
    (forall s : basis,
       probability (run_gates (KW.data qc) (zero_state 4)) s =
       if negb (existsb s (seq 0 4)) then ((1 + / sqrt 2) / 2)%R
       else if forallb s (seq 0 4) then ((1 - / sqrt 2) / 2)%R
       else 0%R).
Proof.
  eexists. split; [apply cell_ok|]. cbn [KW.num_qubits KW.data].
  split; [reflexivity|].
  assert (E : (PI / 4 / 2 = PI / 8)%R) by field.
  split.
  - intros psi s. rewrite run_cell, E. reflexivity.
  - intros s. rewrite run_cell, E. unfold probability, combine, x_on.
    rewrite !zero_state_4. cbn [seq existsb forallb].
    rewrite <- cos2_PI8, <- sin2_PI8. unfold Rsqr.
    destruct (s 0%nat) eqn:E0, (s 1%nat) eqn:E1, (s 2%nat) eqn:E2, (s 3%nat) eqn:E3;
      repeat (first [ rewrite flip_same | rewrite flip_other by lia
                    | rewrite E0 | rewrite E1 | rewrite E2 | rewrite E3 ];
              cbn [negb orb andb]);
      unfold Cnorm2, Cadd, Cmul; cbn [fst snd]; ring.
Qed.
